(** * react-indexed-db: the migration sequencer, the connection opener and
      the operation facade of [indexed-db.ts], and the configuration
      singleton of [indexed-hooks.ts], over a model of the host's IndexedDB. *)

From Stdlib Require Import ZArith List Bool Lia Ascii.
From stdpp Require Import base option list strings gmap pretty.

Open Scope string_scope.
Open Scope list_scope.

(** ** Schema descriptors ([indexed-hooks.ts]) *)

Record IndexOptions := { unique : bool }.

Record ObjectStoreSchema := {
  name : string;
  keypath : string;
  options : IndexOptions
}.

Record StoreConfig := {
  keyPath : string;
  autoIncrement : bool
}.

Record ObjectStoreMeta := {
  store : string;
  storeConfig : StoreConfig;
  storeSchema : list ObjectStoreSchema
}.

(** ** The host environment: keys, values and key paths

    Strings are strings of ASCII characters, numbers are integers. *)

(** [string | number] keys; numbers sort before strings. *)
Inductive Key := KNum (n : Z) | KStr (s : string).

Definition key_eqb (a b : Key) : bool :=
  match a, b with
  | KNum x, KNum y => (x =? y)%Z
  | KStr x, KStr y => String.eqb x y
  | _, _ => false
  end.

Definition key_ltb (a b : Key) : bool :=
  match a, b with
  | KNum x, KNum y => (x <? y)%Z
  | KNum _, KStr _ => true
  | KStr _, KNum _ => false
  | KStr x, KStr y => String.ltb x y
  end.

(** A stored value: a number, a string, or an object whose properties
    hold such values, in the order they were set. *)
#[local] Set Warnings "-register-all".
Inductive Value :=
  | VNum (n : Z)
  | VStr (s : string)
  | VObject (props : list (string * Value)).
#[local] Set Warnings "register-all".

Fixpoint get_prop (p : string) (props : list (string * Value)) : option Value :=
  match props with
  | [] => None
  | (q, v) :: props' => if String.eqb p q then Some v else get_prop p props'
  end.

(** [object[p] = v]: in place when the property is there, last otherwise. *)
Fixpoint set_prop (p : string) (v : Value) (props : list (string * Value))
  : list (string * Value) :=
  match props with
  | [] => [(p, v)]
  | (q, v') :: props' =>
      if String.eqb p q then (p, v) :: props'
      else (q, v') :: set_prop p v props'
  end.

(** The key a value is, when it is one. *)
Definition as_key (v : Value) : option Key :=
  match v with
  | VNum n => Some (KNum n)
  | VStr s => Some (KStr s)
  | VObject _ => None
  end.

Definition of_key (k : Key) : Value :=
  match k with
  | KNum n => VNum n
  | KStr s => VStr s
  end.

(** [s.split('.')] *)
Fixpoint split_dots (s : string) : list string :=
  match s with
  | EmptyString => [""]
  | String c s' =>
      if Ascii.eqb c "."%char then "" :: split_dots s'
      else match split_dots s' with
           | x :: l => String c x :: l
           | [] => [String c ""]
           end
  end.

(** The identifiers of a key path: none for the empty string, which
    stands for the value itself. *)
Definition identifiers (path : string) : list string :=
  if String.eqb path "" then [] else split_dots path.

Definition identifier_start (c : ascii) : bool :=
  let n := nat_of_ascii c in
  ((65 <=? n) && (n <=? 90) || (97 <=? n) && (n <=? 122)
   || (n =? 36) || (n =? 95))%nat.

Definition identifier_part (c : ascii) : bool :=
  let n := nat_of_ascii c in
  identifier_start c || ((48 <=? n) && (n <=? 57))%nat.

(** An identifier of the language, within ASCII: a letter, [$] or [_],
    then letters, digits, [$] and [_].  Outside ASCII the host consults the
    Unicode tables, which are not modelled: such a character is taken for
    no part of an identifier. *)
Definition is_identifier (s : string) : bool :=
  match s with
  | EmptyString => false
  | String c s' =>
      identifier_start c && forallb identifier_part (String.list_ascii_of_string s')
  end.

(** A valid key path: the empty string, or identifiers separated by
    periods. *)
Definition valid_key_path (path : string) : bool :=
  forallb is_identifier (identifiers path).

(** Evaluating a key path on a value, identifier by identifier: a
    property of an object, or the length of a string. *)
Fixpoint evaluate (path : list string) (value : Value) : option Value :=
  match path with
  | [] => Some value
  | identifier :: rest =>
      match value with
      | VStr s =>
          if String.eqb identifier "length"
          then evaluate rest (VNum (Z.of_nat (String.length s)))
          else None
      | VObject props =>
          match get_prop identifier props with
          | Some v => evaluate rest v
          | None => None
          end
      | VNum _ => None
      end
  end.

(** Extracting a key from a value using a key path: nothing there, what
    is there is no key, or a key. *)
Inductive Extracted :=
  | ExFailure
  | ExInvalid
  | ExKey (k : Key).

Definition extract_key (path : string) (value : Value) : Extracted :=
  match evaluate (identifiers path) value with
  | None => ExFailure
  | Some v =>
      match as_key v with
      | Some k => ExKey k
      | None => ExInvalid
      end
  end.

(** Injecting a key into a value using a key path: the objects on the way
    are made where they are missing; nothing when a value on the way is no
    object. *)
Fixpoint inject (path : list string) (k : Value) (value : Value)
  : option Value :=
  match value with
  | VObject props =>
      match path with
      | [] => None
      | [last] => Some (VObject (set_prop last k props))
      | identifier :: rest =>
          match inject rest k (default (VObject []) (get_prop identifier props)) with
          | Some v => Some (VObject (set_prop identifier v props))
          | None => None
          end
      end
  | _ => None
  end.

Definition could_inject (path : list string) (value : Value) : bool :=
  match inject path (VNum 0) value with
  | Some _ => true
  | None => false
  end.

(** ** Object stores and databases *)

Record IDBObjectStore := {
  os_name : string;
  os_keyPath : option string;
  os_autoIncrement : bool;
  os_indexes : list ObjectStoreSchema;
  os_keygen : Z;
  os_records : list (Key * Value)
}.

Definition indexNames (os : IDBObjectStore) : list string :=
  map name (os_indexes os).

Record IDBDatabase := {
  db_version : Z;
  objectStores : list IDBObjectStore
}.

Definition objectStoreNames (stores : list IDBObjectStore) : list string :=
  map os_name stores.

(** [DOMStringList.contains] *)
Definition contains (names : list string) (s : string) : bool :=
  bool_decide (s ∈ names).

Inductive DOMException :=
  | ConstraintError | NotFoundError | DataError | VersionError
  | AbortError | InvalidStateError | TypeError
  | SyntaxError | InvalidAccessError.

Record IDBVersionChangeEvent := {
  oldVersion : Z;
  newVersion : option Z
}.

(** What the code throws or rejects with. *)
Inductive Error :=
  | ErrNotInitialized
  | ErrNewVersionUnset
  | ErrMissingMigration (v : Z)
  | ErrUpNotImplemented (v : Z)
  | ErrMigrationFailed (v : Z)
  | ErrStoreMissing (s : string)
  | ErrOpen (e : DOMException)
  | ErrEnv (e : DOMException)
  | ErrBlocked (event : IDBVersionChangeEvent)
  | ErrUser (msg : string).

(** The message strings of the [throw new Error(...)] sites of the two
    source files, and the one the helper of [./Utils] rejects with.  What
    the host raises ([ErrEnv], [ErrBlocked]) is an exception or an event of
    the host's; [ErrOpen] is [`IndexedDB error: ${request.error}`], whose
    text after the colon is the host's too: no message is given for
    these. *)
Definition error_message (e : Error) : option string :=
  match e with
  | ErrNotInitialized => Some "Please, initialize the DB before the use."
  | ErrNewVersionUnset => Some "New version of indexedDb hasn't been set"
  | ErrMissingMigration v =>
      Some ("Db configuration should contain a migration for version "
            +:+ pretty v)
  | ErrUpNotImplemented v =>
      Some ("Up callback hasn't been implemented for migration with version "
            +:+ pretty v)
  | ErrMigrationFailed v =>
      Some ("Migration for version " +:+ (pretty v +:+ " has failed"))
  | ErrStoreMissing s => Some ("objectStore does not exists: " +:+ s)
  | ErrUser msg => Some msg
  | ErrOpen _ | ErrEnv _ | ErrBlocked _ => None
  end.

(** ** Code that runs inside the upgrade transaction

    The database handle is the state; a [throw] keeps the state reached so
    far (the transaction decides later whether it is kept). *)

Inductive Completion (A : Type) :=
  | Normal (a : A)
  | Throw (e : Error).
Arguments Normal {A} a.
Arguments Throw {A} e.

(** State threaded through code that may throw. *)
Definition SE (S A : Type) : Type := S -> Completion A * S.

Definition ret {S A} (a : A) : SE S A := fun s => (Normal a, s).

Definition throw {S A} (e : Error) : SE S A := fun s => (Throw e, s).

Definition bind {S A B} (m : SE S A) (k : A -> SE S B) : SE S B :=
  fun s =>
    match m s with
    | (Normal a, s') => k a s'
    | (Throw e, s') => (Throw e, s')
    end.

(** [try { m } catch (e) { ... }]: the completion becomes a value. *)
Definition try_ {S A} (m : SE S A) : SE S (Completion A) :=
  fun s => let '(r, s') := m s in (Normal r, s').

Declare Scope se_scope.
Delimit Scope se_scope with se.
Notation "x <- m ; k" := (bind m (fun x => k))
  (at level 100, m at next level, k at level 200, right associativity)
  : se_scope.
Notation "m ;; k" := (bind m (fun _ => k))
  (at level 100, k at level 200, right associativity) : se_scope.

Definition Upgrade (A : Type) : Type := SE (list IDBObjectStore) A.

(** [Array.prototype.forEach] with an effectful body. *)
Fixpoint forEach {A} (f : A -> Upgrade unit) (l : list A) : Upgrade unit :=
  match l with
  | [] => ret tt
  | x :: l' => (f x ;; forEach f l')%se
  end.

(** [database.objectStoreNames] *)
Definition read_objectStoreNames : Upgrade (list string) :=
  fun db => (Normal (objectStoreNames db), db).

Definition new_store (storeName : string) (cfg : StoreConfig) : IDBObjectStore :=
  {| os_name := storeName;
     os_keyPath := Some (keyPath cfg);
     os_autoIncrement := autoIncrement cfg;
     os_indexes := [];
     os_keygen := 1;
     os_records := [] |}.

(** [IDBDatabase.createObjectStore]: a [SyntaxError] for a key path that
    is not valid, then a [ConstraintError] when a store of that name
    exists, then an [InvalidAccessError] for a key generator with the empty
    key path; the handle returned is the store's name. *)
Definition createObjectStore (storeName : string) (cfg : StoreConfig)
  : Upgrade string :=
  fun db =>
    if negb (valid_key_path (keyPath cfg))
    then (Throw (ErrEnv SyntaxError), db)
    else if contains (objectStoreNames db) storeName
    then (Throw (ErrEnv ConstraintError), db)
    else if autoIncrement cfg && String.eqb (keyPath cfg) ""
    then (Throw (ErrEnv InvalidAccessError), db)
    else (Normal storeName, db ++ [new_store storeName cfg]).

Definition add_index (ix : ObjectStoreSchema) (os : IDBObjectStore)
  : IDBObjectStore :=
  {| os_name := os_name os;
     os_keyPath := os_keyPath os;
     os_autoIncrement := os_autoIncrement os;
     os_indexes := os_indexes os ++ [ix];
     os_keygen := os_keygen os;
     os_records := os_records os |}.

Fixpoint find_store (storeName : string) (db : list IDBObjectStore)
  : option IDBObjectStore :=
  match db with
  | [] => None
  | os :: db' =>
      if String.eqb (os_name os) storeName then Some os
      else find_store storeName db'
  end.

Fixpoint replace_store (os' : IDBObjectStore) (db : list IDBObjectStore)
  : list IDBObjectStore :=
  match db with
  | [] => []
  | os :: db' =>
      if String.eqb (os_name os) (os_name os') then os' :: db'
      else os :: replace_store os' db'
  end.

(** [IDBObjectStore.createIndex]: a [ConstraintError] when the store has
    an index of that name already, then a [SyntaxError] for a key path that
    is not valid. *)
Definition createIndex (objectStore : string) (ixName ixKeypath : string)
    (ixOptions : IndexOptions) : Upgrade unit :=
  fun db =>
    match find_store objectStore db with
    | None => (Throw (ErrEnv InvalidStateError), db)
    | Some os =>
        if contains (indexNames os) ixName
        then (Throw (ErrEnv ConstraintError), db)
        else if negb (valid_key_path ixKeypath)
        then (Throw (ErrEnv SyntaxError), db)
        else (Normal tt,
              replace_store
                (add_index {| name := ixName; keypath := ixKeypath;
                              options := ixOptions |} os) db)
    end.

(** ** [defaultMigrationBehaviour] (indexed-db.ts, lines 34-45) *)

Definition defaultMigrationBehaviour (storeSchemas : list ObjectStoreMeta)
  : Upgrade bool :=
  (forEach (fun meta : ObjectStoreMeta =>
      names <- read_objectStoreNames ;
      if negb (contains names (store meta)) then
        objectStore <- createObjectStore (store meta) (storeConfig meta) ;
        forEach (fun schema : ObjectStoreSchema =>
                   createIndex objectStore (name schema) (keypath schema)
                               (options schema))
                (storeSchema meta)
      else ret tt) storeSchemas ;;
   ret true)%se.

(** ** Migrations ([IDBMigration], [applyMigrations], lines 47-69) *)

Definition UpFn : Type :=
  list ObjectStoreMeta -> (list ObjectStoreMeta -> Upgrade bool) -> Upgrade bool.

Record IDBMigration := {
  toVersion : Z;
  up : option UpFn
}.

(** The sequencer's state: the stores of the database being upgraded and
    the migrations whose [up] has been called, oldest first. *)
Record MigState := {
  database : list IDBObjectStore;
  invoked : list IDBMigration
}.

Definition call_up (migration : IDBMigration) (f : UpFn)
    (storeSchemas : list ObjectStoreMeta) (st : MigState)
  : Completion bool * MigState :=
  let '(r, db') := f storeSchemas defaultMigrationBehaviour (database st) in
  (r, {| database := db'; invoked := invoked st ++ [migration] |}).

(** One iteration of the [for] body (lines 55-67) at [nextVersion]. *)
Definition migrate_to (storeSchemas : list ObjectStoreMeta)
    (migrations : list IDBMigration) (nextVersion : Z) (st : MigState)
  : Completion unit * MigState :=
  match find (fun x => (toVersion x =? nextVersion)%Z) migrations with
  | None => (Throw (ErrMissingMigration nextVersion), st)
  | Some migration =>
      match up migration with
      | None => (Throw (ErrUpNotImplemented nextVersion), st)
      | Some f =>
          match call_up migration f storeSchemas st with
          | (Throw e, st') => (Throw e, st')
          | (Normal succeeded, st') =>
              if succeeded then (Normal tt, st')
              else (Throw (ErrMigrationFailed nextVersion), st')
          end
      end
  end.

(** The [for] loop of line 54; [n] counts the iterations still to run,
    that is [newVersion + 1 - nextVersion] when that is positive. *)
Fixpoint applyMigrations_for (n : nat) (storeSchemas : list ObjectStoreMeta)
    (migrations : list IDBMigration) (nextVersion : Z) (st : MigState)
  : Completion unit * MigState :=
  match n with
  | O => (Normal tt, st)
  | S n' =>
      match migrate_to storeSchemas migrations nextVersion st with
      | (Normal _, st') =>
          applyMigrations_for n' storeSchemas migrations (nextVersion + 1) st'
      | (Throw e, st') => (Throw e, st')
      end
  end.

Definition iterations (nextVersion newVersion : Z) : nat :=
  Z.to_nat (newVersion + 1 - nextVersion).

Definition applyMigrations (event : IDBVersionChangeEvent)
    (storeSchemas : list ObjectStoreMeta) (migrations : list IDBMigration)
    (st : MigState) : Completion unit * MigState :=
  match newVersion event with
  | None => (Throw ErrNewVersionUnset, st)
  | Some newV =>
      applyMigrations_for (iterations (oldVersion event + 1) newV)
        storeSchemas migrations (oldVersion event + 1) st
  end.

(** ** Promises, observations and the world an operation runs in *)

(** A connection: [db.objectStoreNames] and transactions read the
    database of that name in the factory. *)
Record IDBHandle := {
  h_name : string;
  h_version : Z
}.

Inductive JSResult :=
  | RUndefined
  | REvent
  | RHandle (db : IDBHandle)
  | RValue (v : option Value)
  | RValues (l : list Value)
  | RKey (k : Key).

Inductive Promise :=
  | Pending
  | Resolved (r : JSResult)
  | Rejected (e : Error).

Inductive DBMode := readonly | readwrite.

(** A request, with the arguments of the call that made it. *)
Inductive Request :=
  | ReqGetAll
  | ReqGet (id : Key)
  | ReqIndexGet (ix : ObjectStoreSchema) (key : Key)
  | ReqOpenCursor (keyRange : option (Key * Key))
  | ReqAdd (value : Value) (key : option Key)
  | ReqPut (value : Value) (key : option Key)
  | ReqDelete (key : Key)
  | ReqClear.

(** What happens, in the order it happens. *)
Inductive Obs :=
  | OOpen (dbName : string) (version : Z)
  | OBlocked (event : IDBVersionChangeEvent)
  | OUpgradeCallback (event : IDBVersionChangeEvent) (db : option IDBHandle)
  | OOpenSettled (p : Promise)
  | OMigrationUp (m : IDBMigration)
  | OValidate (storeName : string)
  | OTransaction (mode : DBMode) (storeName : string)
  | OTxStarted (mode : DBMode) (storeName : string)
  | ORequest (rq : Request)
  | ORequestSuccess (r : JSResult)
  | ORequestError (e : DOMException)
  | OCursorCallback (entry : option (Key * Value))
  | OComplete
  | OAbort
  | OSettled (p : Promise)
  | OUncaught (e : Error).

(** The databases of the host; the connections that are open, by the name
    of their database, one entry for each; whether the host closes the
    connections an open request waits for (it does when their handles have
    been collected) or leaves them open for as long as is observed; the
    promise of the operation; and what happened so far. *)
Record World := {
  factory : gmap string IDBDatabase;
  connections : list string;
  releases : bool;
  promise : Promise;
  trace : list Obs
}.

Definition IO (A : Type) : Type := SE World A.

Definition log (o : Obs) : IO unit :=
  fun w => (Normal tt, {| factory := factory w;
                          connections := connections w;
                          releases := releases w;
                          promise := promise w;
                          trace := trace w ++ [o] |}).

Definition get_factory : IO (gmap string IDBDatabase) :=
  fun w => (Normal (factory w), w).

Definition set_factory (f : gmap string IDBDatabase) : IO unit :=
  fun w => (Normal tt, {| factory := f;
                          connections := connections w;
                          releases := releases w;
                          promise := promise w;
                          trace := trace w |}).

Definition get_connections : IO (list string) :=
  fun w => (Normal (connections w), w).

Definition set_connections (l : list string) : IO unit :=
  fun w => (Normal tt, {| factory := factory w;
                          connections := l;
                          releases := releases w;
                          promise := promise w;
                          trace := trace w |}).

Definition get_releases : IO bool :=
  fun w => (Normal (releases w), w).

(** The operation's promise settles once; later calls change nothing. *)
Definition settle (p : Promise) : IO unit :=
  fun w =>
    match promise w with
    | Pending => (Normal tt, {| factory := factory w;
                                connections := connections w;
                                releases := releases w;
                                promise := p;
                                trace := trace w ++ [OSettled p] |})
    | _ => (Normal tt, w)
    end.

Definition resolve (r : JSResult) : IO unit := settle (Resolved r).
Definition reject (e : Error) : IO unit := settle (Rejected e).

(** An event handler that may not be set. *)
Definition fire {A} (h : option (A -> IO unit)) (a : A) : IO unit :=
  match h with
  | Some f => f a
  | None => ret tt
  end.

(** A database that was never opened has version 0 and no store. *)
Definition stored (f : gmap string IDBDatabase) (dbName : string) : IDBDatabase :=
  default {| db_version := 0; objectStores := [] |} (f !! dbName).

Inductive OpenOutcome :=
  | OpenThrows (e : DOMException)
  | OpenFails (e : DOMException)
  | OpenUpgrade (event : IDBVersionChangeEvent)
  | OpenSucceeds.

(** The largest version: [2^53 - 1]. *)
Definition max_version : Z := 9007199254740991.

(** [indexedDB.open(dbName, version)]: a [TypeError] for a version that
    is not positive or above [2^53 - 1], a [VersionError] below the stored
    version, an upgrade above it. *)
Definition classify_open (current : IDBDatabase) (version : Z) : OpenOutcome :=
  if (version <=? 0)%Z || (max_version <? version)%Z then OpenThrows TypeError
  else if (version <? db_version current)%Z then OpenFails VersionError
  else if (db_version current <? version)%Z then
    OpenUpgrade {| oldVersion := db_version current;
                   newVersion := Some version |}
  else OpenSucceeds.

(** A version change needs every other connection to the database closed.
    The connections that are open have no [versionchange] handler and stay
    open: the request gets a [blocked] event and waits.  It goes on once
    the host has closed them, and not at all otherwise. *)
Definition await_versionchange (dbName : string)
    (event : IDBVersionChangeEvent)
    (onblocked : option (IDBVersionChangeEvent -> IO unit)) : IO bool :=
  (conns <- get_connections ;
   if contains conns dbName then
     log (OBlocked event) ;;
     fire onblocked event ;;
     released <- get_releases ;
     if released : bool then
       set_connections
         (List.filter (fun c => negb (String.eqb c dbName)) conns) ;;
       ret true
     else ret false
   else ret true)%se.

(** A connection that stays open. *)
Definition connect (dbName : string) : IO unit :=
  (conns <- get_connections ;
   set_connections (conns ++ [dbName]))%se.

Definition commit_upgrade (dbName : string) (version : Z)
    (stores : list IDBObjectStore) : IO unit :=
  (f <- get_factory ;
   set_factory (<[dbName := {| db_version := version;
                               objectStores := stores |}]> f))%se.

(** ** [openDatabase] (indexed-db.ts, lines 15-32) *)

Definition UpgradeCallback : Type :=
  IDBVersionChangeEvent -> option IDBHandle -> Upgrade unit.

(** The promise [openDatabase] returns, as its caller finds it:
    [Waiting] is the promise of a request that is blocked and still
    waits. *)
Inductive Opened :=
  | Fulfilled (db : IDBHandle)
  | Failed (e : Error)
  | Waiting.

Definition settle_open (o : Opened) : IO Opened :=
  (log (OOpenSettled match o with
                     | Fulfilled db => Resolved (RHandle db)
                     | Failed e => Rejected e
                     | Waiting => Pending
                     end) ;;
   ret o)%se.

Definition openDatabase (dbName : string) (version : Z)
    (upgradeCallback : option UpgradeCallback) : IO Opened :=
  (log (OOpen dbName version) ;;
   f <- get_factory ;
   let current := stored f dbName in
   let result := {| h_name := dbName; h_version := version |} in
   (* let db: IDBDatabase; *)
   let db : option IDBHandle := None in
   match classify_open current version with
   | OpenThrows e => settle_open (Failed (ErrEnv e))
   | OpenFails e =>
       (* request.onerror *)
       settle_open (Failed (ErrOpen e))
   | OpenUpgrade event =>
       (* no request.onblocked *)
       go <- await_versionchange dbName event None ;
       if go : bool then
         (* request.onupgradeneeded, when a callback was given *)
         match upgradeCallback with
         | Some callback =>
             log (OUpgradeCallback event db) ;;
             match callback event db (objectStores current) with
             | (Normal _, stores) =>
                 commit_upgrade dbName version stores ;;
                 connect dbName ;;
                 (* request.onsuccess *)
                 let db := Some result in
                 settle_open (Fulfilled result)
             | (Throw e, _) =>
                 (* the exception aborts the upgrade; request.onerror *)
                 log (OUncaught e) ;; log OAbort ;;
                 settle_open (Failed (ErrOpen AbortError))
             end
         | None =>
             commit_upgrade dbName version (objectStores current) ;;
             connect dbName ;;
             let db := Some result in
             settle_open (Fulfilled result)
         end
       else ret Waiting
   | OpenSucceeds =>
       connect dbName ;;
       (* request.onsuccess *)
       let db := Some result in
       settle_open (Fulfilled result)
   end)%se.

(** ** [CreateObjectStore] (indexed-db.ts, lines 71-107) *)

Definition run_upgrade (event : IDBVersionChangeEvent)
    (storeSchemas : list ObjectStoreMeta)
    (migrations : option (list IDBMigration)) (st : MigState)
  : Completion unit * MigState :=
  match migrations with
  | Some ms => applyMigrations event storeSchemas ms st
  | None =>
      let '(r, db') := defaultMigrationBehaviour storeSchemas (database st) in
      (match r with Normal _ => Normal tt | Throw e => Throw e end,
       {| database := db'; invoked := invoked st |})
  end.

Fixpoint log_all (l : list Obs) : IO unit :=
  match l with
  | [] => ret tt
  | o :: l' => (log o ;; log_all l')%se
  end.

Definition CreateObjectStore (dbName : string) (version : Z)
    (storeSchemas : list ObjectStoreMeta)
    (migrations : option (list IDBMigration)) : IO unit :=
  (log (OOpen dbName version) ;;
   f <- get_factory ;
   let current := stored f dbName in
   match classify_open current version with
   | OpenThrows e => reject (ErrEnv e)
   | OpenFails e =>
       (* request.onerror *)
       reject (ErrEnv e)
   | OpenSucceeds =>
       (* request.onsuccess: e.target.result.close(); resolve() *)
       resolve RUndefined
   | OpenUpgrade event =>
       (* request.onblocked *)
       go <- await_versionchange dbName event
               (Some (fun ev => reject (ErrBlocked ev))) ;
       if go : bool then
         (* request.onupgradeneeded *)
         let '(r, st) :=
           run_upgrade event storeSchemas migrations
             {| database := objectStores current; invoked := [] |} in
         log_all (map OMigrationUp (invoked st)) ;;
         match r with
         | Normal _ =>
             resolve RUndefined ;;
             (* database.close(); the upgrade transaction commits, and the
                request of a closed connection ends in onerror *)
             commit_upgrade dbName version (database st) ;;
             log OComplete ;;
             reject (ErrEnv AbortError)
         | Throw e =>
             reject e ;;
             (* request.transaction.abort(); database.close(); onerror *)
             log OAbort ;;
             reject (ErrEnv AbortError)
         end
       else ret tt
   end)%se.

(** A world where nothing is settled and nothing was observed yet. *)
Definition world (f : gmap string IDBDatabase) (conns : list string)
    (released : bool) : World :=
  {| factory := f; connections := conns; releases := released;
     promise := Pending; trace := [] |}.

(** The same with no connection open. *)
Definition fresh (f : gmap string IDBDatabase) : World := world f [] false.

(** The world a later call starts in: the databases and the connections
    are those the earlier call left. *)
Definition later (w : World) : World :=
  {| factory := factory w; connections := connections w;
     releases := releases w; promise := Pending; trace := [] |}.

(** ** Records of a store, in key order *)

Fixpoint get_record (k : Key) (l : list (Key * Value)) : option Value :=
  match l with
  | [] => None
  | (k', v) :: l' => if key_eqb k k' then Some v else get_record k l'
  end.

Fixpoint put_record (k : Key) (v : Value) (l : list (Key * Value))
  : list (Key * Value) :=
  match l with
  | [] => [(k, v)]
  | (k', v') :: l' =>
      if key_eqb k k' then (k, v) :: l'
      else if key_ltb k k' then (k, v) :: l
      else (k', v') :: put_record k v l'
  end.

Fixpoint delete_record (k : Key) (l : list (Key * Value))
  : list (Key * Value) :=
  match l with
  | [] => []
  | (k', v) :: l' =>
      if key_eqb k k' then delete_record k l' else (k', v) :: delete_record k l'
  end.

(** [IDBKeyRange.bound(lower, upper)], both ends included. *)
Definition in_range (keyRange : option (Key * Key)) (k : Key) : bool :=
  match keyRange with
  | None => true
  | Some (lo, hi) => negb (key_ltb k lo) && negb (key_ltb hi k)
  end.

Definition set_records (os : IDBObjectStore) (keygen : Z)
    (l : list (Key * Value)) : IDBObjectStore :=
  {| os_name := os_name os;
     os_keyPath := os_keyPath os;
     os_autoIncrement := os_autoIncrement os;
     os_indexes := os_indexes os;
     os_keygen := keygen;
     os_records := l |}.

(** ** The key of a record that [add] and [put] store *)

(** The largest key a key generator gives: [2^53]. *)
Definition max_generated : Z := 9007199254740992.

(** The key generator after a record went in under key [k]: a number at
    or above its current number moves it past that number, [2^53] at
    most. *)
Definition next_keygen (os : IDBObjectStore) (k : Key) : Z :=
  match k with
  | KNum n =>
      if os_autoIncrement os && (os_keygen os <=? Z.min n max_generated)%Z
      then (Z.min n max_generated + 1)%Z
      else os_keygen os
  | KStr _ => os_keygen os
  end.

(** What [store.add(value, key)] and [store.put(value, key)] check when
    they are called: the key the record is to have, or none where the key
    generator is to give one.  A [DataError] when the store has in-line
    keys and a key is passed, when there is no key and no generator, when
    what the key path finds is no key, or when the generated key could not
    be put into the value. *)
Definition call_key (os : IDBObjectStore) (value : Value) (key : option Key)
  : Completion (option Key) :=
  match os_keyPath os, key with
  | Some _, Some _ => Throw (ErrEnv DataError)
  | None, Some k => Normal (Some k)
  | None, None =>
      if os_autoIncrement os then Normal None else Throw (ErrEnv DataError)
  | Some p, None =>
      match extract_key p value with
      | ExKey k => Normal (Some k)
      | ExInvalid => Throw (ErrEnv DataError)
      | ExFailure =>
          if os_autoIncrement os && could_inject (identifiers p) value
          then Normal None
          else Throw (ErrEnv DataError)
      end
  end.

(** What the request does first when it runs: with no key, the key
    generator gives one, which is put into the value where the store has
    in-line keys, and a [ConstraintError] when the generator is past
    [2^53]; the result is the key, the value as stored and the key
    generator afterwards. *)
Definition assign_key (os : IDBObjectStore) (value : Value)
    (given : option Key) : DOMException + Key * Value * Z :=
  match given with
  | Some k => inr (k, value, next_keygen os k)
  | None =>
      if (max_generated <? os_keygen os)%Z then inl ConstraintError
      else
        match os_keyPath os with
        | None => inr (KNum (os_keygen os), value, (os_keygen os + 1)%Z)
        | Some p =>
            match inject (identifiers p) (VNum (os_keygen os)) value with
            | Some v => inr (KNum (os_keygen os), v, (os_keygen os + 1)%Z)
            | None => inl DataError
            end
        end
  end.

(** The two together: the key a record is stored under by [add] and
    [put], the value as stored and the key generator afterwards, or the
    error of the call or of the request. *)
Definition store_key (os : IDBObjectStore) (value : Value) (key : option Key)
  : Completion (Key * Value * Z) :=
  match call_key os value key with
  | Throw e => Throw e
  | Normal given =>
      match assign_key os value given with
      | inl e => Throw (ErrEnv e)
      | inr r => Normal r
      end
  end.

(** The key a record has in an index: what the key path of the index
    finds in the value, when that is a key. *)
Definition index_key (ix : ObjectStoreSchema) (v : Value) : option Key :=
  match extract_key (keypath ix) v with
  | ExKey k => Some k
  | _ => None
  end.

Definition same_key (a : option Key) (b : Key) : bool :=
  match a with
  | Some k => key_eqb k b
  | None => false
  end.

(** Storing [v] under [k] would give a unique index two records with one
    key: a record under another key has the key that [v] has there. *)
Definition violates_unique (os : IDBObjectStore) (k : Key) (v : Value) : bool :=
  existsb (fun ix =>
             unique (options ix) &&
             match index_key ix v with
             | Some ik =>
                 existsb (fun r => negb (key_eqb (fst r) k)
                                   && same_key (index_key ix (snd r)) ik)
                         (os_records os)
             | None => false
             end)
          (os_indexes os).

(** Storing a record: the key is assigned; with [no_overwrite], for
    [add], a record under that key is an error; so is a clash in a unique
    index; then the record replaces what was under the key. *)
Definition store_record (no_overwrite : bool) (os : IDBObjectStore)
    (value : Value) (given : option Key)
  : (DOMException + JSResult) * IDBObjectStore :=
  match assign_key os value given with
  | inl e => (inl e, os)
  | inr (k, v, g) =>
      if no_overwrite && bool_decide (is_Some (get_record k (os_records os)))
      then (inl ConstraintError, os)
      else if violates_unique os k v then (inl ConstraintError, os)
      else (inr (RKey k), set_records os g (put_record k v (os_records os)))
  end.

(** What the environment does with a request: its result and the store
    afterwards, or the error of its [error] event. *)
Definition exec_request (rq : Request) (os : IDBObjectStore)
  : (DOMException + JSResult) * IDBObjectStore :=
  match rq with
  | ReqGetAll => (inr (RValues (map snd (os_records os))), os)
  | ReqGet id => (inr (RValue (get_record id (os_records os))), os)
  | ReqIndexGet ix key =>
      (inr (RValue
              (snd <$> find (fun r => same_key (index_key ix (snd r)) key)
                            (os_records os))), os)
  | ReqOpenCursor _ => (inr RUndefined, os)
  | ReqAdd value given => store_record true os value given
  | ReqPut value given => store_record false os value given
  | ReqDelete k =>
      (inr RUndefined,
       set_records os (os_keygen os) (delete_record k (os_records os)))
  | ReqClear => (inr RUndefined, set_records os (os_keygen os) [])
  end.

(** ** Transactions and the dispatch of their events *)

(** A transaction on one store.  The [{ store, transaction }] pair of the
    helpers is this one record: the store handle is [tx_store]. *)
Record IDBTransaction := {
  tx_db : string;
  tx_store : string;
  tx_mode : DBMode;
  oncomplete : JSResult -> IO unit;
  onerror : Error -> IO unit;
  onabort : Error -> IO unit
}.

Definition set_oncomplete (tx : IDBTransaction) (h : JSResult -> IO unit)
  : IDBTransaction :=
  {| tx_db := tx_db tx; tx_store := tx_store tx; tx_mode := tx_mode tx;
     oncomplete := h; onerror := onerror tx; onabort := onabort tx |}.

Record Handlers := {
  rq_onsuccess : option (JSResult -> IO unit);
  rq_onerror : option (Error -> IO unit)
}.

Definition db_objectStoreNames (db : IDBHandle) : IO (list string) :=
  (f <- get_factory ;
   ret (objectStoreNames (objectStores (stored f (h_name db)))))%se.

Definition read_store (tx : IDBTransaction) : IO IDBObjectStore :=
  (f <- get_factory ;
   match find_store (tx_store tx) (objectStores (stored f (tx_db tx))) with
   | Some os => ret os
   | None => throw (ErrEnv InvalidStateError)
   end)%se.

(** The transaction commits: its store is written back, [complete] fires. *)
Definition commit (tx : IDBTransaction) (os' : IDBObjectStore) : IO unit :=
  (f <- get_factory ;
   let current := stored f (tx_db tx) in
   set_factory (<[tx_db tx :=
                   {| db_version := db_version current;
                      objectStores := replace_store os' (objectStores current) |}]> f) ;;
   log OComplete ;;
   oncomplete tx REvent)%se.

(** A transaction with one request: the request's [success] event, then
    the commit; or the request's [error] event, which bubbles to the
    transaction and aborts it. *)
Definition run_request (tx : IDBTransaction) (rq : Request) (h : Handlers)
  : IO unit :=
  (log (ORequest rq) ;;
   os <- read_store tx ;
   match exec_request rq os with
   | (inr result, os') =>
       log (ORequestSuccess result) ;;
       fire (rq_onsuccess h) result ;;
       commit tx os'
   | (inl e, _) =>
       log (ORequestError e) ;;
       fire (rq_onerror h) (ErrEnv e) ;;
       onerror tx (ErrEnv e) ;;
       log OAbort ;;
       onabort tx (ErrEnv AbortError)
   end)%se.

(** What the caller's cursor callback did with the cursor. *)
Inductive CursorAction := Continue | Leave.

(** A cursor request: a [success] event per entry for as long as the
    handler's callback continues, and one with a null cursor at the end. *)
Fixpoint cursor_events (entries : list (Key * Value))
    (onsuccess : option (Key * Value) -> IO CursorAction) : IO unit :=
  match entries with
  | [] => (_ <- onsuccess None ; ret tt)%se
  | entry :: rest =>
      (a <- onsuccess (Some entry) ;
       match a with
       | Continue => cursor_events rest onsuccess
       | Leave => ret tt
       end)%se
  end.

Definition run_cursor (tx : IDBTransaction) (keyRange : option (Key * Key))
    (onsuccess : option (Key * Value) -> IO CursorAction) : IO unit :=
  (log (ORequest (ReqOpenCursor keyRange)) ;;
   os <- read_store tx ;
   cursor_events (List.filter (fun r => in_range keyRange (fst r))
                              (os_records os)) onsuccess ;;
   commit tx os)%se.

(** The rest of a callback, which runs while the transaction it started
    is active.  An exception there leaves the callback, where nothing
    catches it, and the transaction, which has no request, completes with
    nothing written. *)
Definition active (tx : IDBTransaction) (rest : IO unit) : IO unit :=
  (r <- try_ rest ;
   match r with
   | Normal _ => ret tt
   | Throw e =>
       log (OUncaught e) ;;
       log OComplete ;;
       oncomplete tx REvent
   end)%se.

(** ** The helpers of [Utils], [createReadonlyTransaction] and
       [createReadwriteTransaction] *)

(** Modelled from the spec: [validateBeforeTransaction] of [./Utils] is
    not among the sources.  It validates that the target store exists
    within the opened database and rejects if it does not, a value-level
    existence check and not an exception. *)
Definition validateBeforeTransaction (db : IDBHandle) (storeName : string)
    (reject : Error -> IO unit) : IO unit :=
  (log (OValidate storeName) ;;
   names <- db_objectStoreNames db ;
   if contains names storeName then ret tt
   else reject (ErrStoreMissing storeName))%se.

(** [IDBDatabase.transaction(storeName, mode)]: a [NotFoundError] when the
    database has no store of that name. *)
Definition transaction (db : IDBHandle) (storeName : string) (mode : DBMode)
  : IO IDBTransaction :=
  (log (OTransaction mode storeName) ;;
   names <- db_objectStoreNames db ;
   if contains names storeName then
     log (OTxStarted mode storeName) ;;
     ret {| tx_db := h_name db; tx_store := storeName; tx_mode := mode;
            oncomplete := fun _ => ret tt;
            onerror := fun _ => ret tt;
            onabort := fun _ => ret tt |}
   else throw (ErrEnv NotFoundError))%se.

(** Modelled from the spec: what the two transaction helpers share.  The
    transaction on the store is asked of the database, and its
    [complete], [error] and [abort] events settle the promise. *)
Definition createTransaction (mode : DBMode) (db : IDBHandle)
    (storeName : string) (resolve : JSResult -> IO unit)
    (reject : Error -> IO unit) : IO IDBTransaction :=
  (tx <- transaction db storeName mode ;
   ret {| tx_db := tx_db tx; tx_store := tx_store tx; tx_mode := tx_mode tx;
          oncomplete := resolve; onerror := reject; onabort := reject |})%se.

(** Modelled from the spec: [createReadonlyTransaction] is not among the
    sources.  It starts a read-only transaction on the store; the promise
    is resolved or rejected from the transaction's completion events. *)
Definition createReadonlyTransaction := createTransaction readonly.

(** Modelled from the spec: [createReadwriteTransaction] is not among the
    sources.  It starts a read-write transaction on the store; the promise
    is resolved or rejected from the transaction's completion events. *)
Definition createReadwriteTransaction := createTransaction readwrite.

(** [promise.then(callback)] with no rejection handler: a promise that is
    rejected or still pending is left alone, an exception of the callback
    goes nowhere. *)
Definition then_ (opened : Opened) (callback : IDBHandle -> IO unit) : IO unit :=
  match opened with
  | Fulfilled db =>
      (r <- try_ (callback db) ;
       match r with
       | Normal _ => ret tt
       | Throw e => log (OUncaught e)
       end)%se
  | Failed _ => ret tt
  | Waiting => ret tt
  end.

(** ** [DBOperations] (indexed-db.ts, lines 109-249) *)

(** [store.index(indexName)]: a [NotFoundError] when there is none. *)
Definition store_index (tx : IDBTransaction) (indexName : string)
  : IO ObjectStoreSchema :=
  (os <- read_store tx ;
   match find (fun ix => String.eqb (name ix) indexName) (os_indexes os) with
   | Some ix => ret ix
   | None => throw (ErrEnv NotFoundError)
   end)%se.

(** [store.add(value, key)] and [store.put(value, key)]: the call checks
    the key and makes the request. *)
Definition store_write (mk : Value -> option Key -> Request)
    (tx : IDBTransaction) (value : Value) (key : option Key) : IO Request :=
  (os <- read_store tx ;
   match call_key os value key with
   | Normal given => ret (mk value given)
   | Throw e => throw e
   end)%se.

Section DBOperations.
Variables (dbName : string) (version : Z) (currentStore : string).

(* Readonly operations *)

Definition getAll : IO unit :=
  (opened <- openDatabase dbName version None ;
   then_ opened (fun db =>
     validateBeforeTransaction db currentStore reject ;;
     store <- createReadonlyTransaction db currentStore resolve reject ;
     active store
       (let request := ReqGetAll in
        run_request store request
          {| rq_onerror := Some (fun error => reject error);
             rq_onsuccess := Some (fun result => resolve result) |})))%se.

Definition getByID (id : Key) : IO unit :=
  (opened <- openDatabase dbName version None ;
   then_ opened (fun db =>
     validateBeforeTransaction db currentStore reject ;;
     store <- createReadonlyTransaction db currentStore resolve reject ;
     active store
       (let request := ReqGet id in
        run_request store request
          {| rq_onerror := None;
             rq_onsuccess := Some (fun result => resolve result) |})))%se.

Definition openCursor (cursorCallback : option (Key * Value) -> CursorAction)
    (keyRange : option (Key * Key)) : IO unit :=
  (opened <- openDatabase dbName version None ;
   then_ opened (fun db =>
     validateBeforeTransaction db currentStore reject ;;
     store <- createReadonlyTransaction db currentStore resolve reject ;
     active store
       (run_cursor store keyRange
          (fun event =>
             log (OCursorCallback event) ;;
             let action := cursorCallback event in
             resolve RUndefined ;;
             ret action))))%se.

Definition getByIndex (indexName : string) (key : Key) : IO unit :=
  (opened <- openDatabase dbName version None ;
   then_ opened (fun db =>
     validateBeforeTransaction db currentStore reject ;;
     store <- createReadonlyTransaction db currentStore resolve reject ;
     active store
       (index <- store_index store indexName ;
        let request := ReqIndexGet index key in
        run_request store request
          {| rq_onerror := None;
             rq_onsuccess := Some (fun result => resolve result) |})))%se.

(* Readwrite operations *)

Definition add (value : Value) (key : option Key) : IO unit :=
  (opened <- openDatabase dbName version None ;
   then_ opened (fun db =>
     store <- createReadwriteTransaction db currentStore resolve reject ;
     active store
       (request <- store_write ReqAdd store value key ;
        run_request store request
          {| rq_onsuccess := Some (fun result => resolve result);
             rq_onerror := Some (fun error => reject error) |})))%se.

Definition update (value : Value) (key : option Key) : IO unit :=
  (opened <- openDatabase dbName version None ;
   then_ opened (fun db =>
     validateBeforeTransaction db currentStore reject ;;
     store <- createReadwriteTransaction db currentStore resolve reject ;
     let transaction := set_oncomplete store (fun event => resolve event) in
     active transaction
       (request <- store_write ReqPut transaction value key ;
        run_request transaction request
          {| rq_onsuccess := None; rq_onerror := None |})))%se.

Definition deleteRecord (key : Key) : IO unit :=
  (opened <- openDatabase dbName version None ;
   then_ opened (fun db =>
     validateBeforeTransaction db currentStore reject ;;
     store <- createReadwriteTransaction db currentStore resolve reject ;
     active store
       (let request := ReqDelete key in
        run_request store request
          {| rq_onsuccess := Some (fun _ => resolve REvent);
             rq_onerror := None |})))%se.

Definition clear : IO unit :=
  (opened <- openDatabase dbName version None ;
   then_ opened (fun db =>
     validateBeforeTransaction db currentStore reject ;;
     store <- createReadwriteTransaction db currentStore resolve reject ;
     let transaction := set_oncomplete store (fun _ => resolve RUndefined) in
     active transaction
       (let request := ReqClear in
        run_request transaction request
          {| rq_onsuccess := None; rq_onerror := None |})))%se.

End DBOperations.
(** The eight operations [DBOperations] returns. *)
Inductive Operation :=
  | OpAdd (value : Value) (key : option Key)
  | OpGetByID (id : Key)
  | OpGetAll
  | OpUpdate (value : Value) (key : option Key)
  | OpDeleteRecord (key : Key)
  | OpClear
  | OpOpenCursor (cursorCallback : option (Key * Value) -> CursorAction)
                 (keyRange : option (Key * Key))
  | OpGetByIndex (indexName : string) (key : Key).

Record Bound := {
  b_dbName : string;
  b_version : Z;
  b_store : string
}.

Definition DBOperations (dbName : string) (version : Z) (currentStore : string)
  : Bound :=
  {| b_dbName := dbName; b_version := version; b_store := currentStore |}.

Definition call (b : Bound) (op : Operation) : IO unit :=
  match op with
  | OpAdd value key => add (b_dbName b) (b_version b) (b_store b) value key
  | OpGetByID id => getByID (b_dbName b) (b_version b) (b_store b) id
  | OpGetAll => getAll (b_dbName b) (b_version b) (b_store b)
  | OpUpdate value key => update (b_dbName b) (b_version b) (b_store b) value key
  | OpDeleteRecord key => deleteRecord (b_dbName b) (b_version b) (b_store b) key
  | OpClear => clear (b_dbName b) (b_version b) (b_store b)
  | OpOpenCursor cb keyRange =>
      openCursor (b_dbName b) (b_version b) (b_store b) cb keyRange
  | OpGetByIndex indexName key =>
      getByIndex (b_dbName b) (b_version b) (b_store b) indexName key
  end.

(** ** The configuration singleton, [initDB] and [useIndexedDB]
       (indexed-hooks.ts, lines 50-75) *)

Record Configuration := {
  cfg_version : option Z;
  cfg_name : option string;
  cfg_frozen : bool
}.

(** [{ version: null, name: null }] *)
Definition indexeddbConfiguration : Configuration :=
  {| cfg_version := None; cfg_name := None; cfg_frozen := false |}.

Record IndexedDBProps := {
  props_name : string;
  props_version : Z;
  objectStoresMeta : list ObjectStoreMeta;
  migrations : option (list IDBMigration)
}.

(** An assignment to a property of a frozen object: a [TypeError] in
    strict code, nothing at all otherwise. *)
Definition assign (strict : bool) (cfg : Configuration)
    (set : Configuration -> Configuration) : Completion Configuration :=
  if cfg_frozen cfg then
    if strict then Throw (ErrEnv TypeError) else Normal cfg
  else Normal (set cfg).

Definition set_name (v : string) (cfg : Configuration) : Configuration :=
  {| cfg_version := cfg_version cfg; cfg_name := Some v;
     cfg_frozen := cfg_frozen cfg |}.

Definition set_version (v : Z) (cfg : Configuration) : Configuration :=
  {| cfg_version := Some v; cfg_name := cfg_name cfg;
     cfg_frozen := cfg_frozen cfg |}.

Definition freeze (cfg : Configuration) : Configuration :=
  {| cfg_version := cfg_version cfg; cfg_name := cfg_name cfg;
     cfg_frozen := true |}.

(** [initDB]: the configuration after its synchronous part, and what
    the rest of the [async] body does to the promise it returned. *)
Definition initDB (strict : bool) (props : IndexedDBProps)
    (cfg : Configuration) : Configuration * IO unit :=
  match assign strict cfg (set_name (props_name props)) with
  | Throw e => (cfg, reject e)
  | Normal cfg1 =>
      match assign strict cfg1 (set_version (props_version props)) with
      | Throw e => (cfg1, reject e)
      | Normal cfg2 =>
          (freeze cfg2,
           CreateObjectStore (props_name props) (props_version props)
             (objectStoresMeta props) (migrations props))
      end
  end.

(** [!x] on a string-or-null and on a number-or-null *)
Definition not_string (x : option string) : bool :=
  match x with
  | None => true
  | Some s => String.eqb s ""
  end.

Definition not_number (x : option Z) : bool :=
  match x with
  | None => true
  | Some n => (n =? 0)%Z
  end.

Definition useIndexedDB (cfg : Configuration) (objectStore : string)
  : Completion Bound :=
  if not_string (cfg_name cfg) || not_number (cfg_version cfg) then
    Throw ErrNotInitialized
  else
    match cfg_name cfg, cfg_version cfg with
    | Some n, Some v => Normal (DBOperations n v objectStore)
    | _, _ => Throw ErrNotInitialized
    end.


(** * Vocabulary of the statements *)

(** ** Schemas and what the default behaviour makes of them *)

(** The store a descriptor declares: its key configuration and every one
    of its indexes, no record yet. *)
Definition declared_store (meta : ObjectStoreMeta) : IDBObjectStore :=
  {| os_name := store meta;
     os_keyPath := Some (keyPath (storeConfig meta));
     os_autoIncrement := autoIncrement (storeConfig meta);
     os_indexes := storeSchema meta;
     os_keygen := 1;
     os_records := [] |}.

(** A descriptor the host makes a store of: its key paths are valid, a
    key generator comes with a key path that is not empty, and the index
    names are declared once. *)
Definition creatable (meta : ObjectStoreMeta) : Prop :=
  valid_key_path (keyPath (storeConfig meta)) = true /\
  (autoIncrement (storeConfig meta) = true ->
   keyPath (storeConfig meta) <> "") /\
  NoDup (map name (storeSchema meta)) /\
  Forall (fun ix => valid_key_path (keypath ix) = true) (storeSchema meta).

(** Store names are declared once, and each descriptor is one the host
    makes a store of. *)
Definition valid_schemas (storeSchemas : list ObjectStoreMeta) : Prop :=
  NoDup (map store storeSchemas) /\ Forall creatable storeSchemas.

Definition missing_from (db : list IDBObjectStore) (meta : ObjectStoreMeta)
  : bool :=
  negb (contains (objectStoreNames db) (store meta)).

Definition set_indexes (os : IDBObjectStore) (ixs : list ObjectStoreSchema)
  : IDBObjectStore :=
  {| os_name := os_name os;
     os_keyPath := os_keyPath os;
     os_autoIncrement := os_autoIncrement os;
     os_indexes := ixs;
     os_keygen := os_keygen os;
     os_records := os_records os |}.

(** ** Upgrades and migrations *)

(** The event of a version change from the stored version. *)
Definition versionchange (f : gmap string IDBDatabase) (dbName : string)
    (version : Z) : IDBVersionChangeEvent :=
  {| oldVersion := db_version (stored f dbName); newVersion := Some version |}.

(** The databases once the upgrade ended: as before when it was aborted. *)
Definition upgraded (dbName : string) (version : Z)
    (f : gmap string IDBDatabase) (r : Completion unit) (st : MigState)
  : gmap string IDBDatabase :=
  match r with
  | Normal _ => <[dbName := {| db_version := version;
                               objectStores := database st |}]> f
  | Throw _ => f
  end.

(** The world after [CreateObjectStore] went through an upgrade with no
    connection in its way. *)
Definition after_upgrade (dbName : string) (version : Z)
    (f : gmap string IDBDatabase) (conns : list string) (released : bool)
    (r : Completion unit) (st : MigState) : World :=
  {| factory := upgraded dbName version f r st;
     connections := conns;
     releases := released;
     promise := match r with
                | Normal _ => Resolved RUndefined
                | Throw e => Rejected e
                end;
     trace := OOpen dbName version :: map OMigrationUp (invoked st)
              ++ match r with
                 | Normal _ => [OSettled (Resolved RUndefined); OComplete]
                 | Throw e => [OSettled (Rejected e); OAbort]
                 end |}.

(** The connections left when those to a database were closed. *)
Definition without (dbName : string) (conns : list string) : list string :=
  List.filter (fun c => negb (String.eqb c dbName)) conns.

(** The world after [CreateObjectStore] was blocked: the promise is
    rejected at once, and the upgrade runs when the host closes the
    connections in its way. *)
Definition after_blocked (dbName : string) (version : Z)
    (f : gmap string IDBDatabase) (conns : list string) (released : bool)
    (r : Completion unit) (st : MigState) : World :=
  let event := versionchange f dbName version in
  {| factory := if released then upgraded dbName version f r st else f;
     connections := if released then without dbName conns else conns;
     releases := released;
     promise := Rejected (ErrBlocked event);
     trace := [OOpen dbName version; OBlocked event;
               OSettled (Rejected (ErrBlocked event))]
              ++ if released
                 then map OMigrationUp (invoked st)
                      ++ [match r with
                          | Normal _ => OComplete
                          | Throw _ => OAbort
                          end]
                 else [] |}.

(** [migrations.find(x => x.toVersion === v)] *)
Definition migration_for (migrations : list IDBMigration) (v : Z)
  : option IDBMigration :=
  find (fun x => (toVersion x =? v)%Z) migrations.

(** [migrates storeSchemas migrations v db v' db' ms]: from version [v]
    with the stores [db], each version up to [v'] has a migration, the
    migrations are [ms] in that order, and the [up] of each, called on the
    stores the one before left, returns true; the last leaves [db']. *)
Inductive migrates (storeSchemas : list ObjectStoreMeta)
    (migrations : list IDBMigration)
  : Z -> list IDBObjectStore -> Z -> list IDBObjectStore
    -> list IDBMigration -> Prop :=
  | migrates_none v db :
      migrates storeSchemas migrations v db v db []
  | migrates_step v db m f db1 v' db' ms :
      migration_for migrations (v + 1) = Some m ->
      up m = Some f ->
      f storeSchemas defaultMigrationBehaviour db = (Normal true, db1) ->
      migrates storeSchemas migrations (v + 1) db1 v' db' ms ->
      migrates storeSchemas migrations v db v' db' (m :: ms).

(** Version [v], reached with the stores [db], stops the upgrade with
    error [e]: it has no migration, its migration has no [up], or its
    [up], called on [db], returns false or throws; [called] holds the
    migration when its [up] was called. *)
Inductive stops (storeSchemas : list ObjectStoreMeta)
    (migrations : list IDBMigration) (v : Z) (db : list IDBObjectStore)
  : Error -> list IDBMigration -> Prop :=
  | stops_missing :
      migration_for migrations v = None ->
      stops storeSchemas migrations v db (ErrMissingMigration v) []
  | stops_no_up m :
      migration_for migrations v = Some m -> up m = None ->
      stops storeSchemas migrations v db (ErrUpNotImplemented v) []
  | stops_false m f db' :
      migration_for migrations v = Some m -> up m = Some f ->
      f storeSchemas defaultMigrationBehaviour db = (Normal false, db') ->
      stops storeSchemas migrations v db (ErrMigrationFailed v) [m]
  | stops_throw m f e db' :
      migration_for migrations v = Some m -> up m = Some f ->
      f storeSchemas defaultMigrationBehaviour db = (Throw e, db') ->
      stops storeSchemas migrations v db e [m].

(** The migrations whose [up] was called, as the observations show them. *)
Definition migrations_run (t : list Obs) : list IDBMigration :=
  omap (fun o => match o with OMigrationUp m => Some m | _ => None end) t.

(** ** Worlds the facade leaves behind *)

(** The open request goes through: the version asked for is one the host
    takes and is not below the stored one. *)
Definition opens (f : gmap string IDBDatabase) (dbName : string) (version : Z)
  : Prop :=
  (0 < version <= max_version)%Z /\ (db_version (stored f dbName) <= version)%Z.

(** No open connection is in the way of the open request: it changes no
    version, or no connection to the database is open. *)
Definition unblocked (f : gmap string IDBDatabase) (conns : list string)
    (dbName : string) (version : Z) : Prop :=
  db_version (stored f dbName) = version \/ dbName ∉ conns.

(** The factory once [openDatabase], with no upgrade callback, is done. *)
Definition after_open (f : gmap string IDBDatabase) (dbName : string)
    (version : Z) : gmap string IDBDatabase :=
  match classify_open (stored f dbName) version with
  | OpenUpgrade _ =>
      <[dbName := {| db_version := version;
                     objectStores := objectStores (stored f dbName) |}]> f
  | _ => f
  end.

Definition handle (dbName : string) (version : Z) : IDBHandle :=
  {| h_name := dbName; h_version := version |}.

Definition opened_world (f : gmap string IDBDatabase) (conns : list string)
    (released : bool) (dbName : string) (version : Z) : World :=
  {| factory := after_open f dbName version;
     connections := conns ++ [dbName];
     releases := released;
     promise := Pending;
     trace := [OOpen dbName version;
               OOpenSettled (Resolved (RHandle (handle dbName version)))] |}.

Definition observe (w : World) (l : list Obs) : World :=
  {| factory := factory w; connections := connections w;
     releases := releases w; promise := promise w; trace := trace w ++ l |}.

(** What every validating operation leaves when the store is missing. *)
Definition rejected_world (f : gmap string IDBDatabase) (conns : list string)
    (released : bool) (dbName : string) (version : Z) (mode : DBMode)
    (storeName : string) : World :=
  {| factory := after_open f dbName version;
     connections := conns ++ [dbName];
     releases := released;
     promise := Rejected (ErrStoreMissing storeName);
     trace := [OOpen dbName version;
               OOpenSettled (Resolved (RHandle (handle dbName version)));
               OValidate storeName;
               OSettled (Rejected (ErrStoreMissing storeName));
               OTransaction mode storeName;
               OUncaught (ErrEnv NotFoundError)] |}.

(** The operations that validate, and the mode of their transaction. *)
Definition validates (op : Operation) : bool :=
  match op with
  | OpAdd _ _ => false
  | _ => true
  end.

Definition is_read (op : Operation) : bool :=
  match op with
  | OpGetAll | OpGetByID _ | OpGetByIndex _ _ | OpOpenCursor _ _ => true
  | _ => false
  end.

Definition mode_of (op : Operation) : DBMode :=
  if is_read op then readonly else readwrite.

(** ** Code that validates nothing *)

Definition not_validate (o : Obs) : Prop :=
  match o with
  | OValidate _ => False
  | _ => True
  end.

(** [m] extends the trace, never with a validation, and what it returns
    satisfies [Q]. *)
Definition quiet {A} (Q : A -> Prop) (m : IO A) : Prop :=
  forall w, exists l,
    trace (snd (m w)) = trace w ++ l /\ Forall not_validate l /\
    forall a, fst (m w) = Normal a -> Q a.

Definition any {A} (a : A) : Prop := True.

(** The handlers of a transaction only settle the promise. *)
Definition tame (tx : IDBTransaction) : Prop :=
  (forall r, quiet any (oncomplete tx r)) /\
  (forall e, quiet any (onerror tx e)) /\
  (forall e, quiet any (onabort tx e)).

(** ** Transactions on a store the database has *)

(** The database after a transaction on store [os] committed [os']. *)
Definition committed (f : gmap string IDBDatabase) (dbName : string)
    (version : Z) (os' : IDBObjectStore) : gmap string IDBDatabase :=
  <[dbName := {| db_version := version;
                 objectStores :=
                   replace_store os' (objectStores (stored f dbName)) |}]>
    (after_open f dbName version).

(** The world an operation leaves on a store the database has: the
    connection it opened stays open. *)
Definition finished (f' : gmap string IDBDatabase) (conns : list string)
    (released : bool) (dbName : string) (p : Promise) (t : list Obs) : World :=
  {| factory := f';
     connections := conns ++ [dbName];
     releases := released;
     promise := p;
     trace := t |}.

Definition started (dbName : string) (version : Z) (mode : DBMode)
    (storeName : string) : list Obs :=
  [OOpen dbName version;
   OOpenSettled (Resolved (RHandle (handle dbName version)));
   OValidate storeName;
   OTransaction mode storeName;
   OTxStarted mode storeName].

(** The same for [add], which does not validate. *)
Definition started_add (dbName : string) (version : Z) (storeName : string)
  : list Obs :=
  [OOpen dbName version;
   OOpenSettled (Resolved (RHandle (handle dbName version)));
   OTransaction readwrite storeName;
   OTxStarted readwrite storeName].

(** The cursor's [success] events, in order, for a callback [cb]: one per
    entry while [cb] continues, and a last one with a null cursor. *)
Fixpoint visited (cb : option (Key * Value) -> CursorAction)
    (entries : list (Key * Value)) : list (option (Key * Value)) :=
  match entries with
  | [] => [None]
  | entry :: rest =>
      Some entry :: match cb (Some entry) with
                    | Continue => visited cb rest
                    | Leave => []
                    end
  end.

Definition later_events (cb : option (Key * Value) -> CursorAction)
    (entries : list (Key * Value)) : list (option (Key * Value)) :=
  tail (visited cb entries).

(** The [onsuccess] handler of [openCursor]. *)
Definition cursor_handler (cb : option (Key * Value) -> CursorAction)
    (event : option (Key * Value)) : IO CursorAction :=
  (log (OCursorCallback event) ;;
   let action := cb event in
   resolve RUndefined ;;
   ret action)%se.

(** ** Example data *)

Definition people : ObjectStoreMeta :=
  {| store := "people";
     storeConfig := {| keyPath := "id"; autoIncrement := true |};
     storeSchema :=
       [{| name := "name"; keypath := "name";
           options := {| unique := false |} |};
        {| name := "email"; keypath := "email";
           options := {| unique := true |} |}] |}.

(** A migration that leaves everything to the default behaviour. *)
Definition delegating (v : Z) : IDBMigration :=
  {| toVersion := v;
     up := Some (fun storeSchemas defaultBehaviour =>
                   defaultBehaviour storeSchemas) |}.

Definition failing (v : Z) : IDBMigration :=
  {| toVersion := v; up := Some (fun _ _ => ret false) |}.

(** A migration that creates a store of its own, whatever is there. *)
Definition creating_orders (v : Z) : IDBMigration :=
  {| toVersion := v;
     up := Some (fun _ _ =>
                   _ <- createObjectStore "orders"
                          {| keyPath := "no"; autoIncrement := false |} ;
                   ret true)%se |}.

Definition two_steps : list IDBMigration := [delegating 1; creating_orders 2].

Definition broken_steps : list IDBMigration :=
  [creating_orders 1; failing 2; delegating 3].

(** Database [app] at version 1 with the [people] store, empty. *)
Definition app_v1 : gmap string IDBDatabase :=
  {[ "app" := {| db_version := 1; objectStores := [declared_store people] |} ]}.

Definition ann : Value :=
  VObject [("id", VNum 5); ("name", VStr "Ann"); ("email", VStr "ann@x.org")].
Definition bob : Value :=
  VObject [("id", VNum 7); ("name", VStr "Bob"); ("email", VStr "bob@x.org")].

(** The same with two records. *)
Definition app_two : gmap string IDBDatabase :=
  {[ "app" := {| db_version := 1;
                 objectStores :=
                   [set_records (declared_store people) 8
                      [(KNum 5, ann); (KNum 7, bob)]] |} ]}.

Definition keep_going (event : option (Key * Value)) : CursorAction := Continue.

(** The promise is settled only after every call of the cursor callback. *)
Definition callbacks_before_settled (t : list Obs) : Prop :=
  forall (i j : nat) p e,
    t !! i = Some (OSettled p) -> t !! j = Some (OCursorCallback e) ->
    (j < i)%nat.

(** ** Further vocabulary: failed opens, duplicates, delegation *)

(** What [indexedDB.open] fails with when no upgrade and no success is
    possible. *)
Definition open_error (version : Z) : Error :=
  if (version <=? 0)%Z || (max_version <? version)%Z
  then ErrEnv TypeError else ErrOpen VersionError.

(** What an operation leaves when its open request failed. *)
Definition failed_open_world (f : gmap string IDBDatabase) (dbName : string)
    (version : Z) : World :=
  {| factory := f;
     connections := [];
     releases := false;
     promise := Pending;
     trace := [OOpen dbName version;
               OOpenSettled (Rejected (open_error version))] |}.

(** A string within ASCII. *)
Definition plain (s : string) : bool :=
  forallb (fun c => (nat_of_ascii c <? 128)%nat) (String.list_ascii_of_string s).

(** A descriptor whose key paths are within ASCII. *)
Definition plain_paths (meta : ObjectStoreMeta) : Prop :=
  plain (keyPath (storeConfig meta)) = true /\
  Forall (fun ix => plain (keypath ix) = true) (storeSchema meta).

(** The first descriptor that declares store [s]. *)
Definition first_declared (s : string) (storeSchemas : list ObjectStoreMeta)
  : option ObjectStoreMeta :=
  find (fun meta => String.eqb (store meta) s) storeSchemas.

(** The descriptors the default behaviour creates a store for, given the
    store names there are: each name once, at its first descriptor. *)
Fixpoint to_create (names : list string) (storeSchemas : list ObjectStoreMeta)
  : list ObjectStoreMeta :=
  match storeSchemas with
  | [] => []
  | meta :: rest =>
      if contains names (store meta) then to_create names rest
      else meta :: to_create (names ++ [store meta]) rest
  end.

(** The stores after the default behaviour ran on valid descriptors. *)
Definition default_result (storeSchemas : list ObjectStoreMeta)
    (db : list IDBObjectStore) : list IDBObjectStore :=
  db ++ map declared_store (List.filter (missing_from db) storeSchemas).

(** A migration whose [up] is
    [(db, storeSchemas, defaultMigrationBehaviour) =>
       defaultMigrationBehaviour(db, storeSchemas)]. *)
Definition delegates (m : IDBMigration) : Prop :=
  up m = Some (fun storeSchemas defaultBehaviour =>
                 defaultBehaviour storeSchemas).

(** The upgrade callbacks [openDatabase] called. *)
Definition upgrade_calls (t : list Obs)
  : list (IDBVersionChangeEvent * option IDBHandle) :=
  omap (fun o => match o with
                 | OUpgradeCallback event db => Some (event, db)
                 | _ => None
                 end) t.

(** A second descriptor for the [people] store, with another index. *)
Definition people_again : ObjectStoreMeta :=
  {| store := "people";
     storeConfig := {| keyPath := "key"; autoIncrement := false |};
     storeSchema :=
       [{| name := "age"; keypath := "age";
           options := {| unique := false |} |}] |}.

(** A descriptor the host refuses: a key generator with the empty key
    path. *)
Definition counters : ObjectStoreMeta :=
  {| store := "counters";
     storeConfig := {| keyPath := ""; autoIncrement := true |};
     storeSchema := [] |}.

Definition carol : Value :=
  VObject [("id", VNum 9); ("name", VStr "Carol"); ("email", VStr "carol@x.org")].

(** A record that has the e-mail address of [ann] under another key. *)
Definition dan : Value :=
  VObject [("id", VNum 6); ("name", VStr "Dan"); ("email", VStr "ann@x.org")].

(** An upgrade callback that creates the [people] store. *)
Definition creating : UpgradeCallback :=
  fun _ _ => (_ <- defaultMigrationBehaviour [people] ; ret tt)%se.

(** An upgrade callback that creates the store and then throws. *)
Definition throwing : UpgradeCallback :=
  fun _ _ => (_ <- defaultMigrationBehaviour [people] ;
              throw (ErrUser "stop"))%se.

(** Database [app] at version 2, the [people] store holding two records. *)
Definition app_v2 : gmap string IDBDatabase :=
  {[ "app" := {| db_version := 2;
                 objectStores :=
                   [set_records (declared_store people) 8
                      [(KNum 5, ann); (KNum 7, bob)]] |} ]}.

(** * Properties *)

(** ** Keys and records *)

Lemma key_eqb_eq (a b : Key) : key_eqb a b = true <-> a = b.
Proof.
  destruct a as [x|x], b as [y|y]; simpl.
  - rewrite Z.eqb_eq. split; congruence.
  - split; discriminate.
  - split; discriminate.
  - rewrite String.eqb_eq. split; congruence.
Qed.

Lemma key_eqb_refl (a : Key) : key_eqb a a = true.
Proof. by apply key_eqb_eq. Qed.

Lemma key_eqb_neq (a b : Key) : key_eqb a b = false <-> a <> b.
Proof.
  rewrite <- key_eqb_eq. destruct (key_eqb a b); split; congruence.
Qed.

Lemma get_put_same (k : Key) (v : Value) (l : list (Key * Value)) :
  get_record k (put_record k v l) = Some v.
Proof.
  induction l as [|[k' v'] l IH]; simpl.
  - by rewrite key_eqb_refl.
  - destruct (key_eqb k k') eqn:E; simpl.
    + by rewrite key_eqb_refl.
    + destruct (key_ltb k k'); simpl.
      * by rewrite key_eqb_refl.
      * by rewrite E.
Qed.

Lemma get_put_other (k0 k : Key) (v : Value) (l : list (Key * Value)) :
  k0 <> k -> get_record k0 (put_record k v l) = get_record k0 l.
Proof.
  intros Hne. apply key_eqb_neq in Hne.
  induction l as [|[k' v'] l IH]; simpl.
  - by rewrite Hne.
  - destruct (key_eqb k k') eqn:E; simpl.
    + apply key_eqb_eq in E. subst k'. by rewrite Hne.
    + destruct (key_ltb k k'); simpl.
      * by rewrite Hne.
      * by rewrite IH.
Qed.

(** ** Stores of a database *)

Lemma contains_true (names : list string) (s : string) :
  contains names s = true <-> s ∈ names.
Proof. unfold contains. apply bool_decide_eq_true. Qed.

Lemma contains_false (names : list string) (s : string) :
  contains names s = false <-> s ∉ names.
Proof. unfold contains. apply bool_decide_eq_false. Qed.

Lemma find_store_absent (s : string) (db : list IDBObjectStore) :
  s ∉ objectStoreNames db -> find_store s db = None.
Proof.
  induction db as [|os db IH]; simpl; [done|].
  intros Hn. apply not_elem_of_cons in Hn as [Hne Hn].
  destruct (String.eqb_spec (os_name os) s); [congruence|]. by apply IH.
Qed.

Lemma find_store_last (os : IDBObjectStore) (db : list IDBObjectStore) :
  os_name os ∉ objectStoreNames db ->
  find_store (os_name os) (db ++ [os]) = Some os.
Proof.
  induction db as [|os' db IH]; simpl.
  - intros _. by rewrite String.eqb_refl.
  - intros Hn. apply not_elem_of_cons in Hn as [Hne Hn].
    destruct (String.eqb_spec (os_name os') (os_name os)); [congruence|].
    by apply IH.
Qed.

Lemma find_store_present (s : string) (db : list IDBObjectStore) :
  s ∈ objectStoreNames db ->
  exists os, find_store s db = Some os /\ os_name os = s /\ os ∈ db.
Proof.
  induction db as [|os db IH]; simpl.
  - intros H. by apply elem_of_nil in H.
  - intros H. destruct (String.eqb_spec (os_name os) s) as [E|E].
    + exists os. split_and!; [done|done|apply list_elem_of_here].
    + apply elem_of_cons in H as [H|H]; [congruence|].
      destruct (IH H) as (os' & ? & ? & ?). exists os'.
      split_and!; [done|done|by apply list_elem_of_further].
Qed.

Lemma replace_store_last (os os' : IDBObjectStore) (db : list IDBObjectStore) :
  os_name os' = os_name os ->
  os_name os ∉ objectStoreNames db ->
  replace_store os' (db ++ [os]) = db ++ [os'].
Proof.
  intros Hn. induction db as [|o db IH]; simpl.
  - intros _. rewrite Hn. by rewrite String.eqb_refl.
  - intros H. apply not_elem_of_cons in H as [Hne H].
    rewrite Hn. destruct (String.eqb_spec (os_name o) (os_name os)).
    + congruence.
    + f_equal. by apply IH.
Qed.

(** ** [defaultMigrationBehaviour] on valid schema descriptors *)

Lemma createIndex_each (db : list IDBObjectStore) (ixs : list ObjectStoreSchema) :
  forall os : IDBObjectStore,
    os_name os ∉ objectStoreNames db ->
    NoDup (map name ixs) ->
    Forall (fun ix => valid_key_path (keypath ix) = true) ixs ->
    (forall ix, ix ∈ ixs -> name ix ∉ indexNames os) ->
    forEach (fun schema : ObjectStoreSchema =>
               createIndex (os_name os) (name schema) (keypath schema)
                           (options schema)) ixs (db ++ [os])
    = (Normal tt, db ++ [set_indexes os (os_indexes os ++ ixs)]).
Proof.
  induction ixs as [|ix ixs IH]; intros os Hos Hnd Hpaths Hfresh; simpl.
  - unfold ret. rewrite app_nil_r. by destruct os.
  - unfold bind at 1. unfold createIndex at 1.
    rewrite (find_store_last os db Hos).
    assert (Hc : contains (indexNames os) (name ix) = false).
    { apply contains_false. apply Hfresh. apply list_elem_of_here. }
    rewrite Hc.
    apply Forall_cons in Hpaths as [Hpath Hpaths]. rewrite Hpath. cbn [negb].
    set (os' := add_index _ os).
    rewrite (replace_store_last os os' db eq_refl Hos).
    apply NoDup_cons in Hnd as [Hix Hnd].
    change (os_name os) with (os_name os').
    rewrite (IH os'); [| done | done | done |].
    + f_equal. f_equal. f_equal. unfold set_indexes, os', add_index. simpl.
      destruct ix. simpl. by rewrite <- app_assoc.
    + intros ix' Hin. unfold os', add_index, indexNames. simpl.
      rewrite map_app. simpl. intros Hel.
      apply elem_of_app in Hel as [Hel|Hel].
      * apply (Hfresh ix'); [by apply list_elem_of_further | done].
      * apply list_elem_of_singleton in Hel. apply Hix. rewrite <- Hel.
        by apply list_elem_of_fmap_2.
Qed.

Lemma missing_from_snoc (db : list IDBObjectStore) (os : IDBObjectStore)
    (meta : ObjectStoreMeta) :
  store meta <> os_name os ->
  missing_from (db ++ [os]) meta = missing_from db meta.
Proof.
  intros Hne. unfold missing_from, contains, objectStoreNames. f_equal.
  apply bool_decide_ext. rewrite map_app. simpl.
  rewrite elem_of_app, list_elem_of_singleton. tauto.
Qed.

Lemma createObjectStore_creatable (meta : ObjectStoreMeta)
    (db : list IDBObjectStore) :
  creatable meta ->
  store meta ∉ objectStoreNames db ->
  createObjectStore (store meta) (storeConfig meta) db
  = (Normal (store meta), db ++ [new_store (store meta) (storeConfig meta)]).
Proof.
  intros (Hpath & Hgen & _ & _) Hmiss. unfold createObjectStore.
  rewrite Hpath. cbn [negb].
  apply contains_false in Hmiss. rewrite Hmiss.
  destruct (autoIncrement (storeConfig meta)) eqn:Ha; [|done].
  destruct (String.eqb_spec (keyPath (storeConfig meta)) ""); [|done].
  by destruct (Hgen eq_refl).
Qed.

(** The body of the loop of the default behaviour, on a descriptor whose
    store is missing. *)
Lemma create_declared (meta : ObjectStoreMeta) (db : list IDBObjectStore) :
  creatable meta ->
  store meta ∉ objectStoreNames db ->
  (objectStore <- createObjectStore (store meta) (storeConfig meta) ;
   forEach (fun schema : ObjectStoreSchema =>
              createIndex objectStore (name schema) (keypath schema)
                          (options schema))
           (storeSchema meta))%se db
  = (Normal tt, db ++ [declared_store meta]).
Proof.
  intros Hok Hmiss. unfold bind.
  rewrite (createObjectStore_creatable meta db Hok Hmiss).
  destruct Hok as (_ & _ & Hix & Hpaths).
  pose proof (createIndex_each db (storeSchema meta)
                (new_store (store meta) (storeConfig meta)) Hmiss Hix Hpaths)
    as Hci.
  simpl in Hci. rewrite Hci; [done|].
  intros ix _ Hel. by apply elem_of_nil in Hel.
Qed.

Lemma defaultMigrationBehaviour_valid (storeSchemas : list ObjectStoreMeta) :
  valid_schemas storeSchemas ->
  forall db : list IDBObjectStore,
    defaultMigrationBehaviour storeSchemas db
    = (Normal true,
       db ++ map declared_store (List.filter (missing_from db) storeSchemas)).
Proof.
  intros [Hstores Hixs]. unfold defaultMigrationBehaviour.
  match goal with |- context [forEach ?f _] => set (body := f) end.
  assert (Hloop : forall db,
    forEach body storeSchemas db
    = (Normal tt,
       db ++ map declared_store (List.filter (missing_from db) storeSchemas))).
  { induction storeSchemas as [|meta rest IH]; intros db.
    - simpl. unfold ret. by rewrite app_nil_r.
    - change (map store (meta :: rest)) with (store meta :: map store rest)
        in Hstores.
      apply NoDup_cons in Hstores as [Hmeta Hstores].
      apply Forall_cons in Hixs as [Hix Hixs].
      specialize (IH Hstores Hixs).
      destruct (contains (objectStoreNames db) (store meta)) eqn:Hc.
      + assert (Hb : body meta db = (Normal tt, db)).
        { unfold body, bind, read_objectStoreNames. by rewrite Hc. }
        simpl forEach. unfold bind. rewrite Hb. rewrite IH.
        assert (Hm : missing_from db meta = false)
          by (unfold missing_from; by rewrite Hc).
        simpl List.filter. by rewrite Hm.
      + assert (Hb : body meta db = (Normal tt, db ++ [declared_store meta])).
        { unfold body. unfold bind at 1. unfold read_objectStoreNames.
          rewrite Hc. cbn [negb]. cbv iota beta.
          apply create_declared; [done|by apply contains_false]. }
        simpl forEach. unfold bind. rewrite Hb. rewrite IH.
        assert (Hm : missing_from db meta = true)
          by (unfold missing_from; by rewrite Hc).
        simpl List.filter. rewrite Hm. rewrite <- app_assoc. simpl. do 4 f_equal.
        apply List.filter_ext_in. intros m Hin.
        apply missing_from_snoc. simpl. intros Heq. apply Hmeta.
        rewrite <- Heq. apply list_elem_of_fmap_2. by apply list_elem_of_In. }
  intros db. unfold bind. by rewrite Hloop.
Qed.

Lemma filter_none {A} (p : A -> bool) (l : list A) :
  (forall x, x ∈ l -> p x = false) -> List.filter p l = [].
Proof.
  induction l as [|x l IH]; simpl; [done|].
  intros H. rewrite (H x (list_elem_of_here _ _)). apply IH.
  intros y Hy. apply H. by apply list_elem_of_further.
Qed.

Lemma NoDup_map_filter {A B} (f : A -> B) (p : A -> bool) (l : list A) :
  NoDup (map f l) -> NoDup (map f (List.filter p l)).
Proof.
  induction l as [|x l IH]; simpl; [done|].
  intros H. apply NoDup_cons in H as [Hx H].
  destruct (p x); simpl; [|by apply IH].
  apply NoDup_cons. split; [|by apply IH].
  intros Hel. apply Hx. apply list_elem_of_fmap in Hel as (y & -> & Hy).
  apply list_elem_of_fmap_2. apply list_elem_of_In in Hy.
  apply List.filter_In in Hy as [Hy _]. by apply list_elem_of_In.
Qed.

Lemma declared_names (l : list ObjectStoreMeta) :
  objectStoreNames (map declared_store l) = map store l.
Proof. unfold objectStoreNames. rewrite List.map_map. done. Qed.

(** Nothing is missing once the default behaviour has run. *)
Lemma nothing_missing (db : list IDBObjectStore)
    (storeSchemas : list ObjectStoreMeta) (meta : ObjectStoreMeta) :
  meta ∈ storeSchemas ->
  missing_from
    (db ++ map declared_store (List.filter (missing_from db) storeSchemas))
    meta = false.
Proof.
  intros Hin. unfold missing_from at 1. apply negb_false_iff.
  apply contains_true. unfold objectStoreNames. rewrite map_app.
  apply elem_of_app.
  destruct (missing_from db meta) eqn:Hm.
  - right. fold (objectStoreNames
                   (map declared_store (List.filter (missing_from db) storeSchemas))).
    rewrite declared_names. apply list_elem_of_fmap_2.
    apply list_elem_of_In. apply List.filter_In. split; [|done].
    by apply list_elem_of_In.
  - left. unfold missing_from in Hm. apply negb_false_iff in Hm.
    by apply contains_true in Hm.
Qed.

Lemma defaultMigrationBehaviour_idempotent (storeSchemas : list ObjectStoreMeta)
    (db : list IDBObjectStore) :
  valid_schemas storeSchemas ->
  let db' := db ++ map declared_store
                     (List.filter (missing_from db) storeSchemas) in
  defaultMigrationBehaviour storeSchemas db' = (Normal true, db').
Proof.
  intros Hv db'. rewrite (defaultMigrationBehaviour_valid _ Hv).
  rewrite filter_none; [by rewrite app_nil_r|].
  intros meta Hin. by apply nothing_missing.
Qed.

Lemma defaultMigrationBehaviour_NoDup (storeSchemas : list ObjectStoreMeta)
    (db : list IDBObjectStore) :
  valid_schemas storeSchemas ->
  NoDup (objectStoreNames db) ->
  NoDup (objectStoreNames
           (db ++ map declared_store
                    (List.filter (missing_from db) storeSchemas))).
Proof.
  intros [Hs _] Hdb. unfold objectStoreNames. rewrite map_app.
  apply NoDup_app. split_and!; [done| |].
  - intros s Hs1 Hs2.
    fold (objectStoreNames
            (map declared_store (List.filter (missing_from db) storeSchemas)))
      in Hs2.
    rewrite declared_names in Hs2.
    apply list_elem_of_fmap in Hs2 as (meta & -> & Hm).
    apply list_elem_of_In in Hm. apply List.filter_In in Hm as [_ Hm].
    unfold missing_from in Hm. apply negb_true_iff in Hm.
    apply contains_false in Hm. by apply Hm.
  - fold (objectStoreNames
            (map declared_store (List.filter (missing_from db) storeSchemas))).
    rewrite declared_names. by apply NoDup_map_filter.
Qed.

(** ** Opening, and what [CreateObjectStore] leaves behind *)

Lemma bind_run {S A B} (m : SE S A) (k : A -> SE S B) (s s' : S) (a : A) :
  m s = (Normal a, s') -> bind m k s = k a s'.
Proof. intros H. unfold bind. by rewrite H. Qed.

Lemma bind_throw {S A B} (m : SE S A) (k : A -> SE S B) (s s' : S) (e : Error) :
  m s = (Throw e, s') -> bind m k s = (Throw e, s').
Proof. intros H. unfold bind. by rewrite H. Qed.

Lemma stored_insert (f : gmap string IDBDatabase) (n : string) (d : IDBDatabase) :
  stored (<[n := d]> f) n = d.
Proof. unfold stored. by rewrite lookup_insert_eq. Qed.

Lemma classify_upgrade (d : IDBDatabase) (v : Z) :
  (0 < v <= max_version)%Z -> (db_version d < v)%Z ->
  classify_open d v
  = OpenUpgrade {| oldVersion := db_version d; newVersion := Some v |}.
Proof.
  intros H0 H1. unfold classify_open.
  destruct (Z.leb_spec v 0); [lia|].
  destruct (Z.ltb_spec max_version v); [lia|]. cbn [orb].
  destruct (Z.ltb_spec v (db_version d)); [lia|].
  destruct (Z.ltb_spec (db_version d) v); [done|lia].
Qed.

Lemma classify_same (d : IDBDatabase) (v : Z) :
  (0 < v <= max_version)%Z -> db_version d = v -> classify_open d v = OpenSucceeds.
Proof.
  intros H0 H1. unfold classify_open.
  destruct (Z.leb_spec v 0); [lia|].
  destruct (Z.ltb_spec max_version v); [lia|]. cbn [orb].
  destruct (Z.ltb_spec v (db_version d)); [lia|].
  destruct (Z.ltb_spec (db_version d) v); [lia|done].
Qed.

Lemma log_all_trace (l : list Obs) (w : World) :
  log_all l w = (Normal tt, observe w l).
Proof.
  revert w. induction l as [|o l IH]; intros w; simpl.
  - unfold ret, observe. rewrite app_nil_r. by destruct w.
  - unfold bind, log. rewrite IH. unfold observe. simpl.
    by rewrite <- app_assoc.
Qed.

(** No connection to the database is open: the version change goes on at
    once. *)
Lemma await_free (dbName : string) (event : IDBVersionChangeEvent)
    (onblocked : option (IDBVersionChangeEvent -> IO unit)) (w : World) :
  dbName ∉ connections w ->
  await_versionchange dbName event onblocked w = (Normal true, w).
Proof.
  intros Hfree. unfold await_versionchange, bind, get_connections.
  apply contains_false in Hfree. by rewrite Hfree.
Qed.

Lemma CreateObjectStore_upgrade (dbName : string) (version : Z)
    (storeSchemas : list ObjectStoreMeta)
    (migrations : option (list IDBMigration))
    (f : gmap string IDBDatabase) (conns : list string) (released : bool) :
  (0 < version <= max_version)%Z ->
  (db_version (stored f dbName) < version)%Z ->
  dbName ∉ conns ->
  let '(r, st) :=
    run_upgrade (versionchange f dbName version) storeSchemas migrations
      {| database := objectStores (stored f dbName); invoked := [] |} in
  CreateObjectStore dbName version storeSchemas migrations
    (world f conns released)
  = (Normal tt, after_upgrade dbName version f conns released r st).
Proof.
  intros H0 H1 Hfree.
  destruct (run_upgrade _ _ _ _) as [r st] eqn:Hrun.
  unfold CreateObjectStore. unfold bind at 1. unfold log at 1.
  unfold bind at 1. unfold get_factory at 1. cbn [factory world].
  rewrite (classify_upgrade _ _ H0 H1).
  erewrite bind_run; [|by apply await_free].
  fold (versionchange f dbName version). rewrite Hrun.
  unfold bind at 1. rewrite log_all_trace.
  destruct r as [[]|e];
    unfold bind, resolve, reject, settle, commit_upgrade, bind, get_factory,
      set_factory, log, observe, after_upgrade, upgraded; simpl;
    by rewrite <- app_assoc.
Qed.

Lemma CreateObjectStore_blocked (dbName : string) (version : Z)
    (storeSchemas : list ObjectStoreMeta)
    (migrations : option (list IDBMigration))
    (f : gmap string IDBDatabase) (conns : list string) (released : bool) :
  (0 < version <= max_version)%Z ->
  (db_version (stored f dbName) < version)%Z ->
  dbName ∈ conns ->
  let '(r, st) :=
    run_upgrade (versionchange f dbName version) storeSchemas migrations
      {| database := objectStores (stored f dbName); invoked := [] |} in
  CreateObjectStore dbName version storeSchemas migrations
    (world f conns released)
  = (Normal tt, after_blocked dbName version f conns released r st).
Proof.
  intros H0 H1 Hin.
  destruct (run_upgrade _ _ _ _) as [r st] eqn:Hrun.
  unfold CreateObjectStore. unfold bind at 1. unfold log at 1.
  unfold bind at 1. unfold get_factory at 1. cbn [factory world].
  rewrite (classify_upgrade _ _ H0 H1).
  fold (versionchange f dbName version).
  apply contains_true in Hin.
  unfold bind at 1. unfold await_versionchange, bind at 1, get_connections.
  cbn [connections releases promise trace factory world app]. rewrite Hin.
  unfold after_blocked. destruct released.
  - unfold bind, log, fire, reject, settle, get_releases, set_connections, ret.
    cbn [connections releases promise trace factory app].
    rewrite Hrun. rewrite log_all_trace.
    destruct r as [[]|e];
      unfold resolve, reject, settle, commit_upgrade, bind, get_factory,
        set_factory, log, observe, upgraded, without; simpl;
      by rewrite <- ?app_assoc.
  - unfold bind, log, fire, reject, settle, get_releases, ret. simpl. done.
Qed.

Lemma CreateObjectStore_same (dbName : string) (version : Z)
    (storeSchemas : list ObjectStoreMeta)
    (migrations : option (list IDBMigration))
    (f : gmap string IDBDatabase) (conns : list string) (released : bool) :
  (0 < version <= max_version)%Z -> db_version (stored f dbName) = version ->
  CreateObjectStore dbName version storeSchemas migrations
    (world f conns released)
  = (Normal tt, {| factory := f; connections := conns; releases := released;
                   promise := Resolved RUndefined;
                   trace := [OOpen dbName version;
                             OSettled (Resolved RUndefined)] |}).
Proof.
  intros H0 H1.
  unfold CreateObjectStore, bind, log, get_factory. simpl.
  by rewrite (classify_same _ _ H0 H1).
Qed.

Lemma migrations_run_ups (l : list IDBMigration) (t : list Obs) :
  migrations_run (map OMigrationUp l ++ t) = l ++ migrations_run t.
Proof.
  unfold migrations_run. rewrite omap_app. f_equal.
  induction l as [|m l IH]; simpl; [done|]. by f_equal.
Qed.

Lemma migrations_run_other (o : Obs) (t : list Obs) :
  (forall m, o <> OMigrationUp m) -> migrations_run (o :: t) = migrations_run t.
Proof. intros Ho. destruct o; try done. by destruct (Ho m). Qed.

(** What an upgrade through [CreateObjectStore] leaves, when it is not
    blocked or when the host closes the connections in its way. *)
Lemma CreateObjectStore_upgrade_runs (dbName : string) (version : Z)
    (storeSchemas : list ObjectStoreMeta)
    (migrations : option (list IDBMigration))
    (f : gmap string IDBDatabase) (conns : list string) (released : bool)
    (r : Completion unit) (st : MigState) :
  let w := snd (CreateObjectStore dbName version storeSchemas migrations
                  (world f conns released)) in
  (0 < version <= max_version)%Z ->
  (db_version (stored f dbName) < version)%Z ->
  dbName ∉ conns \/ released = true ->
  run_upgrade (versionchange f dbName version) storeSchemas migrations
    {| database := objectStores (stored f dbName); invoked := [] |} = (r, st) ->
  factory w = upgraded dbName version f r st /\
  migrations_run (trace w) = invoked st /\
  (dbName ∉ conns ->
   promise w = match r with
               | Normal _ => Resolved RUndefined
               | Throw e => Rejected e
               end) /\
  (dbName ∈ conns ->
   promise w = Rejected (ErrBlocked (versionchange f dbName version))) /\
  (OComplete ∈ trace w <-> exists u, r = Normal u) /\
  (OAbort ∈ trace w <-> exists e, r = Throw e).
Proof.
  intros w H0 H1 Hruns Hrun.
  assert (Hno : forall o l, (forall m, o <> OMigrationUp m) ->
                  o ∈ map OMigrationUp l -> False).
  { intros o l Ho Hel. apply list_elem_of_fmap in Hel as (m & -> & _).
    by apply (Ho m). }
  destruct (decide (dbName ∈ conns)) as [Hin|Hfree].
  - destruct Hruns as [Hfree| ->]; [done|].
    pose proof (CreateObjectStore_blocked dbName version storeSchemas
                  migrations f conns true H0 H1 Hin) as HC.
    rewrite Hrun in HC. unfold w. rewrite HC. unfold after_blocked.
    cbn [snd factory promise trace].
    split_and!; [done| | done | done | |].
    + cbn [app]. rewrite !migrations_run_other by done.
      rewrite migrations_run_ups. destruct r; simpl; by rewrite app_nil_r.
    + split.
      * intros Hel. simpl in Hel.
        repeat (apply elem_of_cons in Hel as [Hel|Hel]; [discriminate Hel|]).
        apply elem_of_app in Hel as [Hel|Hel];
          [exfalso; eapply Hno; [|exact Hel]; done|].
        destruct r as [u|e]; [by exists u|].
        apply list_elem_of_singleton in Hel. discriminate Hel.
      * intros [u ->]. simpl. do 3 apply list_elem_of_further.
        apply elem_of_app. right. apply list_elem_of_here.
    + split.
      * intros Hel. simpl in Hel.
        repeat (apply elem_of_cons in Hel as [Hel|Hel]; [discriminate Hel|]).
        apply elem_of_app in Hel as [Hel|Hel];
          [exfalso; eapply Hno; [|exact Hel]; done|].
        destruct r as [u|e]; [|by exists e].
        apply list_elem_of_singleton in Hel. discriminate Hel.
      * intros [e ->]. simpl. do 3 apply list_elem_of_further.
        apply elem_of_app. right. apply list_elem_of_here.
  - pose proof (CreateObjectStore_upgrade dbName version storeSchemas
                  migrations f conns released H0 H1 Hfree) as HC.
    rewrite Hrun in HC. unfold w. rewrite HC. unfold after_upgrade.
    cbn [snd factory promise trace].
    split_and!; [done| | done | done | |].
    + rewrite migrations_run_other by done.
      rewrite migrations_run_ups. destruct r; simpl; by rewrite app_nil_r.
    + split.
      * intros Hel.
        apply elem_of_cons in Hel as [Hel|Hel]; [discriminate Hel|].
        apply elem_of_app in Hel as [Hel|Hel];
          [exfalso; eapply Hno; [|exact Hel]; done|].
        destruct r as [u|e]; [by exists u|].
        repeat (apply elem_of_cons in Hel as [Hel|Hel]; [discriminate Hel|]).
        by apply elem_of_nil in Hel.
      * intros [u ->]. apply list_elem_of_further.
        apply elem_of_app. right.
        apply list_elem_of_further, list_elem_of_here.
    + split.
      * intros Hel.
        apply elem_of_cons in Hel as [Hel|Hel]; [discriminate Hel|].
        apply elem_of_app in Hel as [Hel|Hel];
          [exfalso; eapply Hno; [|exact Hel]; done|].
        destruct r as [u|e]; [|by exists e].
        repeat (apply elem_of_cons in Hel as [Hel|Hel]; [discriminate Hel|]).
        by apply elem_of_nil in Hel.
      * intros [e ->]. apply list_elem_of_further.
        apply elem_of_app. right.
        apply list_elem_of_further, list_elem_of_here.
Qed.

(** ** The migration sequencer *)

(** The count of [applyMigrations_for] is the number of times the guard
    [nextVersion < newVersion + 1] of line 54 holds. *)
Lemma iterations_guard (nextVersion newVersion : Z) :
  (iterations nextVersion newVersion = O <-> ~ (nextVersion < newVersion + 1)%Z)
  /\ ((nextVersion < newVersion + 1)%Z ->
      iterations nextVersion newVersion
      = S (iterations (nextVersion + 1) newVersion)).
Proof. unfold iterations. split; [split|]; lia. Qed.

Lemma migration_for_Some (migrations : list IDBMigration) (v : Z)
    (m : IDBMigration) :
  migration_for migrations v = Some m -> m ∈ migrations /\ toVersion m = v.
Proof.
  intros H. apply List.find_some in H as [Hin Hv].
  split; [by apply list_elem_of_In | by apply Z.eqb_eq].
Qed.

Section Sequencer.
Variable storeSchemas : list ObjectStoreMeta.
Variable migrations : list IDBMigration.

Lemma migrate_to_stops (v : Z) (e : Error) (called : list IDBMigration)
    (st : MigState) :
  stops storeSchemas migrations v (database st) e called ->
  exists db',
    migrate_to storeSchemas migrations v st
    = (Throw e, {| database := db'; invoked := invoked st ++ called |}).
Proof.
  intros Hf. unfold migrate_to. fold (migration_for migrations v).
  destruct Hf as [Hfind | m Hfind Hup | m f db' Hfind Hup Hfalse
                 | m f e db' Hfind Hup Hthrow].
  - rewrite Hfind. exists (database st). rewrite app_nil_r. by destruct st.
  - rewrite Hfind, Hup. exists (database st). rewrite app_nil_r.
    by destruct st.
  - rewrite Hfind, Hup. unfold call_up. rewrite Hfalse. by exists db'.
  - rewrite Hfind, Hup. unfold call_up. rewrite Hthrow. by exists db'.
Qed.

(** The loop runs to its end when every version succeeds on the stores
    it is reached with: it calls the migration found for each version, one
    after the other, each on what the one before left. *)
Lemma applyMigrations_for_migrates (v v' : Z) (db db' : list IDBObjectStore)
    (ms : list IDBMigration) :
  migrates storeSchemas migrations v db v' db' ms ->
  (v <= v')%Z /\
  Forall2 (fun m u => migration_for migrations u = Some m)
          ms (seqZ (v + 1) (v' - v)) /\
  forall inv,
    applyMigrations_for (Z.to_nat (v' - v)) storeSchemas migrations (v + 1)
      {| database := db; invoked := inv |}
    = (Normal tt, {| database := db'; invoked := inv ++ ms |}).
Proof.
  induction 1 as [v db | v db m f db1 v' db' ms Hfind Hup Hrun _ (Hle & Hall & IH)].
  - split_and!; [lia| |].
    + rewrite Z.sub_diag. constructor.
    + intros inv. rewrite Z.sub_diag. simpl. by rewrite app_nil_r.
  - split_and!; [lia| |].
    + rewrite seqZ_cons by lia. constructor; [done|].
      replace (Z.succ (v + 1)) with (v + 1 + 1)%Z by lia.
      replace (Z.pred (v' - v)) with (v' - (v + 1))%Z by lia. done.
    + intros inv.
      replace (Z.to_nat (v' - v)) with (S (Z.to_nat (v' - (v + 1)))) by lia.
      cbn [applyMigrations_for]. unfold migrate_to.
      fold (migration_for migrations (v + 1)). rewrite Hfind, Hup.
      unfold call_up. cbn [database invoked]. rewrite Hrun.
      rewrite IH. by rewrite <- app_assoc.
Qed.

(** The loop stops at the first version that fails: the versions
    before it were migrated, none after it is. *)
Lemma applyMigrations_for_stops (n : nat) (v v1 : Z)
    (db db1 : list IDBObjectStore) (ms called : list IDBMigration) (e : Error) :
  migrates storeSchemas migrations v db v1 db1 ms ->
  stops storeSchemas migrations (v1 + 1) db1 e called ->
  (Z.to_nat (v1 - v) < n)%nat ->
  forall inv, exists db2,
    applyMigrations_for n storeSchemas migrations (v + 1)
      {| database := db; invoked := inv |}
    = (Throw e, {| database := db2; invoked := inv ++ ms ++ called |}).
Proof.
  intros Hm. revert n.
  induction Hm as [v db | v db m f db1 v' db' ms Hfind Hup Hrun Hm IH];
    intros n Hstop Hn inv.
  - destruct n as [|n]; [lia|]. cbn [applyMigrations_for].
    destruct (migrate_to_stops (v + 1) e called
                {| database := db; invoked := inv |} Hstop) as [db2 Hstep].
    rewrite Hstep. by exists db2.
  - pose proof (applyMigrations_for_migrates _ _ _ _ _ Hm) as (Hle & _ & _).
    destruct n as [|n]; [lia|]. cbn [applyMigrations_for]. unfold migrate_to.
    fold (migration_for migrations (v + 1)). rewrite Hfind, Hup.
    unfold call_up. cbn [database invoked]. rewrite Hrun.
    destruct (IH n Hstop ltac:(lia) (inv ++ [m])) as [db2 Hrest].
    rewrite Hrest. exists db2. by rewrite <- app_assoc.
Qed.

End Sequencer.

Lemma found_versions (migrations found : list IDBMigration) (vs : list Z) :
  Forall2 (fun m v => migration_for migrations v = Some m) found vs ->
  map toVersion found = vs /\ Forall (fun m => m ∈ migrations) found.
Proof.
  induction 1 as [|m v found vs Hm _ [IH1 IH2]]; simpl; [done|].
  apply migration_for_Some in Hm as [Hin Hv].
  split; [by rewrite Hv, IH1 | by constructor].
Qed.

Lemma found_for (migrations found : list IDBMigration) (vs : list Z)
    (m : IDBMigration) :
  Forall2 (fun m v => migration_for migrations v = Some m) found vs ->
  (m ∈ found <->
   toVersion m ∈ vs /\ migration_for migrations (toVersion m) = Some m).
Proof.
  induction 1 as [|m0 v found vs Hm _ IH].
  - split; [intros H; by apply elem_of_nil in H|].
    intros [H _]. by apply elem_of_nil in H.
  - pose proof (migration_for_Some _ _ _ Hm) as [_ Hv].
    rewrite !elem_of_cons, IH. split.
    + intros [-> | [Hin Hfor]].
      * split; [by left|]. by rewrite Hv.
      * split; [by right|done].
    + intros [[Heq | Hin] Hfor].
      * left. rewrite Heq, Hm in Hfor. by injection Hfor.
      * right. done.
Qed.

Lemma NoDup_map_eq {A B} (g : A -> B) (l : list A) (x y : A) :
  NoDup (map g l) -> x ∈ l -> y ∈ l -> g x = g y -> x = y.
Proof.
  induction l as [|a l IH]; simpl; intros Hnd Hx Hy Hg.
  - by apply elem_of_nil in Hx.
  - apply NoDup_cons in Hnd as [Ha Hnd].
    apply elem_of_cons in Hx as [->|Hx]; apply elem_of_cons in Hy as [->|Hy].
    + done.
    + exfalso. apply Ha. rewrite Hg. by apply list_elem_of_fmap_2.
    + exfalso. apply Ha. rewrite <- Hg. by apply list_elem_of_fmap_2.
    + by apply IH.
Qed.

(** With one migration for each target version, each migration of the
    list is the one found for its version. *)
Lemma migration_for_own (migrations : list IDBMigration) (m : IDBMigration) :
  NoDup (map toVersion migrations) -> m ∈ migrations ->
  migration_for migrations (toVersion m) = Some m.
Proof.
  intros Hnd Hin. unfold migration_for.
  destruct (find _ migrations) as [m'|] eqn:Hfind.
  - pose proof (migration_for_Some _ _ _ Hfind) as [Hin' Hv].
    f_equal. by apply (NoDup_map_eq toVersion migrations).
  - exfalso. apply list_elem_of_In in Hin.
    pose proof (List.find_none _ _ Hfind m Hin) as Hno. simpl in Hno. lia.
Qed.

Lemma run_upgrade_migrations (dbName : string) (version : Z)
    (storeSchemas : list ObjectStoreMeta) (migrations : list IDBMigration)
    (f : gmap string IDBDatabase) (st : MigState) :
  run_upgrade (versionchange f dbName version) storeSchemas (Some migrations) st
  = applyMigrations_for (Z.to_nat (version - db_version (stored f dbName)))
      storeSchemas migrations (db_version (stored f dbName) + 1) st.
Proof.
  unfold run_upgrade, applyMigrations, versionchange, iterations. simpl.
  do 2 f_equal. lia.
Qed.

(** C1. During an upgrade from the stored version to the requested one
    with a migration list in which every version of the range has a
    migration whose [up], called on the stores the upgrade has reached,
    succeeds: the migrations called are the ones found for the versions of
    (oldVersion, newVersion], one per version and in increasing version
    order, none twice, each on the stores the one before left, so that the
    database ends at the new version with the stores the last one left; a
    migration is called exactly when its version lies in that range and it
    is the one found for its version, which with one migration per target
    version is every migration whose target lies in the range.  The
    promise resolves, unless an open connection blocked the request, which
    rejects it before the upgrade runs. *)
Theorem upgrade_invokes_each_migration_once
    (dbName : string) (version : Z) (storeSchemas : list ObjectStoreMeta)
    (migrations : list IDBMigration) (f : gmap string IDBDatabase)
    (conns : list string) (released : bool)
    (stores : list IDBObjectStore) (found : list IDBMigration) :
  let old := db_version (stored f dbName) in
  let w := snd (CreateObjectStore dbName version storeSchemas
                  (Some migrations) (world f conns released)) in
  (0 < version <= max_version)%Z -> (old < version)%Z ->
  dbName ∉ conns \/ released = true ->
  migrates storeSchemas migrations old (objectStores (stored f dbName))
           version stores found ->
  (dbName ∉ conns -> promise w = Resolved RUndefined) /\
  stored (factory w) dbName
    = {| db_version := version; objectStores := stores |} /\
  migrations_run (trace w) = found /\
  Forall2 (fun m v => migration_for migrations v = Some m)
          (migrations_run (trace w)) (seqZ (old + 1) (version - old)) /\
  map toVersion (migrations_run (trace w)) = seqZ (old + 1) (version - old) /\
  NoDup (migrations_run (trace w)) /\
  (forall m, m ∈ migrations_run (trace w) <->
             (old < toVersion m <= version)%Z /\
             migration_for migrations (toVersion m) = Some m) /\
  (NoDup (map toVersion migrations) ->
   forall m, m ∈ migrations ->
             (m ∈ migrations_run (trace w) <-> (old < toVersion m <= version)%Z)).
Proof.
  intros old w H0 H1 Hruns Hm.
  destruct (applyMigrations_for_migrates _ _ _ _ _ _ _ Hm) as (_ & Hfound & Hrun).
  specialize (Hrun []). cbn [app] in Hrun.
  destruct (CreateObjectStore_upgrade_runs dbName version storeSchemas
              (Some migrations) f conns released (Normal tt)
              {| database := stores; invoked := found |} H0 H1 Hruns)
    as (Hfac & Hinv & Hfree & _).
  { by rewrite run_upgrade_migrations. }
  fold w in Hfac, Hinv, Hfree. cbn [invoked] in Hinv. rewrite Hinv.
  destruct (found_versions _ _ _ Hfound) as [Hvs Hin].
  assert (Hnd : NoDup found).
  { apply (NoDup_fmap_1 toVersion). change (NoDup (map toVersion found)).
    rewrite Hvs. apply NoDup_seqZ. }
  assert (Hiff : forall m, m ∈ found <->
             (old < toVersion m <= version)%Z /\
             migration_for migrations (toVersion m) = Some m).
  { intros m. rewrite (found_for _ _ _ m Hfound), elem_of_seqZ.
    split; (intros [? ?]; split; [lia|done]). }
  split_and!; try done.
  - rewrite Hfac. unfold upgraded. by rewrite stored_insert.
  - intros Hone m Hmem. rewrite Hiff. split; [by intros [? _]|].
    intros Hrange. split; [done|]. by apply migration_for_own.
Qed.

(** C2. During an upgrade with a migration list, when [v] is the first
    version of the range whose migration is missing, has no [up], or has an
    [up] that returns false (or throws) on the stores the versions before
    it left, the promise is rejected, with the error of that cause and
    version unless an open connection had blocked the request before (each
    cause has its message, which names the version), the upgrade
    transaction is aborted and nothing of it is kept, and no migration for
    a later version is called. *)
Theorem failed_migration_rejects_and_aborts
    (dbName : string) (version : Z) (storeSchemas : list ObjectStoreMeta)
    (migrations : list IDBMigration) (f : gmap string IDBDatabase)
    (conns : list string) (released : bool)
    (v : Z) (e : Error) (stores : list IDBObjectStore)
    (before called : list IDBMigration) :
  let old := db_version (stored f dbName) in
  let w := snd (CreateObjectStore dbName version storeSchemas
                  (Some migrations) (world f conns released)) in
  (0 < version <= max_version)%Z -> (old < v <= version)%Z ->
  dbName ∉ conns \/ released = true ->
  migrates storeSchemas migrations old (objectStores (stored f dbName))
           (v - 1) stores before ->
  stops storeSchemas migrations v stores e called ->
  (exists e', promise w = Rejected e' /\ (dbName ∉ conns -> e' = e)) /\
  (migration_for migrations v = None ->
   error_message e
   = Some ("Db configuration should contain a migration for version "
           +:+ pretty v)) /\
  (forall m, migration_for migrations v = Some m -> up m = None ->
   error_message e
   = Some ("Up callback hasn't been implemented for migration with version "
           +:+ pretty v)) /\
  (forall m g db', migration_for migrations v = Some m -> up m = Some g ->
   g storeSchemas defaultMigrationBehaviour stores = (Normal false, db') ->
   error_message e
   = Some ("Migration for version " +:+ (pretty v +:+ " has failed"))) /\
  OAbort ∈ trace w /\ (OComplete ∉ trace w) /\
  factory w = f /\
  migrations_run (trace w) = before ++ called /\
  map toVersion (migrations_run (trace w))
    = seqZ (old + 1) (v - old - 1) ++ map toVersion called /\
  Forall (fun m => (toVersion m <= v)%Z) (migrations_run (trace w)).
Proof.
  intros old w H0 Hv Hruns Hm Hstop.
  assert (H1 : (db_version (stored f dbName) < version)%Z) by (fold old; lia).
  pose proof (applyMigrations_for_migrates _ _ _ _ _ _ _ Hm)
    as (Hle & Hfound & _).
  replace v with (v - 1 + 1)%Z in Hstop by lia.
  destruct (applyMigrations_for_stops storeSchemas migrations
              (Z.to_nat (version - old)) old (v - 1)
              (objectStores (stored f dbName)) stores before called e
              Hm Hstop ltac:(lia) []) as [db2 Hrun].
  cbn [app] in Hrun.
  replace (v - 1 + 1)%Z with v in Hstop by lia.
  destruct (CreateObjectStore_upgrade_runs dbName version storeSchemas
              (Some migrations) f conns released (Throw e)
              {| database := db2; invoked := before ++ called |} H0 H1 Hruns)
    as (Hfac & Hinv & Hfree & Hblocked & Hcomplete & Habort).
  { by rewrite run_upgrade_migrations. }
  fold w in Hfac, Hinv, Hfree, Hblocked, Hcomplete, Habort.
  cbn [invoked] in Hinv. rewrite Hinv.
  destruct (found_versions _ _ _ Hfound) as [Hvs _].
  replace (v - 1 - old)%Z with (v - old - 1)%Z in Hvs by lia.
  assert (Hcalled : Forall (fun m => toVersion m = v) called).
  { destruct Hstop as [| | m g db' Hfind | m g e db' Hfind];
      [constructor|constructor| |];
      (constructor; [by apply migration_for_Some in Hfind as [_ ?]|done]). }
  split_and!.
  - destruct (decide (dbName ∈ conns)) as [Hin|Hout].
    + eexists. split; [by apply Hblocked|done].
    + exists e. split; [by apply Hfree|done].
  - intros Hnone. destruct Hstop; [done|congruence..].
  - intros m Hsome Hup. destruct Hstop; [congruence|done|congruence..].
  - intros m g db' Hsome Hup Hfalse.
    destruct Hstop as [| | m' g' db'' Hfind' Hup' Hf' | m' g' e db'' Hfind' Hup' Hf'];
      [congruence|congruence|done|].
    rewrite Hsome in Hfind'. injection Hfind' as <-.
    rewrite Hup in Hup'. injection Hup' as <-. congruence.
  - apply Habort. by exists e.
  - intros Hel. apply Hcomplete in Hel as [u Hu]. discriminate Hu.
  - by rewrite Hfac.
  - done.
  - rewrite map_app. by rewrite Hvs.
  - apply Forall_app. split.
    + apply Forall_forall. intros m Hel.
      apply (list_elem_of_fmap_2 toVersion) in Hel.
      change (toVersion m ∈ map toVersion before) in Hel.
      rewrite Hvs in Hel. apply elem_of_seqZ in Hel. lia.
    + eapply Forall_impl; [exact Hcalled|]. simpl. intros m ->. lia.
Qed.

Lemma find_store_app (s : string) (db db' : list IDBObjectStore) :
  s ∉ objectStoreNames db -> find_store s (db ++ db') = find_store s db'.
Proof.
  induction db as [|os db IH]; simpl; [done|].
  intros Hn. apply not_elem_of_cons in Hn as [Hne Hn].
  destruct (String.eqb_spec (os_name os) s); [congruence|]. by apply IH.
Qed.

Lemma find_store_declared (l : list ObjectStoreMeta) (meta : ObjectStoreMeta) :
  NoDup (map store l) -> meta ∈ l ->
  find_store (store meta) (map declared_store l) = Some (declared_store meta).
Proof.
  induction l as [|a l IH]; simpl; intros Hnd Hin.
  - by apply elem_of_nil in Hin.
  - apply NoDup_cons in Hnd as [Ha Hnd].
    apply elem_of_cons in Hin as [->|Hin].
    + by rewrite String.eqb_refl.
    + destruct (String.eqb_spec (store a) (store meta)) as [E|E].
      * exfalso. apply Ha. rewrite E. by apply list_elem_of_fmap_2.
      * by apply IH.
Qed.

(** C3. With no migration list and valid schema descriptors, the upgrade
    runs the default behaviour once: the stores already present stay as
    they are, in place; for each declared schema whose name was not
    present a store is created with its key configuration and every
    declared index; store names stay distinct; running the default
    behaviour again creates nothing, and initializing again with the same
    version resolves and leaves the database as it is.  The promise of the
    first initialization resolves, unless an open connection blocked the
    request, which rejects it before the upgrade runs. *)
Theorem default_behaviour_creates_missing_stores
    (dbName : string) (version : Z) (storeSchemas : list ObjectStoreMeta)
    (f : gmap string IDBDatabase) (conns : list string) (released : bool) :
  let current := objectStores (stored f dbName) in
  let created :=
    map declared_store (List.filter (missing_from current) storeSchemas) in
  let w := snd (CreateObjectStore dbName version storeSchemas None
                  (world f conns released)) in
  let again := snd (CreateObjectStore dbName version storeSchemas None
                      (later w)) in
  valid_schemas storeSchemas ->
  (0 < version <= max_version)%Z ->
  (db_version (stored f dbName) < version)%Z ->
  dbName ∉ conns \/ released = true ->
  (dbName ∉ conns -> promise w = Resolved RUndefined) /\
  stored (factory w) dbName
    = {| db_version := version; objectStores := current ++ created |} /\
  (forall meta, meta ∈ storeSchemas -> store meta ∉ objectStoreNames current ->
     find_store (store meta) (objectStores (stored (factory w) dbName))
     = Some (declared_store meta)) /\
  (forall os, os ∈ current -> os ∈ objectStores (stored (factory w) dbName)) /\
  (NoDup (objectStoreNames current) ->
   NoDup (objectStoreNames (objectStores (stored (factory w) dbName)))) /\
  defaultMigrationBehaviour storeSchemas (current ++ created)
    = (Normal true, current ++ created) /\
  factory again = factory w /\ promise again = Resolved RUndefined.
Proof.
  intros current created w again Hvalid H0 H1 Hruns.
  destruct (CreateObjectStore_upgrade_runs dbName version storeSchemas
              None f conns released (Normal tt)
              {| database := current ++ created; invoked := [] |} H0 H1 Hruns)
    as (Hfac & _ & Hfree & _).
  { unfold run_upgrade. cbn [database invoked].
    by rewrite (defaultMigrationBehaviour_valid _ Hvalid). }
  fold w in Hfac, Hfree.
  assert (Hst : stored (factory w) dbName
                = {| db_version := version; objectStores := current ++ created |}).
  { rewrite Hfac. unfold upgraded. by rewrite stored_insert. }
  assert (Hagain : again
            = {| factory := factory w; connections := connections w;
                 releases := releases w; promise := Resolved RUndefined;
                 trace := [OOpen dbName version;
                           OSettled (Resolved RUndefined)] |}).
  { unfold again, later.
    change {| factory := factory w; connections := connections w;
              releases := releases w; promise := Pending; trace := [] |}
      with (world (factory w) (connections w) (releases w)).
    rewrite (CreateObjectStore_same dbName version storeSchemas None
               (factory w) _ _ H0); [done|by rewrite Hst]. }
  rewrite Hst. simpl.
  split_and!; try done.
  - intros meta Hin Hmiss. rewrite (find_store_app _ _ _ Hmiss).
    destruct Hvalid as [Hs _]. apply find_store_declared.
    + by apply NoDup_map_filter.
    + apply list_elem_of_In. apply List.filter_In.
      split; [by apply list_elem_of_In|].
      unfold missing_from. apply negb_true_iff. by apply contains_false.
  - intros os Hos. apply elem_of_app. by left.
  - intros Hnd. by apply defaultMigrationBehaviour_NoDup.
  - by apply defaultMigrationBehaviour_idempotent.
  - by rewrite Hagain.
  - by rewrite Hagain.
Qed.

(** ** Running the facade *)

Arguments contains : simpl never.
Arguments stored : simpl never.
Arguments objectStoreNames : simpl never.

Lemma then_run (db : IDBHandle) (callback : IDBHandle -> IO unit)
    (w w' : World) (r : Completion unit) :
  callback db w = (r, w') ->
  then_ (Fulfilled db) callback w
  = match r with
    | Normal _ => (Normal tt, w')
    | Throw e => log (OUncaught e) w'
    end.
Proof.
  intros H. unfold then_, bind, try_. rewrite H. by destruct r.
Qed.

Lemma active_run (tx : IDBTransaction) (rest : IO unit) (w w' : World) :
  rest w = (Normal tt, w') -> active tx rest w = (Normal tt, w').
Proof. intros H. unfold active, bind, try_. by rewrite H. Qed.

Lemma active_throw (tx : IDBTransaction) (rest : IO unit) (w w' : World)
    (e : Error) :
  rest w = (Throw e, w') ->
  active tx rest w
  = (log (OUncaught e) ;; log OComplete ;; oncomplete tx REvent)%se w'.
Proof. intros H. unfold active. unfold bind at 1. unfold try_. by rewrite H. Qed.

Lemma unblocked_fresh (f : gmap string IDBDatabase) (dbName : string)
    (version : Z) :
  unblocked f [] dbName version.
Proof. right. apply not_elem_of_nil. Qed.

Lemma openDatabase_opens (f : gmap string IDBDatabase) (conns : list string)
    (released : bool) (dbName : string) (version : Z) :
  opens f dbName version ->
  unblocked f conns dbName version ->
  openDatabase dbName version None (world f conns released)
  = (Normal (Fulfilled (handle dbName version)),
     opened_world f conns released dbName version).
Proof.
  intros [H0 H1] Hfree. unfold openDatabase, opened_world, after_open.
  unfold bind at 1. unfold log at 1. unfold bind at 1. unfold get_factory at 1.
  cbn [factory world connections releases promise trace app].
  destruct (Z.eq_dec (db_version (stored f dbName)) version) as [E|E].
  - rewrite (classify_same _ _ H0 E).
    unfold connect, bind, get_connections, set_connections, settle_open, log,
      ret. simpl. done.
  - assert (H2 : (db_version (stored f dbName) < version)%Z) by lia.
    rewrite (classify_upgrade _ _ H0 H2).
    destruct Hfree as [Hsame|Hfree]; [done|].
    erewrite bind_run; [|by apply await_free].
    unfold commit_upgrade, connect, bind, get_connections, set_connections,
      get_factory, set_factory, settle_open, log, ret. simpl. done.
Qed.

Lemma stored_after_open (f : gmap string IDBDatabase) (dbName : string)
    (version : Z) :
  opens f dbName version ->
  stored (after_open f dbName version) dbName
  = {| db_version := version; objectStores := objectStores (stored f dbName) |}.
Proof.
  intros [H0 H1]. unfold after_open.
  destruct (Z.eq_dec (db_version (stored f dbName)) version) as [E|E].
  - rewrite (classify_same _ _ H0 E). destruct (stored f dbName). simpl in *.
    by subst.
  - assert (H2 : (db_version (stored f dbName) < version)%Z) by lia.
    rewrite (classify_upgrade _ _ H0 H2). by rewrite stored_insert.
Qed.

Lemma validate_missing (db : IDBHandle) (storeName : string) (w : World) :
  contains (objectStoreNames (objectStores (stored (factory w) (h_name db))))
           storeName = false ->
  promise w = Pending ->
  validateBeforeTransaction db storeName reject w
  = (Normal tt,
     {| factory := factory w;
        connections := connections w;
        releases := releases w;
        promise := Rejected (ErrStoreMissing storeName);
        trace := trace w ++ [OValidate storeName;
                             OSettled (Rejected (ErrStoreMissing storeName))] |}).
Proof.
  intros Hc Hp.
  unfold validateBeforeTransaction, bind, log, db_objectStoreNames, get_factory,
    ret. simpl. rewrite Hc. unfold reject, settle. simpl. rewrite Hp.
  by rewrite <- app_assoc.
Qed.

Lemma validate_present (db : IDBHandle) (storeName : string) (w : World) :
  contains (objectStoreNames (objectStores (stored (factory w) (h_name db))))
           storeName = true ->
  validateBeforeTransaction db storeName reject w
  = (Normal tt, observe w [OValidate storeName]).
Proof.
  intros Hc.
  unfold validateBeforeTransaction, bind, log, db_objectStoreNames, get_factory,
    ret. simpl. by rewrite Hc.
Qed.

Lemma createTransaction_missing (mode : DBMode) (db : IDBHandle)
    (storeName : string) (res : JSResult -> IO unit) (rej : Error -> IO unit)
    (w : World) :
  contains (objectStoreNames (objectStores (stored (factory w) (h_name db))))
           storeName = false ->
  createTransaction mode db storeName res rej w
  = (Throw (ErrEnv NotFoundError), observe w [OTransaction mode storeName]).
Proof.
  intros Hc.
  unfold createTransaction, transaction, bind, log, db_objectStoreNames,
    get_factory, ret, throw. simpl. by rewrite Hc.
Qed.

Lemma createTransaction_present (mode : DBMode) (db : IDBHandle)
    (storeName : string) (res : JSResult -> IO unit) (rej : Error -> IO unit)
    (w : World) :
  contains (objectStoreNames (objectStores (stored (factory w) (h_name db))))
           storeName = true ->
  createTransaction mode db storeName res rej w
  = (Normal {| tx_db := h_name db; tx_store := storeName; tx_mode := mode;
               oncomplete := res; onerror := rej; onabort := rej |},
     observe w [OTransaction mode storeName; OTxStarted mode storeName]).
Proof.
  intros Hc.
  unfold createTransaction, transaction, bind, log, db_objectStoreNames,
    get_factory, ret, throw. simpl. rewrite Hc. simpl.
  unfold observe. simpl. by rewrite <- app_assoc.
Qed.

Lemma validated_callback_missing (f : gmap string IDBDatabase)
    (conns : list string) (released : bool)
    (dbName : string) (version : Z) (mode : DBMode) (storeName : string)
    (rest : IDBTransaction -> IO unit) :
  opens f dbName version ->
  storeName ∉ objectStoreNames (objectStores (stored f dbName)) ->
  then_ (Fulfilled (handle dbName version))
    (fun db =>
       validateBeforeTransaction db storeName reject ;;
       store <- createTransaction mode db storeName resolve reject ;
       rest store)%se
    (opened_world f conns released dbName version)
  = (Normal tt, rejected_world f conns released dbName version mode storeName).
Proof.
  intros Hopen Hmiss.
  assert (Hc : contains (objectStoreNames
                 (objectStores (stored (after_open f dbName version) dbName)))
                 storeName = false).
  { rewrite (stored_after_open _ _ _ Hopen). simpl. by apply contains_false. }
  erewrite then_run.
  2:{ erewrite bind_run; [|by apply validate_missing].
      erewrite bind_throw; [done|]. by apply createTransaction_missing. }
  reflexivity.
Qed.

Lemma validating_call_missing (b : Bound) (op : Operation)
    (f : gmap string IDBDatabase) (conns : list string) (released : bool) :
  validates op = true ->
  opens f (b_dbName b) (b_version b) ->
  unblocked f conns (b_dbName b) (b_version b) ->
  b_store b ∉ objectStoreNames (objectStores (stored f (b_dbName b))) ->
  call b op (world f conns released)
  = (Normal tt,
     rejected_world f conns released (b_dbName b) (b_version b) (mode_of op)
       (b_store b)).
Proof.
  intros Hval Hopen Hfree Hmiss.
  destruct op; try discriminate Hval; simpl;
    match goal with
    | |- ?op_call _ = _ => unfold getByID, getAll, update, deleteRecord, clear,
                             openCursor, getByIndex
    end;
    (erewrite bind_run; [|by apply openDatabase_opens]);
    unfold createReadonlyTransaction, createReadwriteTransaction;
    by apply validated_callback_missing.
Qed.

(** C4. A read operation ([getAll], [getByID], [getByIndex],
    [openCursor]) on a store that the opened database does not have is
    rejected by the existence check of [validateBeforeTransaction], a call
    of [reject] and not an exception, before any transaction is asked
    for; the transaction the operation then asks for is refused by the
    database, so that none is started on that store. *)
Theorem read_of_missing_store_rejects (b : Bound) (op : Operation)
    (f : gmap string IDBDatabase) :
  let w := snd (call b op (fresh f)) in
  is_read op = true ->
  opens f (b_dbName b) (b_version b) ->
  b_store b ∉ objectStoreNames (objectStores (stored f (b_dbName b))) ->
  promise w = Rejected (ErrStoreMissing (b_store b)) /\
  error_message (ErrStoreMissing (b_store b))
    = Some ("objectStore does not exists: " +:+ b_store b) /\
  trace w = [OOpen (b_dbName b) (b_version b);
             OOpenSettled (Resolved (RHandle (handle (b_dbName b) (b_version b))));
             OValidate (b_store b);
             OSettled (Rejected (ErrStoreMissing (b_store b)));
             OTransaction readonly (b_store b);
             OUncaught (ErrEnv NotFoundError)] /\
  (forall mode s, OTxStarted mode s ∉ trace w).
Proof.
  intros w Hread Hopen Hmiss.
  assert (Hval : validates op = true) by (by destruct op).
  assert (Hw : w = rejected_world f [] false (b_dbName b) (b_version b)
                     readonly (b_store b)).
  { unfold w, fresh.
    rewrite (validating_call_missing b op f [] false Hval Hopen
               (unblocked_fresh _ _ _) Hmiss).
    unfold mode_of. by rewrite Hread. }
  rewrite Hw. simpl. split_and!; try done.
  intros mode s Hel.
  repeat (apply elem_of_cons in Hel as [Hel|Hel]; [discriminate Hel|]).
  by apply elem_of_nil in Hel.
Qed.

(** ** Code that only adds observations, none of them a validation *)

Lemma quiet_ret {A} (Q : A -> Prop) (a : A) : Q a -> quiet Q (ret a).
Proof.
  intros HQ w. exists []. simpl. rewrite app_nil_r.
  split_and!; [done|constructor|]. intros a' [= <-]. done.
Qed.

Lemma quiet_throw {A} (Q : A -> Prop) (e : Error) : quiet Q (throw e).
Proof.
  intros w. exists []. simpl. rewrite app_nil_r.
  split_and!; [done|constructor|]. intros a' [=].
Qed.

Lemma quiet_log (o : Obs) : not_validate o -> quiet any (log o).
Proof.
  intros Ho w. exists [o]. simpl. split_and!; [done|by constructor|done].
Qed.

Lemma quiet_get_factory : quiet any get_factory.
Proof.
  intros w. exists []. simpl. rewrite app_nil_r. split_and!; [done|constructor|done].
Qed.

Lemma quiet_set_factory (f : gmap string IDBDatabase) : quiet any (set_factory f).
Proof.
  intros w. exists []. simpl. rewrite app_nil_r. split_and!; [done|constructor|done].
Qed.

Lemma quiet_get_connections : quiet any get_connections.
Proof.
  intros w. exists []. simpl. rewrite app_nil_r. split_and!; [done|constructor|done].
Qed.

Lemma quiet_set_connections (l : list string) : quiet any (set_connections l).
Proof.
  intros w. exists []. simpl. rewrite app_nil_r. split_and!; [done|constructor|done].
Qed.

Lemma quiet_get_releases : quiet any get_releases.
Proof.
  intros w. exists []. simpl. rewrite app_nil_r. split_and!; [done|constructor|done].
Qed.

Lemma quiet_settle (p : Promise) : quiet any (settle p).
Proof.
  intros w. unfold settle. destruct (promise w); simpl.
  - exists [OSettled p]. split_and!; [done|by constructor|done].
  - exists []. rewrite app_nil_r. split_and!; [done|constructor|done].
  - exists []. rewrite app_nil_r. split_and!; [done|constructor|done].
Qed.

Lemma quiet_bind {A B} (Q : A -> Prop) (Q' : B -> Prop)
    (m : IO A) (k : A -> IO B) :
  quiet Q m -> (forall a, Q a -> quiet Q' (k a)) -> quiet Q' (bind m k).
Proof.
  intros Hm Hk w. destruct (Hm w) as (l1 & Ht1 & Hl1 & HQ).
  unfold bind. destruct (m w) as [[a|e] w1] eqn:Hrun; simpl in *.
  - destruct (Hk a (HQ a eq_refl) w1) as (l2 & Ht2 & Hl2 & HQ').
    exists (l1 ++ l2). rewrite Ht2, Ht1, <- app_assoc.
    split_and!; [done|by apply Forall_app|done].
  - exists l1. split_and!; [done|done|]. intros b [=].
Qed.

Lemma quiet_any {A} (Q : A -> Prop) (m : IO A) : quiet Q m -> quiet any m.
Proof.
  intros Hm w. destruct (Hm w) as (l & ? & ? & _). exists l. done.
Qed.

Lemma quiet_fire {A} (h : option (A -> IO unit)) (a : A) :
  (forall g, h = Some g -> quiet any (g a)) -> quiet any (fire h a).
Proof.
  intros Hh. destruct h as [g|]; simpl; [by apply Hh|by apply quiet_ret].
Qed.

Lemma quiet_read_store (tx : IDBTransaction) : quiet any (read_store tx).
Proof.
  unfold read_store. eapply quiet_bind; [apply quiet_get_factory|].
  intros f _. destruct (find_store _ _); [by apply quiet_ret|apply quiet_throw].
Qed.

Lemma quiet_commit (tx : IDBTransaction) (os : IDBObjectStore) :
  tame tx -> quiet any (commit tx os).
Proof.
  intros (Hc & _ & _). unfold commit.
  eapply quiet_bind; [apply quiet_get_factory|]. intros f _.
  eapply quiet_bind; [apply quiet_set_factory|]. intros _ _.
  eapply quiet_bind; [by apply quiet_log|]. intros _ _. apply Hc.
Qed.

Lemma quiet_run_request (tx : IDBTransaction) (rq : Request) (h : Handlers) :
  tame tx ->
  (forall g r, rq_onsuccess h = Some g -> quiet any (g r)) ->
  (forall g e, rq_onerror h = Some g -> quiet any (g e)) ->
  quiet any (run_request tx rq h).
Proof.
  intros Htx Hs He. unfold run_request.
  eapply quiet_bind; [by apply quiet_log|]. intros _ _.
  eapply quiet_bind; [apply quiet_read_store|]. intros os _.
  destruct (exec_request rq os) as [[e|r] os'].
  - eapply quiet_bind; [by apply quiet_log|]. intros _ _.
    eapply quiet_bind; [apply quiet_fire; intros g Hg; by eapply He|].
    intros _ _. destruct Htx as (_ & Herr & Hab).
    eapply quiet_bind; [apply Herr|]. intros _ _.
    eapply quiet_bind; [by apply quiet_log|]. intros _ _. apply Hab.
  - eapply quiet_bind; [by apply quiet_log|]. intros _ _.
    eapply quiet_bind; [apply quiet_fire; intros g Hg; by eapply Hs|].
    intros _ _. by apply quiet_commit.
Qed.

Lemma quiet_cursor_events (entries : list (Key * Value))
    (onsuccess : option (Key * Value) -> IO CursorAction) :
  (forall entry, quiet any (onsuccess entry)) ->
  quiet any (cursor_events entries onsuccess).
Proof.
  intros Hh. induction entries as [|entry rest IH]; simpl.
  - eapply quiet_bind; [apply Hh|]. intros _ _. by apply quiet_ret.
  - eapply quiet_bind; [apply Hh|]. intros [] _; [done|by apply quiet_ret].
Qed.

Lemma quiet_run_cursor (tx : IDBTransaction) (keyRange : option (Key * Key))
    (onsuccess : option (Key * Value) -> IO CursorAction) :
  tame tx -> (forall entry, quiet any (onsuccess entry)) ->
  quiet any (run_cursor tx keyRange onsuccess).
Proof.
  intros Htx Hh. unfold run_cursor.
  eapply quiet_bind; [by apply quiet_log|]. intros _ _.
  eapply quiet_bind; [apply quiet_read_store|]. intros os _.
  eapply quiet_bind; [by apply quiet_cursor_events|]. intros _ _.
  by apply quiet_commit.
Qed.

Lemma quiet_active (tx : IDBTransaction) (rest : IO unit) :
  tame tx -> quiet any rest -> quiet any (active tx rest).
Proof.
  intros (Hc & _ & _) Hrest w. destruct (Hrest w) as (l & Ht & Hl & _).
  unfold active. unfold bind at 1. unfold try_.
  destruct (rest w) as [[[]|e] w1]; simpl in *.
  - exists l. done.
  - assert (Hq : quiet any (log (OUncaught e) ;; log OComplete ;;
                            oncomplete tx REvent)%se).
    { eapply quiet_bind; [by apply quiet_log|]. intros _ _.
      eapply quiet_bind; [by apply quiet_log|]. intros _ _. apply Hc. }
    destruct (Hq w1) as (l2 & Ht2 & Hl2 & _).
    exists (l ++ l2). rewrite Ht2, Ht, <- app_assoc.
    split_and!; [done|by apply Forall_app|done].
Qed.

Lemma quiet_createTransaction (mode : DBMode) (db : IDBHandle)
    (storeName : string) :
  quiet tame (createTransaction mode db storeName resolve reject).
Proof.
  unfold createTransaction, transaction.
  eapply quiet_bind with (Q := any).
  - eapply quiet_bind; [by apply quiet_log|]. intros _ _.
    eapply quiet_bind.
    { unfold db_objectStoreNames. eapply quiet_bind; [apply quiet_get_factory|].
      intros f _. by apply (quiet_ret any). }
    intros names _. destruct (contains names storeName); [|apply quiet_throw].
    eapply quiet_bind; [by apply quiet_log|]. intros _ _. by apply quiet_ret.
  - intros tx _. apply quiet_ret. unfold tame. simpl.
    split_and!; intros; apply quiet_settle.
Qed.

Lemma tame_set_oncomplete (tx : IDBTransaction) (h : JSResult -> IO unit) :
  tame tx -> (forall r, quiet any (h r)) -> tame (set_oncomplete tx h).
Proof. intros (_ & He & Ha) Hh. unfold tame. simpl. done. Qed.

Lemma quiet_store_write (mk : Value -> option Key -> Request)
    (tx : IDBTransaction) (value : Value) (key : option Key) :
  quiet any (store_write mk tx value key).
Proof.
  unfold store_write. eapply quiet_bind; [apply quiet_read_store|].
  intros os _. destruct (call_key os value key) as [given|e];
    [by apply quiet_ret|apply quiet_throw].
Qed.

Lemma quiet_store_index (tx : IDBTransaction) (indexName : string) :
  quiet any (store_index tx indexName).
Proof.
  unfold store_index. eapply quiet_bind; [apply quiet_read_store|].
  intros os _. destruct (find _ _); [by apply quiet_ret|apply quiet_throw].
Qed.

Lemma quiet_then (opened : Opened) (callback : IDBHandle -> IO unit) :
  (forall db, quiet any (callback db)) -> quiet any (then_ opened callback).
Proof.
  intros Hc. destruct opened as [db|e|]; simpl;
    [|by apply quiet_ret|by apply quiet_ret].
  intros w. destruct (Hc db w) as (l & Ht & Hl & _).
  unfold bind, try_. destruct (callback db w) as [[[]|e] w1]; simpl in *.
  - exists l. done.
  - exists (l ++ [OUncaught e]). rewrite Ht, <- app_assoc.
    split_and!; [done| |done]. apply Forall_app. split; [done|by constructor].
Qed.

Lemma quiet_await (dbName : string) (event : IDBVersionChangeEvent) :
  quiet any (await_versionchange dbName event None).
Proof.
  unfold await_versionchange.
  eapply quiet_bind; [apply quiet_get_connections|]. intros conns _.
  destruct (contains conns dbName); [|by apply quiet_ret].
  eapply quiet_bind; [by apply quiet_log|]. intros _ _.
  eapply quiet_bind; [by apply (quiet_ret any)|]. intros _ _.
  eapply quiet_bind; [apply quiet_get_releases|]. intros [] _;
    [|by apply quiet_ret].
  eapply quiet_bind; [apply quiet_set_connections|]. intros _ _.
  by apply quiet_ret.
Qed.

Lemma quiet_openDatabase (dbName : string) (version : Z) :
  quiet any (openDatabase dbName version None).
Proof.
  unfold openDatabase.
  eapply quiet_bind; [by apply quiet_log|]. intros _ _.
  eapply quiet_bind; [apply quiet_get_factory|]. intros f _.
  assert (Hs : forall o, quiet any (settle_open o)).
  { intros o. unfold settle_open. eapply quiet_bind; [by apply quiet_log|].
    intros _ _. by apply quiet_ret. }
  assert (Hc : quiet any (connect dbName)).
  { unfold connect. eapply quiet_bind; [apply quiet_get_connections|].
    intros conns _. apply quiet_set_connections. }
  destruct (classify_open _ _); try apply Hs.
  - eapply quiet_bind; [apply quiet_await|]. intros [] _;
      [|by apply quiet_ret].
    eapply quiet_bind.
    { unfold commit_upgrade. eapply quiet_bind; [apply quiet_get_factory|].
      intros f' _. apply quiet_set_factory. }
    intros _ _. eapply quiet_bind; [apply Hc|]. intros _ _. apply Hs.
Qed.

Lemma contains_after_open (f : gmap string IDBDatabase) (dbName : string)
    (version : Z) (storeName : string) :
  opens f dbName version ->
  contains (objectStoreNames
              (objectStores (stored (after_open f dbName version) dbName)))
           storeName
  = contains (objectStoreNames (objectStores (stored f dbName))) storeName.
Proof. intros Hopen. by rewrite (stored_after_open _ _ _ Hopen). Qed.

Lemma then_trace (db : IDBHandle) (callback : IDBHandle -> IO unit) (w : World) :
  exists l,
    trace (snd (then_ (Fulfilled db) callback w))
    = trace (snd (callback db w)) ++ l /\ Forall not_validate l.
Proof.
  unfold then_, bind, try_. destruct (callback db w) as [[[]|e] w1]; simpl.
  - exists []. by rewrite app_nil_r.
  - exists [OUncaught e]. split; [done|by constructor].
Qed.

(** An operation that validates, on a store the database has: the
    validation is what it does first, and it validates once. *)
Lemma then_validated_present (f : gmap string IDBDatabase) (dbName : string)
    (version : Z) (storeName : string) (rest : IDBHandle -> IO unit) :
  opens f dbName version ->
  storeName ∈ objectStoreNames (objectStores (stored f dbName)) ->
  (forall db, quiet any (rest db)) ->
  exists l,
    trace (snd (then_ (Fulfilled (handle dbName version))
                  (fun db => validateBeforeTransaction db storeName reject ;;
                             rest db)%se
                  (opened_world f [] false dbName version)))
    = [OOpen dbName version;
       OOpenSettled (Resolved (RHandle (handle dbName version)));
       OValidate storeName] ++ l /\
    Forall not_validate l.
Proof.
  intros Hopen Hin Hrest.
  destruct (then_trace (handle dbName version)
              (fun db => validateBeforeTransaction db storeName reject ;;
                         rest db)%se
              (opened_world f [] false dbName version)) as (l2 & -> & Hl2).
  erewrite bind_run.
  2:{ apply validate_present. simpl. rewrite (contains_after_open _ _ _ _ Hopen).
      by apply contains_true. }
  destruct (Hrest (handle dbName version)
              (observe (opened_world f [] false dbName version)
                 [OValidate storeName]))
    as (l1 & -> & Hl1 & _).
  exists (l1 ++ l2). split; [|by apply Forall_app].
  simpl. by rewrite <- ?app_assoc.
Qed.

Lemma quiet_resolve (r : JSResult) : quiet any (resolve r).
Proof. apply quiet_settle. Qed.

Lemma quiet_reject (e : Error) : quiet any (reject e).
Proof. apply quiet_settle. Qed.

Lemma validating_call_present (b : Bound) (op : Operation)
    (f : gmap string IDBDatabase) :
  validates op = true ->
  opens f (b_dbName b) (b_version b) ->
  b_store b ∈ objectStoreNames (objectStores (stored f (b_dbName b))) ->
  exists l,
    trace (snd (call b op (fresh f)))
    = [OOpen (b_dbName b) (b_version b);
       OOpenSettled (Resolved (RHandle (handle (b_dbName b) (b_version b))));
       OValidate (b_store b)] ++ l /\
    Forall not_validate l.
Proof.
  intros Hval Hopen Hin. unfold fresh.
  destruct op; try discriminate Hval; simpl;
    unfold getByID, getAll, update, deleteRecord, clear, openCursor, getByIndex;
    (erewrite bind_run;
       [|by apply openDatabase_opens, unblocked_fresh]);
    unfold createReadonlyTransaction, createReadwriteTransaction;
    (apply then_validated_present; [done|done|]);
    intros db;
    (eapply quiet_bind; [apply quiet_createTransaction|]);
    intros tx Htx; cbv zeta.
  - (* getByID *)
    apply quiet_active; [done|].
    apply quiet_run_request; [done| |]; simpl; intros g ? [= <-].
    apply quiet_resolve.
  - (* getAll *)
    apply quiet_active; [done|].
    apply quiet_run_request; [done| |]; simpl; intros g ? [= <-].
    + apply quiet_resolve.
    + apply quiet_reject.
  - (* update *)
    assert (Htame : tame (set_oncomplete tx (fun event => resolve event))).
    { apply tame_set_oncomplete; [done|]. intros r. apply quiet_resolve. }
    apply quiet_active; [done|].
    eapply quiet_bind; [apply quiet_store_write|]. intros rq _.
    apply quiet_run_request; [done|simpl; intros g ? [=]..].
  - (* deleteRecord *)
    apply quiet_active; [done|].
    apply quiet_run_request; [done| |]; simpl; intros g ? [= <-].
    apply quiet_resolve.
  - (* clear *)
    assert (Htame : tame (set_oncomplete tx (fun _ => resolve RUndefined))).
    { apply tame_set_oncomplete; [done|]. intros r. apply quiet_resolve. }
    apply quiet_active; [done|].
    apply quiet_run_request; [done|simpl; intros g ? [=]..].
  - (* openCursor *)
    apply quiet_active; [done|].
    apply quiet_run_cursor; [done|]. intros entry.
    eapply quiet_bind; [by apply quiet_log|]. intros _ _.
    eapply quiet_bind; [apply quiet_resolve|]. intros _ _. by apply quiet_ret.
  - (* getByIndex *)
    apply quiet_active; [done|].
    eapply quiet_bind; [apply quiet_store_index|]. intros ix _.
    apply quiet_run_request; [done| |]; simpl; intros g ? [= <-].
    apply quiet_resolve.
Qed.

(** [add] goes straight to its transaction. *)
Lemma add_trace (dbName : string) (version : Z) (currentStore : string)
    (value : Value) (key : option Key) (f : gmap string IDBDatabase) :
  opens f dbName version ->
  exists l,
    trace (snd (add dbName version currentStore value key (fresh f)))
    = [OOpen dbName version;
       OOpenSettled (Resolved (RHandle (handle dbName version)));
       OTransaction readwrite currentStore] ++ l /\
    Forall not_validate l.
Proof.
  intros Hopen. unfold add, fresh.
  erewrite bind_run; [|by apply openDatabase_opens, unblocked_fresh].
  unfold createReadwriteTransaction.
  match goal with
  | |- context [then_ ?o ?cb ?w] => destruct (then_trace (handle dbName version) cb w)
                                      as (l2 & -> & Hl2)
  end.
  destruct (contains (objectStoreNames (objectStores (stored f dbName)))
              currentStore) eqn:Hc.
  - erewrite bind_run.
    2:{ apply createTransaction_present. simpl.
        by rewrite (contains_after_open _ _ _ _ Hopen). }
    match goal with
    | |- context [snd (?k ?w)] =>
        assert (Hq : quiet any k)
    end.
    { apply quiet_active.
      { unfold tame. simpl. split_and!; intros; apply quiet_settle. }
      eapply quiet_bind; [apply quiet_store_write|]. intros rq _.
      apply quiet_run_request.
      - unfold tame. simpl. split_and!; intros; apply quiet_settle.
      - simpl. intros g ? [= <-]. apply quiet_resolve.
      - simpl. intros g ? [= <-]. apply quiet_reject. }
    destruct (Hq (observe (opened_world f [] false dbName version)
                    [OTransaction readwrite currentStore;
                     OTxStarted readwrite currentStore]))
      as (l1 & -> & Hl1 & _).
    exists (OTxStarted readwrite currentStore :: l1 ++ l2).
    split; [simpl; by rewrite <- ?app_assoc|].
    constructor; [done|by apply Forall_app].
  - erewrite bind_throw.
    2:{ apply createTransaction_missing. simpl.
        by rewrite (contains_after_open _ _ _ _ Hopen). }
    exists l2. done.
Qed.

Lemma add_missing (dbName : string) (version : Z) (currentStore : string)
    (value : Value) (key : option Key) (f : gmap string IDBDatabase) :
  opens f dbName version ->
  currentStore ∉ objectStoreNames (objectStores (stored f dbName)) ->
  add dbName version currentStore value key (fresh f)
  = (Normal tt,
     observe (opened_world f [] false dbName version)
       [OTransaction readwrite currentStore; OUncaught (ErrEnv NotFoundError)]).
Proof.
  intros Hopen Hmiss. unfold add, fresh.
  erewrite bind_run; [|by apply openDatabase_opens, unblocked_fresh].
  erewrite then_run.
  2:{ erewrite bind_throw; [done|].
      apply createTransaction_missing. simpl.
      rewrite (contains_after_open _ _ _ _ Hopen). by apply contains_false. }
  reflexivity.
Qed.

(** C10. [add] is the one operation that does not validate: once the
    database is open it asks for its read-write transaction at once, and
    no validation shows in what it does (on a store the database does not
    have, its promise is then never settled); each of the seven others
    validates the store first, once, before anything else. *)
Theorem add_alone_skips_validation (b : Bound) (op : Operation)
    (f : gmap string IDBDatabase) :
  let w := snd (call b op (fresh f)) in
  let opened := [OOpen (b_dbName b) (b_version b);
                 OOpenSettled
                   (Resolved (RHandle (handle (b_dbName b) (b_version b))))] in
  opens f (b_dbName b) (b_version b) ->
  match op with
  | OpAdd _ _ =>
      (exists l, trace w = opened ++ [OTransaction readwrite (b_store b)] ++ l /\
                 Forall not_validate l) /\
      (b_store b ∉ objectStoreNames (objectStores (stored f (b_dbName b))) ->
       promise w = Pending)
  | _ =>
      exists l, trace w = opened ++ [OValidate (b_store b)] ++ l /\
                Forall not_validate l
  end.
Proof.
  intros w opened Hopen.
  assert (Hothers : validates op = true ->
            exists l, trace w = opened ++ [OValidate (b_store b)] ++ l /\
                      Forall not_validate l).
  { intros Hval.
    destruct (decide (b_store b ∈
                objectStoreNames (objectStores (stored f (b_dbName b)))))
      as [Hin|Hmiss].
    - by apply validating_call_present.
    - unfold w, fresh.
      rewrite (validating_call_missing b op f [] false Hval Hopen
                 (unblocked_fresh _ _ _) Hmiss).
      simpl. eexists. split; [reflexivity|].
      repeat constructor. }
  destruct op; try (by apply Hothers).
  split.
  - unfold w. simpl. by apply add_trace.
  - intros Hmiss. unfold w. simpl. by rewrite add_missing.
Qed.

(** ** The operations on a store the database has *)

Arguments call_key : simpl never.
Arguments assign_key : simpl never.
Arguments store_record : simpl never.
Arguments violates_unique : simpl never.

Lemma find_store_Some (s : string) (db : list IDBObjectStore)
    (os : IDBObjectStore) :
  find_store s db = Some os -> os_name os = s /\ s ∈ objectStoreNames db.
Proof.
  induction db as [|o db IH]; simpl; [done|].
  destruct (String.eqb_spec (os_name o) s) as [E|E].
  - intros [= <-]. split; [done|]. rewrite <- E. apply list_elem_of_here.
  - intros H. destruct (IH H) as [? ?]. split; [done|].
    by apply list_elem_of_further.
Qed.

Lemma find_replace_store (s : string) (db : list IDBObjectStore)
    (os os' : IDBObjectStore) :
  find_store s db = Some os -> os_name os' = s ->
  find_store s (replace_store os' db) = Some os'.
Proof.
  intros Hf Hn. induction db as [|o db IH]; simpl in *; [done|].
  rewrite Hn. destruct (String.eqb_spec (os_name o) s) as [E|E]; simpl.
  - rewrite Hn. by rewrite String.eqb_refl.
  - destruct (String.eqb_spec (os_name o) s); [done|]. by apply IH.
Qed.

Lemma get_delete_same (k : Key) (l : list (Key * Value)) :
  get_record k (delete_record k l) = None.
Proof.
  induction l as [|[k' v'] l IH]; simpl; [done|].
  destruct (key_eqb k k') eqn:E; simpl; [done|]. by rewrite E.
Qed.

Lemma get_delete_other (k0 k : Key) (l : list (Key * Value)) :
  k0 <> k -> get_record k0 (delete_record k l) = get_record k0 l.
Proof.
  intros Hne. apply key_eqb_neq in Hne.
  induction l as [|[k' v'] l IH]; simpl; [done|].
  destruct (key_eqb k k') eqn:E; simpl.
  - apply key_eqb_eq in E. subst k'. by rewrite Hne.
  - by rewrite IH.
Qed.

Lemma replace_store_same (s : string) (db : list IDBObjectStore)
    (os : IDBObjectStore) :
  find_store s db = Some os -> replace_store os db = db.
Proof.
  induction db as [|o db IH]; simpl; [done|].
  destruct (String.eqb_spec (os_name o) s) as [E|E].
  - intros [= ->]. by rewrite String.eqb_refl.
  - intros H. destruct (find_store_Some _ _ _ H) as [Hn _].
    rewrite Hn. destruct (String.eqb_spec (os_name o) s); [done|].
    f_equal. by apply IH.
Qed.

Lemma stored_committed (f : gmap string IDBDatabase) (dbName : string)
    (version : Z) (os' : IDBObjectStore) :
  stored (committed f dbName version os') dbName
  = {| db_version := version;
       objectStores := replace_store os' (objectStores (stored f dbName)) |}.
Proof. unfold committed. by rewrite stored_insert. Qed.

Lemma opens_committed (f : gmap string IDBDatabase) (dbName : string)
    (version : Z) (os' : IDBObjectStore) :
  opens f dbName version -> opens (committed f dbName version os') dbName version.
Proof.
  intros [H0 _]. split; [done|]. rewrite stored_committed. simpl. lia.
Qed.

Lemma find_committed (f : gmap string IDBDatabase) (dbName : string)
    (version : Z) (s : string) (os os' : IDBObjectStore) :
  find_store s (objectStores (stored f dbName)) = Some os ->
  os_name os' = os_name os ->
  find_store s (objectStores (stored (committed f dbName version os') dbName))
  = Some os'.
Proof.
  intros Hfind Hn. rewrite stored_committed. simpl.
  apply (find_replace_store _ _ os); [done|].
  rewrite Hn. by apply (find_store_Some _ _ _ Hfind).
Qed.

Lemma opens_after_open (f : gmap string IDBDatabase) (dbName : string)
    (version : Z) :
  opens f dbName version -> opens (after_open f dbName version) dbName version.
Proof.
  intros Hopen. destruct Hopen as [H0 H1]. split; [done|].
  rewrite (stored_after_open f dbName version (conj H0 H1)). simpl. lia.
Qed.

(** An open request that changes no version is not blocked. *)
Lemma unblocked_same (f : gmap string IDBDatabase) (conns : list string)
    (dbName : string) (version : Z) :
  db_version (stored f dbName) = version -> unblocked f conns dbName version.
Proof. by left. Qed.

(** The key of a record, in the two steps of the call and the request. *)
Lemma store_key_Normal (os : IDBObjectStore) (value : Value)
    (key : option Key) (k : Key) (v : Value) (g : Z) :
  store_key os value key = Normal (k, v, g) ->
  exists given,
    call_key os value key = Normal given /\
    assign_key os value given = inr (k, v, g).
Proof.
  unfold store_key. destruct (call_key os value key) as [given|e]; [|done].
  destruct (assign_key os value given) as [e|r] eqn:Ha; [done|].
  intros [= ->]. by exists given.
Qed.

Lemma store_key_Throw (os : IDBObjectStore) (value : Value)
    (key : option Key) (e : Error) :
  call_key os value key = Throw e -> store_key os value key = Throw e.
Proof. intros H. unfold store_key. by rewrite H. Qed.

Lemma store_record_stores (no_overwrite : bool) (os : IDBObjectStore)
    (value : Value) (given : option Key) (k : Key) (v : Value) (g : Z) :
  assign_key os value given = inr (k, v, g) ->
  (no_overwrite = true -> get_record k (os_records os) = None) ->
  violates_unique os k v = false ->
  store_record no_overwrite os value given
  = (inr (RKey k), set_records os g (put_record k v (os_records os))).
Proof.
  intros Ha Hnew Hu. unfold store_record. rewrite Ha, Hu.
  destruct no_overwrite; [|done]. rewrite (Hnew eq_refl). done.
Qed.

Lemma store_record_duplicate (os : IDBObjectStore)
    (value : Value) (given : option Key) (k : Key) (v old : Value) (g : Z) :
  assign_key os value given = inr (k, v, g) ->
  get_record k (os_records os) = Some old ->
  store_record true os value given = (inl ConstraintError, os).
Proof.
  intros Ha Hold. unfold store_record. rewrite Ha, Hold. done.
Qed.

Lemma store_record_clash (no_overwrite : bool) (os : IDBObjectStore)
    (value : Value) (given : option Key) (k : Key) (v : Value) (g : Z) :
  assign_key os value given = inr (k, v, g) ->
  violates_unique os k v = true ->
  store_record no_overwrite os value given = (inl ConstraintError, os).
Proof.
  intros Ha Hu. unfold store_record. rewrite Ha, Hu.
  by destruct (no_overwrite && _).
Qed.

Section OnPresentStore.
Variables (f : gmap string IDBDatabase) (conns : list string) (released : bool).
Variables (dbName : string) (version : Z).
Variables (currentStore : string) (os : IDBObjectStore).
Hypothesis Hopen : opens f dbName version.
Hypothesis Hfree : unblocked f conns dbName version.
Hypothesis Hfind :
  find_store currentStore (objectStores (stored f dbName)) = Some os.

Lemma present_contains (w : World) :
  factory w = after_open f dbName version ->
  contains (objectStoreNames
              (objectStores (stored (factory w) (h_name (handle dbName version)))))
           currentStore = true.
Proof.
  intros ->. simpl. rewrite (contains_after_open _ _ _ _ Hopen).
  apply contains_true. by apply (find_store_Some _ _ os).
Qed.

Lemma present_find :
  find_store currentStore
    (objectStores (stored (after_open f dbName version) dbName)) = Some os.
Proof. by rewrite (stored_after_open _ _ _ Hopen). Qed.

Lemma update_run (value : Value) (key given : option Key)
    (k : Key) (v : Value) (g : Z) :
  call_key os value key = Normal given ->
  assign_key os value given = inr (k, v, g) ->
  violates_unique os k v = false ->
  update dbName version currentStore value key (world f conns released)
  = (Normal tt,
     finished (committed f dbName version
                 (set_records os g (put_record k v (os_records os))))
       conns released dbName (Resolved REvent)
       (started dbName version readwrite currentStore
        ++ [ORequest (ReqPut value given); ORequestSuccess (RKey k);
            OComplete; OSettled (Resolved REvent)])).
Proof.
  intros Hkey Hassign Hu. unfold update.
  erewrite bind_run; [|by apply openDatabase_opens].
  erewrite then_run.
  2:{ erewrite bind_run; [|by apply validate_present, present_contains].
      unfold createReadwriteTransaction.
      erewrite bind_run; [|by apply createTransaction_present, present_contains].
      cbv zeta. apply active_run.
      unfold store_write, run_request, read_store, commit, bind, log,
        get_factory, set_factory, fire, ret, throw. simpl.
      rewrite present_find, Hkey. simpl. rewrite present_find. simpl.
      rewrite (store_record_stores false os value given k v g Hassign); [|done..].
      simpl. unfold resolve, settle. simpl. reflexivity. }
  simpl. unfold committed, finished. rewrite (stored_after_open _ _ _ Hopen).
  done.
Qed.

(** [put] refuses the key: it throws, and the transaction completes with
    nothing written. *)
Lemma update_refused (value : Value) (key : option Key) (e : Error) :
  call_key os value key = Throw e ->
  update dbName version currentStore value key (world f conns released)
  = (Normal tt,
     finished (after_open f dbName version) conns released dbName
       (Resolved REvent)
       (started dbName version readwrite currentStore
        ++ [OUncaught e; OComplete; OSettled (Resolved REvent)])).
Proof.
  intros Hkey. unfold update.
  erewrite bind_run; [|by apply openDatabase_opens].
  erewrite then_run.
  2:{ erewrite bind_run; [|by apply validate_present, present_contains].
      unfold createReadwriteTransaction.
      erewrite bind_run; [|by apply createTransaction_present, present_contains].
      cbv zeta. erewrite active_throw.
      2:{ unfold store_write, read_store, bind, get_factory, ret, throw. simpl.
          rewrite present_find, Hkey. reflexivity. }
      unfold bind, log, resolve, settle. simpl. reflexivity. }
  done.
Qed.

(** The put request fails on a unique index: the error reaches the
    transaction, which is aborted. *)
Lemma update_clash (value : Value) (key given : option Key)
    (k : Key) (v : Value) (g : Z) :
  call_key os value key = Normal given ->
  assign_key os value given = inr (k, v, g) ->
  violates_unique os k v = true ->
  update dbName version currentStore value key (world f conns released)
  = (Normal tt,
     finished (after_open f dbName version) conns released dbName
       (Rejected (ErrEnv ConstraintError))
       (started dbName version readwrite currentStore
        ++ [ORequest (ReqPut value given); ORequestError ConstraintError;
            OSettled (Rejected (ErrEnv ConstraintError)); OAbort])).
Proof.
  intros Hkey Hassign Hu. unfold update.
  erewrite bind_run; [|by apply openDatabase_opens].
  erewrite then_run.
  2:{ erewrite bind_run; [|by apply validate_present, present_contains].
      unfold createReadwriteTransaction.
      erewrite bind_run; [|by apply createTransaction_present, present_contains].
      cbv zeta. apply active_run.
      unfold store_write, run_request, read_store, commit, bind, log,
        get_factory, set_factory, fire, ret, throw. simpl.
      rewrite present_find, Hkey. simpl. rewrite present_find. simpl.
      rewrite (store_record_clash false os value given k v g Hassign Hu).
      simpl. unfold reject, settle. simpl. reflexivity. }
  done.
Qed.

Lemma getByID_run (id : Key) :
  getByID dbName version currentStore id (world f conns released)
  = (Normal tt,
     finished (committed f dbName version os) conns released dbName
       (Resolved (RValue (get_record id (os_records os))))
       (started dbName version readonly currentStore
        ++ [ORequest (ReqGet id);
            ORequestSuccess (RValue (get_record id (os_records os)));
            OSettled (Resolved (RValue (get_record id (os_records os))));
            OComplete])).
Proof.
  unfold getByID.
  erewrite bind_run; [|by apply openDatabase_opens].
  erewrite then_run.
  2:{ erewrite bind_run; [|by apply validate_present, present_contains].
      unfold createReadonlyTransaction.
      erewrite bind_run; [|by apply createTransaction_present, present_contains].
      cbv zeta. apply active_run.
      unfold run_request, read_store, commit, bind, log,
        get_factory, set_factory, fire, ret, throw. simpl.
      rewrite present_find. simpl.
      unfold resolve, settle. simpl. reflexivity. }
  simpl. unfold committed, finished. rewrite (stored_after_open _ _ _ Hopen).
  done.
Qed.

Lemma getAll_run :
  getAll dbName version currentStore (world f conns released)
  = (Normal tt,
     finished (committed f dbName version os) conns released dbName
       (Resolved (RValues (map snd (os_records os))))
       (started dbName version readonly currentStore
        ++ [ORequest ReqGetAll;
            ORequestSuccess (RValues (map snd (os_records os)));
            OSettled (Resolved (RValues (map snd (os_records os))));
            OComplete])).
Proof.
  unfold getAll.
  erewrite bind_run; [|by apply openDatabase_opens].
  erewrite then_run.
  2:{ erewrite bind_run; [|by eapply validate_present, present_contains].
      unfold createReadonlyTransaction.
      erewrite bind_run;
        [|by eapply createTransaction_present, present_contains].
      cbv zeta. apply active_run.
      unfold run_request, read_store, commit, bind, log,
        get_factory, set_factory, fire, ret, throw. simpl.
      rewrite present_find.
      simpl. unfold resolve, settle. simpl. reflexivity. }
  simpl. unfold committed, finished. rewrite (stored_after_open _ _ _ Hopen).
  done.
Qed.

Lemma add_run (value : Value) (key given : option Key)
    (k : Key) (v : Value) (g : Z) :
  call_key os value key = Normal given ->
  assign_key os value given = inr (k, v, g) ->
  get_record k (os_records os) = None ->
  violates_unique os k v = false ->
  add dbName version currentStore value key (world f conns released)
  = (Normal tt,
     finished (committed f dbName version
                 (set_records os g (put_record k v (os_records os))))
       conns released dbName (Resolved (RKey k))
       (started_add dbName version currentStore
        ++ [ORequest (ReqAdd value given); ORequestSuccess (RKey k);
            OSettled (Resolved (RKey k)); OComplete])).
Proof.
  intros Hkey Hassign Hnew Hu. unfold add.
  erewrite bind_run; [|by apply openDatabase_opens].
  erewrite then_run.
  2:{ unfold createReadwriteTransaction.
      erewrite bind_run;
        [|by eapply createTransaction_present, present_contains].
      apply active_run.
      unfold store_write, run_request, read_store, commit, bind, log,
        get_factory, set_factory, fire, ret, throw. simpl.
      rewrite present_find, Hkey. simpl. rewrite present_find. simpl.
      rewrite (store_record_stores true os value given k v g Hassign); [|done..].
      simpl. unfold resolve, settle. simpl. reflexivity. }
  simpl. unfold committed, finished. rewrite (stored_after_open _ _ _ Hopen).
  done.
Qed.

Lemma add_run_duplicate (value : Value) (key given : option Key)
    (k : Key) (v old : Value) (g : Z) :
  call_key os value key = Normal given ->
  assign_key os value given = inr (k, v, g) ->
  get_record k (os_records os) = Some old ->
  add dbName version currentStore value key (world f conns released)
  = (Normal tt,
     finished (after_open f dbName version) conns released dbName
       (Rejected (ErrEnv ConstraintError))
       (started_add dbName version currentStore
        ++ [ORequest (ReqAdd value given); ORequestError ConstraintError;
            OSettled (Rejected (ErrEnv ConstraintError)); OAbort])).
Proof.
  intros Hkey Hassign Hold. unfold add.
  erewrite bind_run; [|by apply openDatabase_opens].
  erewrite then_run.
  2:{ unfold createReadwriteTransaction.
      erewrite bind_run;
        [|by eapply createTransaction_present, present_contains].
      apply active_run.
      unfold store_write, run_request, read_store, commit, bind, log,
        get_factory, set_factory, fire, ret, throw. simpl.
      rewrite present_find, Hkey. simpl. rewrite present_find. simpl.
      rewrite (store_record_duplicate os value given k v old g Hassign Hold).
      simpl. unfold reject, settle. simpl. reflexivity. }
  done.
Qed.

(** The add request fails on a unique index. *)
Lemma add_run_clash (value : Value) (key given : option Key)
    (k : Key) (v : Value) (g : Z) :
  call_key os value key = Normal given ->
  assign_key os value given = inr (k, v, g) ->
  violates_unique os k v = true ->
  add dbName version currentStore value key (world f conns released)
  = (Normal tt,
     finished (after_open f dbName version) conns released dbName
       (Rejected (ErrEnv ConstraintError))
       (started_add dbName version currentStore
        ++ [ORequest (ReqAdd value given); ORequestError ConstraintError;
            OSettled (Rejected (ErrEnv ConstraintError)); OAbort])).
Proof.
  intros Hkey Hassign Hu. unfold add.
  erewrite bind_run; [|by apply openDatabase_opens].
  erewrite then_run.
  2:{ unfold createReadwriteTransaction.
      erewrite bind_run;
        [|by eapply createTransaction_present, present_contains].
      apply active_run.
      unfold store_write, run_request, read_store, commit, bind, log,
        get_factory, set_factory, fire, ret, throw. simpl.
      rewrite present_find, Hkey. simpl. rewrite present_find. simpl.
      rewrite (store_record_clash true os value given k v g Hassign Hu).
      simpl. unfold reject, settle. simpl. reflexivity. }
  done.
Qed.

Lemma deleteRecord_run (key : Key) :
  deleteRecord dbName version currentStore key (world f conns released)
  = (Normal tt,
     finished (committed f dbName version
                 (set_records os (os_keygen os)
                    (delete_record key (os_records os))))
       conns released dbName (Resolved REvent)
       (started dbName version readwrite currentStore
        ++ [ORequest (ReqDelete key); ORequestSuccess RUndefined;
            OSettled (Resolved REvent); OComplete])).
Proof.
  unfold deleteRecord.
  erewrite bind_run; [|by apply openDatabase_opens].
  erewrite then_run.
  2:{ erewrite bind_run; [|by eapply validate_present, present_contains].
      unfold createReadwriteTransaction.
      erewrite bind_run;
        [|by eapply createTransaction_present, present_contains].
      cbv zeta. apply active_run.
      unfold run_request, read_store, commit, bind, log,
        get_factory, set_factory, fire, ret, throw. simpl.
      rewrite present_find.
      simpl. unfold resolve, settle. simpl. reflexivity. }
  simpl. unfold committed, finished. rewrite (stored_after_open _ _ _ Hopen).
  done.
Qed.

Lemma clear_run :
  clear dbName version currentStore (world f conns released)
  = (Normal tt,
     finished (committed f dbName version (set_records os (os_keygen os) []))
       conns released dbName (Resolved RUndefined)
       (started dbName version readwrite currentStore
        ++ [ORequest ReqClear; ORequestSuccess RUndefined;
            OComplete; OSettled (Resolved RUndefined)])).
Proof.
  unfold clear.
  erewrite bind_run; [|by apply openDatabase_opens].
  erewrite then_run.
  2:{ erewrite bind_run; [|by eapply validate_present, present_contains].
      unfold createReadwriteTransaction.
      erewrite bind_run;
        [|by eapply createTransaction_present, present_contains].
      cbv zeta. apply active_run.
      unfold run_request, read_store, commit, bind, log,
        get_factory, set_factory, fire, ret, throw. simpl.
      rewrite present_find.
      simpl. unfold resolve, settle. simpl. reflexivity. }
  simpl. unfold committed, finished. rewrite (stored_after_open _ _ _ Hopen).
  done.
Qed.

Lemma getByIndex_run (indexName : string) (key : Key) (ix : ObjectStoreSchema) :
  find (fun ix => String.eqb (name ix) indexName) (os_indexes os) = Some ix ->
  exists r,
    getByIndex dbName version currentStore indexName key
      (world f conns released)
    = (Normal tt,
       finished (committed f dbName version os) conns released dbName
         (Resolved r)
         (started dbName version readonly currentStore
          ++ [ORequest (ReqIndexGet ix key); ORequestSuccess r;
              OSettled (Resolved r); OComplete])).
Proof.
  intros Hix. eexists. unfold getByIndex.
  erewrite bind_run; [|by apply openDatabase_opens].
  erewrite then_run.
  2:{ erewrite bind_run; [|by eapply validate_present, present_contains].
      unfold createReadonlyTransaction.
      erewrite bind_run;
        [|by eapply createTransaction_present, present_contains].
      apply active_run.
      unfold store_index, run_request, read_store, commit, bind, log,
        get_factory, set_factory, fire, ret, throw. simpl.
      rewrite present_find.
      rewrite Hix. simpl.
      rewrite present_find.
      simpl. unfold resolve, settle. simpl. reflexivity. }
  simpl. unfold committed, finished. rewrite (stored_after_open _ _ _ Hopen).
  done.
Qed.

(** The store has no index of that name: [store.index] throws, and the
    transaction completes. *)
Lemma getByIndex_no_index (indexName : string) (key : Key) :
  find (fun ix => String.eqb (name ix) indexName) (os_indexes os) = None ->
  getByIndex dbName version currentStore indexName key (world f conns released)
  = (Normal tt,
     finished (after_open f dbName version) conns released dbName
       (Resolved REvent)
       (started dbName version readonly currentStore
        ++ [OUncaught (ErrEnv NotFoundError); OComplete;
            OSettled (Resolved REvent)])).
Proof.
  intros Hix. unfold getByIndex.
  erewrite bind_run; [|by apply openDatabase_opens].
  erewrite then_run.
  2:{ erewrite bind_run; [|by eapply validate_present, present_contains].
      unfold createReadonlyTransaction.
      erewrite bind_run;
        [|by eapply createTransaction_present, present_contains].
      erewrite active_throw.
      2:{ unfold store_index, read_store, bind, get_factory, ret, throw. simpl.
          rewrite present_find. rewrite Hix. reflexivity. }
      unfold bind, log, resolve, settle. simpl. reflexivity. }
  done.
Qed.

Lemma stores_after_read_commit :
  objectStores (stored (committed f dbName version os) dbName)
  = objectStores (stored f dbName).
Proof.
  rewrite stored_committed. simpl. by apply (replace_store_same currentStore).
Qed.

End OnPresentStore.

(** A later call on the world an operation left: the database is at the
    version of the operation, so the open request of the later call, at
    that version, goes through whatever connections are open. *)
Lemma later_finished (f' : gmap string IDBDatabase) (conns : list string)
    (released : bool) (dbName : string) (p : Promise) (t : list Obs) :
  later (finished f' conns released dbName p t)
  = world f' (conns ++ [dbName]) released.
Proof. done. Qed.

(** C5 (as the code has it). When the store takes the record, that is
    when the key arguments fit its key configuration and no unique index
    is violated, [update] puts: whatever the store held under the key, it
    holds the written value afterwards and every other key is as before;
    the promise is settled by the transaction's [complete] event, after
    the commit and not at the success of the put request, so that a
    [getByID] in a later transaction resolves with the written value. *)
Theorem update_is_put_and_resolves_on_complete
    (f : gmap string IDBDatabase) (dbName : string) (version : Z)
    (currentStore : string) (os : IDBObjectStore)
    (value : Value) (key : option Key) (k : Key) (v : Value) (g : Z) :
  let w := snd (update dbName version currentStore value key (fresh f)) in
  let afterwards := snd (getByID dbName version currentStore k (later w)) in
  opens f dbName version ->
  find_store currentStore (objectStores (stored f dbName)) = Some os ->
  store_key os value key = Normal (k, v, g) ->
  violates_unique os k v = false ->
  promise w = Resolved REvent /\
  (exists given,
     call_key os value key = Normal given /\
     trace w = started dbName version readwrite currentStore
               ++ [ORequest (ReqPut value given); ORequestSuccess (RKey k);
                   OComplete; OSettled (Resolved REvent)]) /\
  (exists os',
     find_store currentStore (objectStores (stored (factory w) dbName))
     = Some os' /\
     get_record k (os_records os') = Some v /\
     forall k', k' <> k ->
                get_record k' (os_records os') = get_record k' (os_records os)) /\
  promise afterwards = Resolved (RValue (Some v)).
Proof.
  intros w afterwards Hopen Hfind Hkey Hu.
  destruct (store_key_Normal _ _ _ _ _ _ Hkey) as (given & Hcall & Hassign).
  set (os' := set_records os g (put_record k v (os_records os))).
  assert (Hn : os_name os' = os_name os) by done.
  assert (Hw : w = finished (committed f dbName version os') [] false dbName
                     (Resolved REvent)
                     (started dbName version readwrite currentStore
                      ++ [ORequest (ReqPut value given);
                          ORequestSuccess (RKey k);
                          OComplete; OSettled (Resolved REvent)])).
  { unfold w, fresh.
    by rewrite (update_run f [] false dbName version currentStore os Hopen
                  (unblocked_fresh _ _ _) Hfind value key given k v g
                  Hcall Hassign Hu). }
  pose proof (find_committed f dbName version currentStore os os' Hfind Hn)
    as Hfind'.
  split_and!.
  - by rewrite Hw.
  - exists given. split; [done|]. by rewrite Hw.
  - exists os'. rewrite Hw. split_and!; [done| |].
    + simpl. apply get_put_same.
    + intros k' Hne. simpl. by apply get_put_other.
  - unfold afterwards. rewrite Hw, later_finished.
    rewrite (getByID_run (committed f dbName version os') _ false dbName
               version currentStore os').
    + simpl. by rewrite get_put_same.
    + by apply opens_committed.
    + apply unblocked_same. by rewrite stored_committed.
    + done.
Qed.

Lemma cursor_events_settled (cb : option (Key * Value) -> CursorAction)
    (entries : list (Key * Value)) :
  forall w r, promise w = Resolved r ->
    cursor_events entries (cursor_handler cb) w
    = (Normal tt, observe w (map OCursorCallback (visited cb entries))).
Proof.
  induction entries as [|entry rest IH]; intros w r Hp; simpl.
  - unfold bind, cursor_handler, bind, log, resolve, settle, ret, observe.
    simpl. by rewrite Hp.
  - unfold bind at 1. unfold cursor_handler, bind, log, resolve, settle, ret.
    simpl. rewrite Hp. simpl.
    destruct (cb (Some entry)).
    + rewrite (IH _ r); [|done]. unfold observe. simpl.
      by rewrite Hp, <- app_assoc.
    + unfold observe. by rewrite Hp.
Qed.

Lemma cursor_events_pending (cb : option (Key * Value) -> CursorAction)
    (entries : list (Key * Value)) (w : World) :
  promise w = Pending ->
  cursor_events entries (cursor_handler cb) w
  = (Normal tt,
     {| factory := factory w;
        connections := connections w;
        releases := releases w;
        promise := Resolved RUndefined;
        trace := trace w ++ [OCursorCallback (head entries);
                             OSettled (Resolved RUndefined)]
                 ++ map OCursorCallback (later_events cb entries) |}).
Proof.
  intros Hp. destruct entries as [|entry rest]; simpl.
  - unfold bind, cursor_handler, bind, log, resolve, settle, ret. simpl.
    rewrite Hp. simpl. by rewrite <- app_assoc.
  - unfold bind at 1. unfold cursor_handler, bind, log, resolve, settle, ret.
    simpl. rewrite Hp. simpl. unfold later_events. simpl.
    destruct (cb (Some entry)).
    + rewrite (cursor_events_settled cb rest _ RUndefined); [|done].
      unfold observe. simpl. by rewrite <- !app_assoc.
    + simpl. by rewrite <- app_assoc.
Qed.

Lemma openCursor_run (f : gmap string IDBDatabase) (conns : list string)
    (released : bool) (dbName : string)
    (version : Z) (currentStore : string) (os : IDBObjectStore)
    (cb : option (Key * Value) -> CursorAction)
    (keyRange : option (Key * Key)) :
  opens f dbName version ->
  unblocked f conns dbName version ->
  find_store currentStore (objectStores (stored f dbName)) = Some os ->
  let entries :=
    List.filter (fun r => in_range keyRange (fst r)) (os_records os) in
  openCursor dbName version currentStore cb keyRange (world f conns released)
  = (Normal tt,
     finished (committed f dbName version os) conns released dbName
       (Resolved RUndefined)
       (started dbName version readonly currentStore
        ++ [ORequest (ReqOpenCursor keyRange);
            OCursorCallback (head entries);
            OSettled (Resolved RUndefined)]
        ++ map OCursorCallback (later_events cb entries)
        ++ [OComplete])).
Proof.
  intros Hopen Hfree Hfind entries. unfold openCursor.
  erewrite bind_run; [|by apply openDatabase_opens].
  erewrite then_run.
  2:{ erewrite bind_run;
        [|by eapply validate_present, present_contains].
      unfold createReadonlyTransaction.
      erewrite bind_run;
        [|by eapply createTransaction_present, present_contains].
      apply active_run.
      unfold run_cursor.
      erewrite bind_run; [|reflexivity].
      erewrite bind_run.
      2:{ unfold read_store, bind, get_factory. simpl.
          rewrite (present_find f dbName version currentStore os Hopen Hfind).
          reflexivity. }
      erewrite bind_run.
      2:{ apply (cursor_events_pending cb). done. }
      unfold commit, bind, log, get_factory, set_factory. simpl.
      unfold resolve, settle. simpl. reflexivity. }
  simpl. unfold committed, finished. rewrite (stored_after_open _ _ _ Hopen).
  fold entries. simpl. by rewrite <- ?app_assoc.
Qed.

(** C6 (as the code has it). On a store the database has, the promise of
    [openCursor] is resolved on the first [success] event of the cursor,
    right after the caller's callback has returned for that event, and not
    at the end of the traversal; the callback is called for every
    [success] event, the first before the promise is resolved and the
    later ones, which come only while the callback continues the cursor,
    after it. *)
Theorem openCursor_resolves_after_first_callback
    (f : gmap string IDBDatabase) (dbName : string) (version : Z)
    (currentStore : string) (os : IDBObjectStore)
    (cb : option (Key * Value) -> CursorAction)
    (keyRange : option (Key * Key)) :
  let w := snd (openCursor dbName version currentStore cb keyRange (fresh f)) in
  let entries :=
    List.filter (fun r => in_range keyRange (fst r)) (os_records os) in
  opens f dbName version ->
  find_store currentStore (objectStores (stored f dbName)) = Some os ->
  promise w = Resolved RUndefined /\
  trace w = started dbName version readonly currentStore
            ++ [ORequest (ReqOpenCursor keyRange);
                OCursorCallback (head entries);
                OSettled (Resolved RUndefined)]
            ++ map OCursorCallback (later_events cb entries)
            ++ [OComplete].
Proof.
  intros w entries Hopen Hfind. unfold w, fresh.
  rewrite (openCursor_run f [] false dbName version currentStore os cb keyRange
             Hopen (unblocked_fresh _ _ _) Hfind).
  done.
Qed.

(** ** [openDatabase] with an upgrade callback *)

(** C7 (what the code does). When the version asked for is above the
    stored one and an upgrade callback is given, [openDatabase] calls it
    with the upgrade event before its promise is settled, and with
    [undefined] where the database handle should be: [db] is assigned in
    [onsuccess] only, which comes after the upgrade. *)
Theorem upgrade_callback_gets_no_handle
    (f : gmap string IDBDatabase) (dbName : string) (version : Z)
    (callback : UpgradeCallback) :
  let w := snd (openDatabase dbName version (Some callback) (fresh f)) in
  (0 < version <= max_version)%Z ->
  (db_version (stored f dbName) < version)%Z ->
  exists rest p,
    trace w = [OOpen dbName version;
               OUpgradeCallback
                 {| oldVersion := db_version (stored f dbName);
                    newVersion := Some version |} None]
              ++ rest ++ [OOpenSettled p].
Proof.
  intros w H0 H1. unfold w, openDatabase, bind, log, get_factory. simpl.
  rewrite (classify_upgrade _ _ H0 H1).
  unfold await_versionchange, bind, get_connections. simpl.
  destruct (callback _ _ _) as [[[]|e] stores]; simpl.
  - exists [], (Resolved (RHandle {| h_name := dbName; h_version := version |})).
    done.
  - exists [OUncaught e; OAbort], (Rejected (ErrOpen AbortError)). done.
Qed.

(** ** The configuration singleton *)

(** C8. Before [initDB] has set the configuration, [useIndexedDB] throws
    the configuration error 'Please, initialize the DB before the use.',
    which is not an error of the environment. *)
Theorem useIndexedDB_before_initDB_throws (objectStore : string) :
  useIndexedDB indexeddbConfiguration objectStore = Throw ErrNotInitialized /\
  error_message ErrNotInitialized
    = Some "Please, initialize the DB before the use." /\
  forall e, ErrNotInitialized <> ErrEnv e /\ ErrNotInitialized <> ErrOpen e.
Proof. split_and!; done. Qed.

Lemma initDB_frozen (strict : bool) (props : IndexedDBProps)
    (cfg : Configuration) :
  cfg_frozen cfg = true -> fst (initDB strict props cfg) = cfg.
Proof.
  destruct cfg as [v n fr]. simpl. intros ->.
  unfold initDB, assign. simpl. by destruct strict.
Qed.

(** C9 (as the code has it). The first [initDB] sets the configuration to
    the name and version it is given and freezes it, whatever the store
    creation or migration does afterwards; no later [initDB] changes it;
    and [useIndexedDB] then throws the pre-initialization error exactly
    when the name is the empty string or the version is 0, and returns the
    operations bound to that name and version otherwise. *)
Theorem initDB_sets_and_freezes_configuration
    (strict : bool) (props : IndexedDBProps) :
  let cfg := fst (initDB strict props indexeddbConfiguration) in
  cfg = {| cfg_version := Some (props_version props);
           cfg_name := Some (props_name props);
           cfg_frozen := true |} /\
  (forall calls : list (bool * IndexedDBProps),
     fold_left (fun c call => fst (initDB (fst call) (snd call) c)) calls cfg
     = cfg) /\
  (forall objectStore,
     useIndexedDB cfg objectStore
     = if String.eqb (props_name props) "" || (props_version props =? 0)%Z
       then Throw ErrNotInitialized
       else Normal (DBOperations (props_name props) (props_version props)
                                 objectStore)).
Proof.
  intros cfg.
  assert (Hcfg : cfg = {| cfg_version := Some (props_version props);
                          cfg_name := Some (props_name props);
                          cfg_frozen := true |}) by done.
  split_and!; [done| |].
  - intros calls. induction calls as [|call calls IH]; simpl; [done|].
    rewrite initDB_frozen; [done|by rewrite Hcfg].
  - intros objectStore. rewrite Hcfg. unfold useIndexedDB. simpl.
    by destruct (String.eqb _ _ || _).
Qed.

(** ** Examples *)

Lemma people_creatable : creatable people.
Proof.
  split_and!; [done|done| |].
  - apply (bool_decide_unpack _). by vm_compute.
  - repeat constructor.
Qed.

Lemma people_valid : valid_schemas [people].
Proof.
  split.
  - apply (bool_decide_unpack _). by vm_compute.
  - constructor; [apply people_creatable|constructor].
Qed.

Lemma version_in_range (v : Z) :
  (0 <? v)%Z && (v <=? max_version)%Z = true -> (0 < v <= max_version)%Z.
Proof. intros H. apply andb_true_iff in H as [H1 H2]. lia. Qed.

Lemma two_steps_migrate :
  migrates [people] two_steps 0 [] 2
    [declared_store people;
     new_store "orders" {| keyPath := "no"; autoIncrement := false |}]
    two_steps.
Proof.
  eapply migrates_step; [reflexivity|reflexivity|by vm_compute|].
  eapply migrates_step; [reflexivity|reflexivity|by vm_compute|].
  apply migrates_none.
Qed.

Lemma upgrade_invokes_each_migration_once_witness :
  map toVersion
    (migrations_run
       (trace (snd (CreateObjectStore "app" 2 [people] (Some two_steps)
                      (world ∅ [] false)))))
  = [1; 2]%Z.
Proof.
  refine (proj1 (proj2 (proj2 (proj2 (proj2
            (upgrade_invokes_each_migration_once "app" 2 [people] two_steps ∅
               [] false _ _ _ _ _ _)))))).
  - by apply version_in_range.
  - reflexivity.
  - left. apply not_elem_of_nil.
  - apply two_steps_migrate.
Defined.

Lemma failed_migration_rejects_and_aborts_witness :
  exists e',
    promise (snd (CreateObjectStore "app" 3 [people] (Some broken_steps)
                    (world ∅ [] false)))
    = Rejected e' /\
    ("app" ∉ ([] : list string) -> e' = ErrMigrationFailed 2).
Proof.
  refine (proj1 (failed_migration_rejects_and_aborts "app" 3 [people]
                   broken_steps ∅ [] false 2 (ErrMigrationFailed 2)
                   [new_store "orders" {| keyPath := "no";
                                          autoIncrement := false |}]
                   [creating_orders 1] [failing 2] _ _ _ _ _)).
  - by apply version_in_range.
  - change (db_version (stored ∅ "app")) with 0%Z. lia.
  - left. apply not_elem_of_nil.
  - eapply migrates_step; [reflexivity|reflexivity|by vm_compute|].
    apply migrates_none.
  - eapply stops_false; [reflexivity|reflexivity|reflexivity].
Defined.

Lemma default_behaviour_creates_missing_stores_witness :
  stored (factory (snd (CreateObjectStore "app" 1 [people] None
                          (world ∅ [] false))))
         "app"
  = {| db_version := 1; objectStores := [declared_store people] |}.
Proof.
  refine (proj1 (proj2 (default_behaviour_creates_missing_stores
                          "app" 1 [people] ∅ [] false _ _ _ _))).
  - apply people_valid.
  - by apply version_in_range.
  - reflexivity.
  - left. apply not_elem_of_nil.
Defined.

Lemma opens_example (f : gmap string IDBDatabase) (dbName : string) (v : Z) :
  (0 <? v)%Z && (v <=? max_version)%Z
  && (db_version (stored f dbName) <=? v)%Z = true ->
  opens f dbName v.
Proof.
  intros H. apply andb_true_iff in H as [H H3].
  apply andb_true_iff in H as [H1 H2]. unfold opens. lia.
Qed.

Lemma read_of_missing_store_rejects_witness :
  promise (snd (call (DBOperations "app" 1 "orders") OpGetAll (fresh app_v1)))
  = Rejected (ErrStoreMissing "orders").
Proof.
  refine (proj1 (read_of_missing_store_rejects (DBOperations "app" 1 "orders")
                   OpGetAll app_v1 _ _ _)).
  - reflexivity.
  - by apply opens_example.
  - apply contains_false. by vm_compute.
Defined.

Lemma update_is_put_and_resolves_on_complete_witness :
  promise (snd (getByID "app" 1 "people" (KNum 5)
                  (later (snd (update "app" 1 "people" ann None
                                 (fresh app_v1))))))
  = Resolved (RValue (Some ann)).
Proof.
  refine (proj2 (proj2 (proj2
            (update_is_put_and_resolves_on_complete app_v1 "app" 1 "people"
               (declared_store people) ann None (KNum 5) ann 6 _ _ _ _)))).
  - by apply opens_example.
  - by vm_compute.
  - by vm_compute.
  - by vm_compute.
Defined.

(** Against C5 as the specification words it: [update] with a key, on a
    store with a key path, resolves, and a [getByID] afterwards finds no
    record under the key: [put] threw, nothing was written, and the
    transaction completed all the same. *)
Lemma update_resolves_with_nothing_written :
  let w := snd (update "app" 1 "people" ann (Some (KNum 5)) (fresh app_v1)) in
  promise w = Resolved REvent /\
  promise (snd (getByID "app" 1 "people" (KNum 5) (later w)))
  = Resolved (RValue None).
Proof. split; by vm_compute. Qed.

Lemma openCursor_resolves_after_first_callback_witness :
  promise (snd (openCursor "app" 1 "people" keep_going None (fresh app_two)))
  = Resolved RUndefined.
Proof.
  refine (proj1 (openCursor_resolves_after_first_callback app_two "app" 1
                   "people"
                   (set_records (declared_store people) 8
                      [(KNum 5, ann); (KNum 7, bob)])
                   keep_going None _ _)).
  - by apply opens_example.
  - by vm_compute.
Defined.

(** Against C6 as the specification words it: with two records and a
    callback that continues, the second and third calls of the callback
    come after the promise was resolved. *)
Lemma openCursor_settles_before_traversal_ends :
  ~ callbacks_before_settled
      (trace (snd (openCursor "app" 1 "people" keep_going None (fresh app_two)))).
Proof.
  intros H.
  assert (Ht : trace (snd (openCursor "app" 1 "people" keep_going None
                             (fresh app_two)))
               = started "app" 1 readonly "people"
                 ++ [ORequest (ReqOpenCursor None);
                     OCursorCallback (Some (KNum 5, ann));
                     OSettled (Resolved RUndefined);
                     OCursorCallback (Some (KNum 7, bob));
                     OCursorCallback None;
                     OComplete]) by (by vm_compute).
  rewrite Ht in H.
  specialize (H 7%nat 8%nat (Resolved RUndefined) (Some (KNum 7, bob))
                eq_refl eq_refl).
  lia.
Qed.

Lemma upgrade_callback_gets_no_handle_witness :
  exists rest p,
    trace (snd (openDatabase "app" 1 (Some (fun _ _ => ret tt)) (fresh ∅)))
    = [OOpen "app" 1;
       OUpgradeCallback {| oldVersion := 0; newVersion := Some 1%Z |} None]
      ++ rest ++ [OOpenSettled p].
Proof.
  refine (upgrade_callback_gets_no_handle ∅ "app" 1 (fun _ _ => ret tt) _ _).
  - by apply version_in_range.
  - reflexivity.
Defined.

(** Against C9 as the specification words it: after [initDB] with the
    empty string for a name, [useIndexedDB] still throws the
    pre-initialization error. *)
Lemma initDB_with_empty_name_leaves_useIndexedDB_throwing :
  useIndexedDB
    (fst (initDB true
            {| props_name := ""; props_version := 1;
               objectStoresMeta := [people]; migrations := None |}
            indexeddbConfiguration))
    "people"
  = Throw ErrNotInitialized.
Proof. reflexivity. Qed.

(** [initDB] rejected by a failed migration, and [useIndexedDB] all the
    same returning the operations. *)
Example initDB_rejected_yet_configured :
  let props := {| props_name := "app"; props_version := 3;
                  objectStoresMeta := [people];
                  migrations := Some broken_steps |} in
  let '(cfg, init) := initDB true props indexeddbConfiguration in
  promise (snd (init (fresh ∅))) = Rejected (ErrMigrationFailed 2) /\
  useIndexedDB cfg "people" = Normal (DBOperations "app" 3 "people").
Proof. split; by vm_compute. Qed.

Lemma add_alone_skips_validation_witness :
  promise (snd (call (DBOperations "app" 1 "orders") (OpAdd ann None)
                  (fresh app_v1)))
  = Pending.
Proof.
  refine (proj2 (add_alone_skips_validation (DBOperations "app" 1 "orders")
                   (OpAdd ann None) app_v1 _) _).
  - by apply opens_example.
  - apply contains_false. by vm_compute.
Defined.


(** * Further properties *)

(** ** Open requests that fail, and opens that need no upgrade *)

Lemma classify_fails (d : IDBDatabase) (v : Z) :
  ~ ((0 < v <= max_version)%Z /\ (db_version d <= v)%Z) ->
  classify_open d v
  = if (v <=? 0)%Z || (max_version <? v)%Z
    then OpenThrows TypeError else OpenFails VersionError.
Proof.
  intros H. unfold classify_open.
  destruct (Z.leb_spec v 0); [done|].
  destruct (Z.ltb_spec max_version v); [done|]. cbn [orb].
  destruct (Z.ltb_spec v (db_version d)); [done|]. lia.
Qed.

Lemma openDatabase_fails (f : gmap string IDBDatabase) (dbName : string)
    (version : Z) (upgradeCallback : option UpgradeCallback) :
  ~ opens f dbName version ->
  openDatabase dbName version upgradeCallback (fresh f)
  = (Normal (Failed (open_error version)), failed_open_world f dbName version).
Proof.
  intros H. unfold openDatabase, failed_open_world, open_error.
  unfold bind, log, get_factory. simpl.
  rewrite (classify_fails _ _ H).
  by destruct ((version <=? 0)%Z || (max_version <? version)%Z).
Qed.

Lemma call_when_open_fails (b : Bound) (op : Operation)
    (f : gmap string IDBDatabase) :
  ~ opens f (b_dbName b) (b_version b) ->
  call b op (fresh f)
  = (Normal tt, failed_open_world f (b_dbName b) (b_version b)).
Proof.
  intros Hfail.
  destruct op; simpl;
    unfold add, getByID, getAll, update, deleteRecord, clear, openCursor,
      getByIndex;
    (erewrite bind_run; [|by apply openDatabase_fails]); reflexivity.
Qed.

(** X1. When the open request of an operation fails (the version asked
    for is below the stored one, or not one the host takes), the operation
    does nothing more: its promise is never settled, neither resolved nor
    rejected, and the database is not touched. *)
Theorem operation_never_settles_when_open_fails (b : Bound) (op : Operation)
    (f : gmap string IDBDatabase) :
  let w := snd (call b op (fresh f)) in
  ~ opens f (b_dbName b) (b_version b) ->
  promise w = Pending /\ factory w = f /\
  trace w = [OOpen (b_dbName b) (b_version b);
             OOpenSettled (Rejected (open_error (b_version b)))].
Proof.
  intros w Hfail. unfold w. by rewrite (call_when_open_fails b op f Hfail).
Qed.

Lemma operation_never_settles_when_open_fails_witness :
  promise (snd (call (DBOperations "app" 1 "people") OpGetAll (fresh app_v2)))
  = Pending.
Proof.
  refine (proj1 (operation_never_settles_when_open_fails
                   (DBOperations "app" 1 "people") OpGetAll app_v2 _)).
  intros [_ H]. vm_compute in H. by apply H.
Defined.

(** X2. [openDatabase] at a version that needs no upgrade never calls
    the upgrade callback and leaves the database as it is: it resolves
    with the handle when the version is the stored one, and rejects with
    the error of the open request, a [VersionError], when it is below. *)
Theorem openDatabase_without_upgrade (f : gmap string IDBDatabase)
    (dbName : string) (version : Z) (upgradeCallback : option UpgradeCallback) :
  let r := openDatabase dbName version upgradeCallback (fresh f) in
  (0 < version <= max_version)%Z ->
  (version <= db_version (stored f dbName))%Z ->
  factory (snd r) = f /\ upgrade_calls (trace (snd r)) = [] /\
  (version = db_version (stored f dbName) ->
   fst r = Normal (Fulfilled (handle dbName version))) /\
  ((version < db_version (stored f dbName))%Z ->
   fst r = Normal (Failed (ErrOpen VersionError))).
Proof.
  intros r H0 H1.
  destruct (Z.eq_dec version (db_version (stored f dbName))) as [E|E].
  - assert (Hr : r = (Normal (Fulfilled (handle dbName version)),
                      {| factory := f; connections := [dbName];
                         releases := false; promise := Pending;
                         trace := [OOpen dbName version;
                                   OOpenSettled
                                     (Resolved (RHandle (handle dbName version)))] |})).
    { unfold r, openDatabase, bind, log, get_factory. simpl.
      by rewrite (classify_same _ _ H0 (eq_sym E)). }
    rewrite Hr. simpl. split_and!; [done|done|done|lia].
  - assert (Hf : ~ opens f dbName version) by (unfold opens; lia).
    assert (Hr : r = (Normal (Failed (ErrOpen VersionError)),
                      failed_open_world f dbName version)).
    { unfold r. rewrite (openDatabase_fails _ _ _ _ Hf). unfold open_error.
      destruct (Z.leb_spec version 0); [lia|].
      destruct (Z.ltb_spec max_version version); [lia|done]. }
    rewrite Hr. simpl. split_and!; [done|done|done|done].
Qed.

Lemma openDatabase_without_upgrade_witness :
  fst (openDatabase "app" 1 (Some creating) (fresh app_v2))
  = Normal (Failed (ErrOpen VersionError)).
Proof.
  refine (proj2 (proj2 (proj2
            (openDatabase_without_upgrade app_v2 "app" 1 (Some creating) _ _)))
            _).
  - by apply version_in_range.
  - by vm_compute.
  - reflexivity.
Defined.

(** X3. When [openDatabase] goes through an upgrade with a callback, what
    the callback did to the stores is what the database holds at the new
    version once the promise resolves; when the callback throws, nothing
    of it is kept and the promise rejects with the error of the open
    request, an [AbortError]. *)
Theorem openDatabase_upgrade_commits_or_rolls_back
    (f : gmap string IDBDatabase) (dbName : string) (version : Z)
    (callback : UpgradeCallback) :
  let r := openDatabase dbName version (Some callback) (fresh f) in
  let event := {| oldVersion := db_version (stored f dbName);
                  newVersion := Some version |} in
  let out := callback event None (objectStores (stored f dbName)) in
  (0 < version <= max_version)%Z ->
  (db_version (stored f dbName) < version)%Z ->
  match fst out with
  | Normal _ =>
      fst r = Normal (Fulfilled (handle dbName version)) /\
      stored (factory (snd r)) dbName
      = {| db_version := version; objectStores := snd out |}
  | Throw _ =>
      fst r = Normal (Failed (ErrOpen AbortError)) /\ factory (snd r) = f
  end.
Proof.
  intros r event out H0 H1. unfold r, openDatabase, bind, log, get_factory.
  simpl. rewrite (classify_upgrade _ _ H0 H1).
  unfold await_versionchange, bind, get_connections. simpl.
  fold event. fold out. destruct out as [[[]|e] stores]; simpl.
  - split; [done|]. unfold commit_upgrade, bind, get_factory, set_factory.
    simpl. by rewrite stored_insert.
  - done.
Qed.

Lemma openDatabase_upgrade_commits_or_rolls_back_witness :
  objectStores
    (stored (factory (snd (openDatabase "app" 1 (Some creating) (fresh ∅))))
            "app")
  = [declared_store people]
  /\ factory (snd (openDatabase "app" 1 (Some throwing) (fresh ∅))) = ∅.
Proof.
  split.
  - pose proof (openDatabase_upgrade_commits_or_rolls_back ∅ "app" 1 creating
                  (version_in_range 1 eq_refl) eq_refl) as H.
    destruct H as [_ H]. rewrite H. reflexivity.
  - pose proof (openDatabase_upgrade_commits_or_rolls_back ∅ "app" 1 throwing
                  (version_in_range 1 eq_refl) eq_refl) as H.
    destruct H as [_ H]. exact H.
Defined.

(** ** [CreateObjectStore] as a whole *)

Lemma ups_other (o : Obs) (l : list IDBMigration) :
  (forall m, o <> OMigrationUp m) -> o ∈ map OMigrationUp l -> False.
Proof.
  intros Ho Hel. apply list_elem_of_fmap in Hel as (m & -> & _).
  by apply (Ho m).
Qed.

Ltac in_trace :=
  repeat first [ apply list_elem_of_here
               | apply list_elem_of_further
               | (apply elem_of_app; right) ].

Ltac not_in_trace Hel :=
  repeat first
    [ apply elem_of_cons in Hel as [Hel|Hel]; [discriminate Hel|]
    | apply elem_of_app in Hel as [Hel|Hel];
        [exfalso; eapply ups_other; [|exact Hel]; done|]
    | by apply elem_of_nil in Hel ].

(** X4. An upgrade through [CreateObjectStore] is all or nothing for the
    database, with or without a migration list and whatever connections
    are open: either the upgrade committed and the database is at the
    version asked for, or the database is exactly as before.  With no
    connection in the way, the promise tells which: it resolves when the
    upgrade committed and rejects when it was aborted.  With a connection
    in the way the promise is rejected with the [blocked] event, before
    any upgrade; the database stays as it is for as long as the connection
    stays open. *)
Theorem CreateObjectStore_upgrade_all_or_nothing
    (dbName : string) (version : Z) (storeSchemas : list ObjectStoreMeta)
    (migrations : option (list IDBMigration)) (f : gmap string IDBDatabase)
    (conns : list string) (released : bool) :
  let w := snd (CreateObjectStore dbName version storeSchemas migrations
                  (world f conns released)) in
  (0 < version <= max_version)%Z ->
  (db_version (stored f dbName) < version)%Z ->
  ((db_version (stored (factory w) dbName) = version /\
    OComplete ∈ trace w /\ (OAbort ∉ trace w))
   \/ (factory w = f /\ (OComplete ∉ trace w))) /\
  (dbName ∉ conns ->
   (promise w = Resolved RUndefined /\ OComplete ∈ trace w)
   \/ (exists e, promise w = Rejected e /\ OAbort ∈ trace w)) /\
  (dbName ∈ conns ->
   promise w = Rejected (ErrBlocked (versionchange f dbName version)) /\
   (released = false ->
    factory w = f /\ (OComplete ∉ trace w) /\ (OAbort ∉ trace w))).
Proof.
  intros w H0 H1.
  destruct (decide (dbName ∈ conns)) as [Hin|Hfree].
  - pose proof (CreateObjectStore_blocked dbName version storeSchemas
                  migrations f conns released H0 H1 Hin) as HC.
    destruct (run_upgrade _ _ _ _) as [r st].
    assert (Hw : w = after_blocked dbName version f conns released r st)
      by (unfold w; by rewrite HC).
    rewrite Hw. unfold after_blocked. cbn [factory promise trace].
    split_and!; [|done|].
    + destruct released; [destruct r as [[]|e]|].
      * left. unfold upgraded. rewrite stored_insert.
        split_and!; [done|in_trace|]. intros Hel. not_in_trace Hel.
      * right. split; [done|]. intros Hel. not_in_trace Hel.
      * right. split; [done|]. intros Hel. not_in_trace Hel.
    + intros _. split; [done|]. intros ->.
      split_and!; [done| |]; intros Hel; not_in_trace Hel.
  - pose proof (CreateObjectStore_upgrade dbName version storeSchemas
                  migrations f conns released H0 H1 Hfree) as HC.
    destruct (run_upgrade _ _ _ _) as [r st].
    assert (Hw : w = after_upgrade dbName version f conns released r st)
      by (unfold w; by rewrite HC).
    rewrite Hw. unfold after_upgrade. cbn [factory promise trace].
    split_and!; [| |done].
    + destruct r as [[]|e].
      * left. unfold upgraded. rewrite stored_insert.
        split_and!; [done|in_trace|]. intros Hel. not_in_trace Hel.
      * right. split; [done|]. intros Hel. not_in_trace Hel.
    + intros _. destruct r as [[]|e].
      * left. split; [done|in_trace].
      * right. exists e. split; [done|in_trace].
Qed.

Lemma CreateObjectStore_upgrade_all_or_nothing_witness :
  let w := snd (CreateObjectStore "app" 3 [people] (Some broken_steps)
                  (world ∅ [] false)) in
  (db_version (stored (factory w) "app") = 3%Z /\
   OComplete ∈ trace w /\ (OAbort ∉ trace w))
  \/ (factory w = ∅ /\ (OComplete ∉ trace w)).
Proof.
  exact (proj1 (CreateObjectStore_upgrade_all_or_nothing "app" 3 [people]
                  (Some broken_steps) ∅ [] false
                  (version_in_range 3 eq_refl) eq_refl)).
Defined.

(** X5. [CreateObjectStore] at a version that needs no upgrade calls no
    migration and runs no default behaviour, whatever the migration list:
    the database is left as it is, and the promise resolves when the
    version is the stored one and rejects when it is below. *)
Theorem CreateObjectStore_without_upgrade
    (dbName : string) (version : Z) (storeSchemas : list ObjectStoreMeta)
    (migrations : option (list IDBMigration)) (f : gmap string IDBDatabase) :
  let w := snd (CreateObjectStore dbName version storeSchemas migrations
                  (fresh f)) in
  (0 < version <= max_version)%Z ->
  (version <= db_version (stored f dbName))%Z ->
  factory w = f /\ migrations_run (trace w) = [] /\
  promise w = if (version =? db_version (stored f dbName))%Z
              then Resolved RUndefined
              else Rejected (ErrEnv VersionError).
Proof.
  intros w H0 H1.
  destruct (Z.eqb_spec version (db_version (stored f dbName))) as [E|E].
  - unfold w, fresh.
    rewrite (CreateObjectStore_same _ _ _ _ _ _ _ H0 (eq_sym E)). done.
  - assert (Hf : ~ ((0 < version <= max_version)%Z
                    /\ (db_version (stored f dbName) <= version)%Z))
      by lia.
    unfold w, CreateObjectStore, bind, log, get_factory. simpl.
    rewrite (classify_fails _ _ Hf).
    destruct (Z.leb_spec version 0); [lia|].
    destruct (Z.ltb_spec max_version version); [lia|]. done.
Qed.

Lemma CreateObjectStore_without_upgrade_witness :
  factory (snd (CreateObjectStore "app" 2 [people] (Some broken_steps)
                  (fresh app_v2)))
  = app_v2.
Proof.
  refine (proj1 (CreateObjectStore_without_upgrade "app" 2 [people]
                   (Some broken_steps) app_v2 _ _)).
  - by apply version_in_range.
  - by vm_compute.
Defined.

(** ** The sequencer, whatever the migrations do *)

Lemma applyMigrations_for_prefix (storeSchemas : list ObjectStoreMeta)
    (migrations : list IDBMigration) (n : nat) :
  forall (nextVersion : Z) (st : MigState),
    exists (found : list IDBMigration) (k : nat),
      invoked (snd (applyMigrations_for n storeSchemas migrations nextVersion st))
      = invoked st ++ found /\
      (k <= n)%nat /\
      Forall2 (fun m v => migration_for migrations v = Some m)
              found (seqZ nextVersion (Z.of_nat k)) /\
      (fst (applyMigrations_for n storeSchemas migrations nextVersion st)
       = Normal tt -> k = n).
Proof.
  induction n as [|n IH]; intros nextVersion st.
  - exists [], O. simpl. rewrite app_nil_r. split_and!; [done|lia|constructor|done].
  - assert (Hstop : forall e,
              exists (found : list IDBMigration) (k : nat),
                invoked st = invoked st ++ found /\ (k <= S n)%nat /\
                Forall2 (fun m v => migration_for migrations v = Some m)
                        found (seqZ nextVersion (Z.of_nat k)) /\
                (@Throw unit e = Normal tt -> k = S n)).
    { intros e. exists [], O. rewrite app_nil_r.
      split_and!; [done|lia|constructor|done]. }
    assert (Hone : forall m e,
              migration_for migrations nextVersion = Some m ->
              exists (found : list IDBMigration) (k : nat),
                invoked st ++ [m] = invoked st ++ found /\ (k <= S n)%nat /\
                Forall2 (fun m v => migration_for migrations v = Some m)
                        found (seqZ nextVersion (Z.of_nat k)) /\
                (@Throw unit e = Normal tt -> k = S n)).
    { intros m e Hm. exists [m], 1%nat.
      split_and!; [done|lia| |done].
      rewrite seqZ_cons by lia. rewrite seqZ_nil by lia. by repeat constructor. }
    cbn [applyMigrations_for]. unfold migrate_to.
    fold (migration_for migrations nextVersion).
    destruct (migration_for migrations nextVersion) as [m|] eqn:Hm;
      [|by apply Hstop].
    destruct (up m) as [f|]; [|by apply Hstop].
    unfold call_up.
    destruct (f storeSchemas defaultMigrationBehaviour (database st))
      as [[[]|e] db']; simpl; [| by apply Hone | by apply Hone].
    destruct (IH (nextVersion + 1)%Z
                {| database := db'; invoked := invoked st ++ [m] |})
      as (found & k & Hinv & Hk & Hfound & Hdone).
    exists (m :: found), (S k). split_and!.
    + rewrite Hinv. simpl. by rewrite <- app_assoc.
    + lia.
    + rewrite seqZ_cons by lia. constructor; [done|].
      replace (Z.succ nextVersion) with (nextVersion + 1)%Z by lia.
      replace (Z.pred (Z.of_nat (S k))) with (Z.of_nat k) by lia. done.
    + intros Hn. f_equal. by apply Hdone.
Qed.

(** X6. Whatever the migrations of the list are and do (missing ones,
    failing or throwing [up] steps, several for one version), the [up]
    steps an upgrade calls are those of the migrations found for
    oldVersion+1, oldVersion+2, ... up to some version of the range, one
    each and in that order: no version is skipped, none is outside
    (oldVersion, newVersion], and when the promise resolves the whole
    range was run. *)
Theorem migrations_called_are_consecutive
    (dbName : string) (version : Z) (storeSchemas : list ObjectStoreMeta)
    (migrations : list IDBMigration) (f : gmap string IDBDatabase) :
  let old := db_version (stored f dbName) in
  let w := snd (CreateObjectStore dbName version storeSchemas
                  (Some migrations) (fresh f)) in
  (0 < version)%Z -> (old < version)%Z ->
  exists k : Z,
    (0 <= k <= version - old)%Z /\
    Forall2 (fun m v => migration_for migrations v = Some m)
            (migrations_run (trace w)) (seqZ (old + 1) k) /\
    (promise w = Resolved RUndefined -> k = (version - old)%Z).
Proof.
  intros old w H0 H1.
  destruct (Z.ltb_spec max_version version) as [Hbig|Hfits].
  - exists 0%Z.
    assert (Hw : promise w = Rejected (ErrEnv TypeError)
                 /\ migrations_run (trace w) = []).
    { unfold w, CreateObjectStore, bind, log, get_factory. simpl.
      rewrite classify_fails by lia.
      destruct (Z.leb_spec version 0); [lia|].
      destruct (Z.ltb_spec max_version version); [|lia]. done. }
    destruct Hw as [Hp Ht]. rewrite Hp, Ht.
    split_and!; [lia|lia|by rewrite seqZ_nil; [constructor|]|done].
  - destruct (applyMigrations_for_prefix storeSchemas migrations
                (Z.to_nat (version - old)) (old + 1)
                {| database := objectStores (stored f dbName); invoked := [] |})
      as (found & k & Hinv & Hk & Hfound & Hdone).
    destruct (applyMigrations_for _ _ _ _ _) as [r st] eqn:Hrun.
    simpl in Hinv, Hdone. unfold old in Hrun.
    rewrite <- (run_upgrade_migrations dbName version storeSchemas migrations f)
      in Hrun.
    destruct (CreateObjectStore_upgrade_runs dbName version storeSchemas
                (Some migrations) f [] false r st (conj H0 Hfits) H1
                (or_introl (not_elem_of_nil _)) Hrun)
      as (_ & Hruns & Hp & _).
    fold (fresh f) in Hruns, Hp. fold w in Hruns, Hp.
    exists (Z.of_nat k). split_and!.
    + lia.
    + lia.
    + rewrite Hruns, Hinv. done.
    + rewrite (Hp (not_elem_of_nil _)). destruct r as [[]|e]; [|done].
      intros _. rewrite (Hdone eq_refl). lia.
Qed.

Lemma migrations_called_are_consecutive_witness :
  exists k : Z,
    (0 <= k <= 3 - 0)%Z /\
    Forall2 (fun m v => migration_for broken_steps v = Some m)
            (migrations_run
               (trace (snd (CreateObjectStore "app" 3 [people]
                              (Some broken_steps) (fresh ∅)))))
            (seqZ (0 + 1) k) /\
    (promise (snd (CreateObjectStore "app" 3 [people] (Some broken_steps)
                     (fresh ∅)))
     = Resolved RUndefined -> k = (3 - 0)%Z).
Proof.
  exact (migrations_called_are_consecutive "app" 3 [people] broken_steps ∅
           eq_refl eq_refl).
Defined.

(** ** The default behaviour on any descriptors *)

Lemma find_store_app_l (s : string) (db l : list IDBObjectStore) :
  s ∈ objectStoreNames db -> find_store s (db ++ l) = find_store s db.
Proof.
  induction db as [|os db IH]; simpl.
  - intros H. by apply elem_of_nil in H.
  - intros H. destruct (String.eqb_spec (os_name os) s) as [E|E]; [done|].
    apply elem_of_cons in H as [H|H]; [congruence|]. by apply IH.
Qed.

Lemma replace_store_app (os' : IDBObjectStore) (db l : list IDBObjectStore) :
  os_name os' ∉ objectStoreNames db ->
  replace_store os' (db ++ l) = db ++ replace_store os' l.
Proof.
  induction db as [|os db IH]; simpl; [done|].
  intros H. apply not_elem_of_cons in H as [Hne H].
  destruct (String.eqb_spec (os_name os) (os_name os')); [congruence|].
  f_equal. by apply IH.
Qed.

Lemma createIndex_prefix (db l : list IDBObjectStore) (s : string)
    (ixName ixKeypath : string) (ixOptions : IndexOptions) :
  s ∉ objectStoreNames db ->
  exists l', snd (createIndex s ixName ixKeypath ixOptions (db ++ l)) = db ++ l'.
Proof.
  intros Hs. unfold createIndex. rewrite (find_store_app _ _ _ Hs).
  destruct (find_store s l) as [os|] eqn:Hf; [|by exists l].
  destruct (contains _ _); [by exists l|].
  destruct (negb _); [by exists l|]. simpl.
  eexists. apply replace_store_app. simpl.
  by rewrite (proj1 (find_store_Some _ _ _ Hf)).
Qed.

Lemma createIndex_each_prefix (db : list IDBObjectStore) (s : string)
    (ixs : list ObjectStoreSchema) :
  s ∉ objectStoreNames db ->
  forall l, exists l',
    snd (forEach (fun schema : ObjectStoreSchema =>
                    createIndex s (name schema) (keypath schema)
                                (options schema)) ixs (db ++ l))
    = db ++ l'.
Proof.
  intros Hs. induction ixs as [|ix ixs IH]; intros l; simpl.
  - by exists l.
  - unfold bind.
    destruct (createIndex_prefix db l s (name ix) (keypath ix) (options ix) Hs)
      as (l1 & H1).
    destruct (createIndex s _ _ _ (db ++ l)) as [[[]|e] db1]; simpl in H1;
      subst db1; [apply IH|by exists l1].
Qed.

(** X7. The default behaviour never touches what the database already
    holds, whatever the descriptors (valid or not, and whether it ends or
    throws): the stores there were are still there, first and unchanged,
    so that a store name that was present still names the same store; and
    when it returns, it returns true. *)
Theorem default_behaviour_keeps_existing_stores
    (storeSchemas : list ObjectStoreMeta) (db : list IDBObjectStore) :
  (exists extra, snd (defaultMigrationBehaviour storeSchemas db) = db ++ extra) /\
  (forall s, s ∈ objectStoreNames db ->
     find_store s (snd (defaultMigrationBehaviour storeSchemas db))
     = find_store s db) /\
  (forall b, fst (defaultMigrationBehaviour storeSchemas db) = Normal b ->
             b = true).
Proof.
  unfold defaultMigrationBehaviour.
  match goal with |- context [forEach ?g _] => set (body := g) end.
  assert (Hloop : forall l, exists l',
            snd (forEach body storeSchemas (db ++ l)) = db ++ l').
  { induction storeSchemas as [|meta rest IH]; intros l; simpl.
    - by exists l.
    - unfold bind at 1.
      assert (Hb : exists l1, snd (body meta (db ++ l)) = db ++ l1).
      { unfold body, bind, read_objectStoreNames.
        destruct (contains (objectStoreNames (db ++ l)) (store meta)) eqn:Hc;
          cbn [negb]; cbv iota beta; [by exists l|].
        unfold createObjectStore.
        destruct (negb (valid_key_path _)); [by exists l|]. rewrite Hc.
        destruct (autoIncrement _ && _); [by exists l|].
        apply contains_false in Hc.
        assert (Hs : store meta ∉ objectStoreNames db).
        { intros Hin. apply Hc. unfold objectStoreNames. rewrite map_app.
          apply elem_of_app. by left. }
        rewrite <- app_assoc.
        apply (createIndex_each_prefix db (store meta) (storeSchema meta) Hs). }
      destruct Hb as (l1 & Hb).
      destruct (body meta (db ++ l)) as [[[]|e] db1]; simpl in Hb; subst db1;
        [apply IH|by exists l1]. }
  destruct (Hloop []) as (extra & Hextra). rewrite app_nil_r in Hextra.
  assert (Hsnd : snd ((forEach body storeSchemas ;; ret true)%se db)
                 = db ++ extra).
  { unfold bind. destruct (forEach body storeSchemas db) as [[[]|e] db1];
      simpl in *; done. }
  split_and!.
  - by exists extra.
  - intros s Hs. rewrite Hsnd. by apply find_store_app_l.
  - intros b. unfold bind.
    destruct (forEach body storeSchemas db) as [[[]|e] db1]; simpl; [|done].
    by intros [= <-].
Qed.

Lemma defaultMigrationBehaviour_first (storeSchemas : list ObjectStoreMeta) :
  Forall creatable storeSchemas ->
  forall db : list IDBObjectStore,
    defaultMigrationBehaviour storeSchemas db
    = (Normal true,
       db ++ map declared_store
               (to_create (objectStoreNames db) storeSchemas)).
Proof.
  intros Hixs. unfold defaultMigrationBehaviour.
  match goal with |- context [forEach ?g _] => set (body := g) end.
  assert (Hloop : forall db,
    forEach body storeSchemas db
    = (Normal tt,
       db ++ map declared_store
               (to_create (objectStoreNames db) storeSchemas))).
  { induction storeSchemas as [|meta rest IH]; intros db.
    - simpl. unfold ret. by rewrite app_nil_r.
    - apply Forall_cons in Hixs as [Hix Hixs]. specialize (IH Hixs).
      destruct (contains (objectStoreNames db) (store meta)) eqn:Hc.
      + assert (Hb : body meta db = (Normal tt, db)).
        { unfold body, bind, read_objectStoreNames. by rewrite Hc. }
        simpl forEach. unfold bind. rewrite Hb. rewrite IH.
        simpl to_create. by rewrite Hc.
      + assert (Hb : body meta db = (Normal tt, db ++ [declared_store meta])).
        { unfold body. unfold bind at 1. unfold read_objectStoreNames.
          rewrite Hc. cbn [negb]. cbv iota beta.
          apply contains_false in Hc. by apply create_declared. }
        simpl forEach. unfold bind. rewrite Hb. rewrite IH.
        simpl to_create. rewrite Hc. rewrite <- app_assoc. simpl.
        unfold objectStoreNames. rewrite map_app. done. }
  intros db. unfold bind. by rewrite Hloop.
Qed.

Lemma find_store_to_create (s : string) (storeSchemas : list ObjectStoreMeta) :
  forall names : list string,
    s ∉ names ->
    find_store s (map declared_store (to_create names storeSchemas))
    = declared_store <$> first_declared s storeSchemas.
Proof.
  unfold first_declared.
  induction storeSchemas as [|meta rest IH]; intros names Hs; simpl; [done|].
  destruct (contains names (store meta)) eqn:Hc.
  - apply contains_true in Hc.
    destruct (String.eqb_spec (store meta) s) as [E|E]; [congruence|].
    by apply IH.
  - simpl. destruct (String.eqb_spec (store meta) s) as [E|E]; [done|].
    apply IH. intros Hel. apply elem_of_app in Hel as [Hel|Hel]; [done|].
    apply list_elem_of_singleton in Hel. congruence.
Qed.

(** X8. When several descriptors declare the same store name, the first
    one wins: after the default behaviour, on descriptors each of which
    the host makes a store of (valid key paths, no key generator with an
    empty key path, index names distinct within the descriptor), a store
    name that was missing names the store of the first descriptor that
    declares it, with that descriptor's key configuration and indexes, and
    a later descriptor of that name is ignored. *)
Theorem default_behaviour_first_declaration_wins
    (storeSchemas : list ObjectStoreMeta) (db : list IDBObjectStore)
    (s : string) :
  Forall creatable storeSchemas ->
  s ∉ objectStoreNames db ->
  fst (defaultMigrationBehaviour storeSchemas db) = Normal true /\
  find_store s (snd (defaultMigrationBehaviour storeSchemas db))
  = declared_store <$> first_declared s storeSchemas.
Proof.
  intros Hixs Hs. rewrite (defaultMigrationBehaviour_first _ Hixs). simpl.
  split; [done|]. rewrite (find_store_app _ _ _ Hs).
  by apply find_store_to_create.
Qed.

Lemma default_behaviour_first_declaration_wins_witness :
  find_store "people"
    (snd (defaultMigrationBehaviour [people; people_again] []))
  = Some (declared_store people).
Proof.
  refine (proj2 (default_behaviour_first_declaration_wins
                   [people; people_again] [] "people" _ _)).
  - apply Forall_cons. split; [apply people_creatable|].
    apply Forall_cons. split; [|constructor].
    split_and!; [done|done| |repeat constructor].
    apply (bool_decide_unpack _). by vm_compute.
  - apply not_elem_of_nil.
Defined.

(** ** Migrations that delegate to the default behaviour *)

Lemma default_result_idempotent (storeSchemas : list ObjectStoreMeta)
    (db : list IDBObjectStore) :
  valid_schemas storeSchemas ->
  default_result storeSchemas (default_result storeSchemas db)
  = default_result storeSchemas db.
Proof.
  intros Hv.
  pose proof (defaultMigrationBehaviour_idempotent storeSchemas db Hv) as Hi.
  simpl in Hi. rewrite (defaultMigrationBehaviour_valid _ Hv) in Hi.
  by injection Hi.
Qed.

Lemma applyMigrations_for_delegating (storeSchemas : list ObjectStoreMeta)
    (migrations : list IDBMigration) (n : nat) :
  valid_schemas storeSchemas ->
  forall (nextVersion : Z) (st : MigState),
    (forall v, (nextVersion <= v < nextVersion + Z.of_nat n)%Z ->
       exists m, migration_for migrations v = Some m /\ delegates m) ->
    exists found,
      applyMigrations_for n storeSchemas migrations nextVersion st
      = (Normal tt,
         {| database := match n with
                        | O => database st
                        | S _ => default_result storeSchemas (database st)
                        end;
            invoked := invoked st ++ found |}).
Proof.
  intros Hv. induction n as [|n IH]; intros nextVersion st Hall.
  - exists []. simpl. rewrite app_nil_r. by destruct st.
  - destruct (Hall nextVersion) as (m & Hm & Hd); [lia|].
    cbn [applyMigrations_for]. unfold migrate_to.
    fold (migration_for migrations nextVersion). rewrite Hm, Hd.
    unfold call_up. rewrite (defaultMigrationBehaviour_valid _ Hv).
    fold (default_result storeSchemas (database st)).
    destruct (IH (nextVersion + 1)%Z
                {| database := default_result storeSchemas (database st);
                   invoked := invoked st ++ [m] |})
      as (found & Hrun).
    { intros v Hr. apply Hall. lia. }
    rewrite Hrun. exists (m :: found). simpl. rewrite <- app_assoc. simpl.
    destruct n; [done|]. by rewrite default_result_idempotent.
Qed.

(** X9. A migration list whose migrations for the versions of the range
    all hand over to the default behaviour, as the documentation of
    [migrations] suggests, leaves the database exactly as an
    initialization with no migration list does (for descriptors the host
    makes stores of, under distinct names): the same stores at the same
    version and the same promise, which resolves when no open connection
    is in the way of the upgrade. *)
Theorem delegating_migrations_equal_default
    (dbName : string) (version : Z) (storeSchemas : list ObjectStoreMeta)
    (migrations : list IDBMigration) (f : gmap string IDBDatabase)
    (conns : list string) (released : bool) :
  let old := db_version (stored f dbName) in
  let by_list := snd (CreateObjectStore dbName version storeSchemas
                        (Some migrations) (world f conns released)) in
  let by_default := snd (CreateObjectStore dbName version storeSchemas None
                           (world f conns released)) in
  valid_schemas storeSchemas ->
  (0 < version <= max_version)%Z -> (old < version)%Z ->
  (forall v, (old < v <= version)%Z ->
     exists m, migration_for migrations v = Some m /\ delegates m) ->
  factory by_list = factory by_default /\
  promise by_list = promise by_default /\
  (dbName ∉ conns ->
   promise by_list = Resolved RUndefined /\
   stored (factory by_list) dbName
   = {| db_version := version;
        objectStores :=
          default_result storeSchemas (objectStores (stored f dbName)) |}).
Proof.
  intros old by_list by_default Hv H0 H1 Hall.
  destruct (applyMigrations_for_delegating storeSchemas migrations
              (Z.to_nat (version - old)) Hv (old + 1)
              {| database := objectStores (stored f dbName); invoked := [] |})
    as (found & Hrun).
  { intros v Hr. apply Hall. lia. }
  destruct (Z.to_nat (version - old)) as [|n] eqn:Hn; [lia|].
  rewrite <- Hn in Hrun. simpl in Hrun. unfold old in Hrun.
  rewrite <- (run_upgrade_migrations dbName version storeSchemas migrations f)
    in Hrun.
  assert (Hdef : run_upgrade (versionchange f dbName version) storeSchemas None
                   {| database := objectStores (stored f dbName);
                      invoked := [] |}
                 = (Normal tt,
                    {| database := default_result storeSchemas
                                     (objectStores (stored f dbName));
                       invoked := [] |})).
  { unfold run_upgrade. simpl.
    by rewrite (defaultMigrationBehaviour_valid _ Hv). }
  destruct (decide (dbName ∈ conns)) as [Hin|Hfree].
  - pose proof (CreateObjectStore_blocked dbName version storeSchemas
                  (Some migrations) f conns released H0 H1 Hin) as HC1.
    pose proof (CreateObjectStore_blocked dbName version storeSchemas None
                  f conns released H0 H1 Hin) as HC2.
    rewrite Hrun in HC1. rewrite Hdef in HC2.
    unfold by_list, by_default. rewrite HC1, HC2. done.
  - pose proof (CreateObjectStore_upgrade dbName version storeSchemas
                  (Some migrations) f conns released H0 H1 Hfree) as HC1.
    pose proof (CreateObjectStore_upgrade dbName version storeSchemas None
                  f conns released H0 H1 Hfree) as HC2.
    rewrite Hrun in HC1. rewrite Hdef in HC2.
    unfold by_list, by_default. rewrite HC1, HC2. simpl.
    split_and!; [done|done|]. intros _. split; [done|].
    by rewrite stored_insert.
Qed.

Lemma delegating_migrations_equal_default_witness :
  factory (snd (CreateObjectStore "app" 2 [people]
                  (Some [delegating 1; delegating 2]) (world ∅ [] false)))
  = factory (snd (CreateObjectStore "app" 2 [people] None (world ∅ [] false))).
Proof.
  refine (proj1 (delegating_migrations_equal_default "app" 2 [people]
                   [delegating 1; delegating 2] ∅ [] false people_valid
                   _ _ _)).
  - by apply version_in_range.
  - reflexivity.
  - intros v Hr. change (db_version (stored ∅ "app")) with 0%Z in Hr.
    assert (Hcases : v = 1%Z \/ v = 2%Z) by lia.
    destruct Hcases as [-> | ->]; eexists; split; reflexivity.
Defined.

(** ** The other operations on a store the database has *)

(** X10. [add] of a record whose key the store does not hold, and which
    repeats no value of a unique index, resolves with that key, at the
    success of the add request and before the transaction completes; a
    [getByID] with the key it resolved with then resolves with the record
    as stored. *)
Theorem add_resolves_with_usable_key
    (f : gmap string IDBDatabase) (dbName : string) (version : Z)
    (currentStore : string) (os : IDBObjectStore)
    (value : Value) (key : option Key) (k : Key) (v : Value) (g : Z) :
  let w := snd (add dbName version currentStore value key (fresh f)) in
  let afterwards := snd (getByID dbName version currentStore k (later w)) in
  opens f dbName version ->
  find_store currentStore (objectStores (stored f dbName)) = Some os ->
  store_key os value key = Normal (k, v, g) ->
  get_record k (os_records os) = None ->
  violates_unique os k v = false ->
  promise w = Resolved (RKey k) /\
  (exists given,
     call_key os value key = Normal given /\
     trace w = started_add dbName version currentStore
               ++ [ORequest (ReqAdd value given); ORequestSuccess (RKey k);
                   OSettled (Resolved (RKey k)); OComplete]) /\
  promise afterwards = Resolved (RValue (Some v)).
Proof.
  intros w afterwards Hopen Hfind Hkey Hnew Hu.
  destruct (store_key_Normal _ _ _ _ _ _ Hkey) as (given & Hcall & Hassign).
  set (os' := set_records os g (put_record k v (os_records os))).
  assert (Hw : w = finished (committed f dbName version os') [] false dbName
                     (Resolved (RKey k))
                     (started_add dbName version currentStore
                      ++ [ORequest (ReqAdd value given);
                          ORequestSuccess (RKey k);
                          OSettled (Resolved (RKey k)); OComplete])).
  { unfold w, fresh.
    by rewrite (add_run f [] false dbName version currentStore os Hopen
                  (unblocked_fresh _ _ _) Hfind value key given k v g
                  Hcall Hassign Hnew Hu). }
  split_and!.
  - by rewrite Hw.
  - exists given. split; [done|]. by rewrite Hw.
  - unfold afterwards. rewrite Hw, later_finished.
    rewrite (getByID_run (committed f dbName version os') _ false dbName
               version currentStore os').
    + simpl. by rewrite get_put_same.
    + by apply opens_committed.
    + apply unblocked_same. by rewrite stored_committed.
    + by apply (find_committed _ _ _ _ os).
Qed.

Lemma add_resolves_with_usable_key_witness :
  promise (snd (add "app" 1 "people" carol None (fresh app_two)))
  = Resolved (RKey (KNum 9)).
Proof.
  refine (proj1 (add_resolves_with_usable_key app_two "app" 1 "people"
                   (set_records (declared_store people) 8
                      [(KNum 5, ann); (KNum 7, bob)])
                   carol None (KNum 9) carol 10 _ _ _ _ _)).
  - by apply opens_example.
  - by vm_compute.
  - by vm_compute.
  - by vm_compute.
  - by vm_compute.
Defined.

(** X11. [add] of a record under a key the store already holds rejects
    with the request's ConstraintError, the transaction is aborted, and
    the stores are as before: a [getByID] still resolves with the record
    that was there. *)
Theorem add_of_duplicate_key_rejects
    (f : gmap string IDBDatabase) (dbName : string) (version : Z)
    (currentStore : string) (os : IDBObjectStore)
    (value : Value) (key : option Key) (k : Key) (v old : Value) (g : Z) :
  let w := snd (add dbName version currentStore value key (fresh f)) in
  let later := snd (getByID dbName version currentStore k (fresh (factory w))) in
  opens f dbName version ->
  find_store currentStore (objectStores (stored f dbName)) = Some os ->
  store_key os value key = Normal (k, v, g) ->
  get_record k (os_records os) = Some old ->
  promise w = Rejected (ErrEnv ConstraintError) /\
  objectStores (stored (factory w) dbName) = objectStores (stored f dbName) /\
  OAbort ∈ trace w /\ (OComplete ∉ trace w) /\
  promise later = Resolved (RValue (Some old)).
Proof.
  intros w later Hopen Hfind Hkey Hold.
  destruct (store_key_Normal _ _ _ _ _ _ Hkey) as (given & Hcall & Hassign).
  pose proof (add_run_duplicate f [] false dbName version currentStore os Hopen
                (unblocked_fresh _ _ _) Hfind value key given k v old g
                Hcall Hassign Hold) as Hrun.
  fold (fresh f) in Hrun.
  assert (Hf : factory w = after_open f dbName version)
    by (unfold w; by rewrite Hrun).
  split_and!.
  - unfold w. by rewrite Hrun.
  - rewrite Hf. by rewrite (stored_after_open _ _ _ Hopen).
  - unfold w. rewrite Hrun. simpl.
    do 7 apply list_elem_of_further. apply list_elem_of_here.
  - unfold w. rewrite Hrun. simpl. intros Hel.
    repeat (apply elem_of_cons in Hel as [Hel|Hel]; [discriminate Hel|]).
    by apply elem_of_nil in Hel.
  - unfold later, fresh. rewrite Hf.
    rewrite (getByID_run (after_open f dbName version) [] false dbName version
               currentStore os).
    + simpl. by rewrite Hold.
    + by apply opens_after_open.
    + apply unblocked_fresh.
    + by rewrite (stored_after_open _ _ _ Hopen).
Qed.

Lemma add_of_duplicate_key_rejects_witness :
  promise (snd (add "app" 1 "people" ann None (fresh app_two)))
  = Rejected (ErrEnv ConstraintError).
Proof.
  refine (proj1 (add_of_duplicate_key_rejects app_two "app" 1 "people"
                   (set_records (declared_store people) 8
                      [(KNum 5, ann); (KNum 7, bob)])
                   ann None (KNum 5) ann ann 8 _ _ _ _)).
  - by apply opens_example.
  - by vm_compute.
  - by vm_compute.
  - by vm_compute.
Defined.

(** X12. [deleteRecord] resolves at the success of the delete request,
    before the transaction completes, whether or not the key was there;
    afterwards a [getByID] with that key resolves with undefined, which is
    not an error, and every other key holds what it held. *)
Theorem deleteRecord_removes_the_key
    (f : gmap string IDBDatabase) (dbName : string) (version : Z)
    (currentStore : string) (os : IDBObjectStore) (key : Key) :
  let w := snd (deleteRecord dbName version currentStore key (fresh f)) in
  let later := snd (getByID dbName version currentStore key
                      (fresh (factory w))) in
  opens f dbName version ->
  find_store currentStore (objectStores (stored f dbName)) = Some os ->
  promise w = Resolved REvent /\
  trace w = started dbName version readwrite currentStore
            ++ [ORequest (ReqDelete key); ORequestSuccess RUndefined;
                OSettled (Resolved REvent); OComplete] /\
  promise later = Resolved (RValue None) /\
  (exists os',
     find_store currentStore (objectStores (stored (factory w) dbName))
     = Some os' /\
     forall k', k' <> key ->
                get_record k' (os_records os') = get_record k' (os_records os)).
Proof.
  intros w later Hopen Hfind.
  set (os' := set_records os (os_keygen os) (delete_record key (os_records os))).
  pose proof (deleteRecord_run f [] false dbName version currentStore os Hopen
                (unblocked_fresh _ _ _) Hfind key)
    as Hrun.
  fold (fresh f) in Hrun.
  assert (Hf : factory w = committed f dbName version os')
    by (unfold w; by rewrite Hrun).
  assert (Hfind' : find_store currentStore
                     (objectStores (stored (factory w) dbName)) = Some os').
  { rewrite Hf. by apply (find_committed _ _ _ _ os). }
  split_and!.
  - unfold w. by rewrite Hrun.
  - unfold w. by rewrite Hrun.
  - unfold later, fresh. rewrite Hf.
    rewrite (getByID_run (committed f dbName version os') [] false dbName
               version currentStore os').
    + simpl. by rewrite get_delete_same.
    + by apply opens_committed.
    + apply unblocked_fresh.
    + by rewrite <- Hf.
  - exists os'. split; [done|]. intros k' Hne. simpl.
    by apply get_delete_other.
Qed.

Lemma deleteRecord_removes_the_key_witness :
  promise (snd (getByID "app" 1 "people" (KNum 5)
                  (fresh (factory (snd (deleteRecord "app" 1 "people" (KNum 5)
                                          (fresh app_two)))))))
  = Resolved (RValue None).
Proof.
  refine (proj1 (proj2 (proj2
            (deleteRecord_removes_the_key app_two "app" 1 "people"
               (set_records (declared_store people) 8
                  [(KNum 5, ann); (KNum 7, bob)])
               (KNum 5) _ _)))).
  - by apply opens_example.
  - by vm_compute.
Defined.

(** X13. [clear] resolves when its transaction completes, and a
    [getAll] afterwards resolves with the empty sequence. *)
Theorem clear_then_getAll_is_empty
    (f : gmap string IDBDatabase) (dbName : string) (version : Z)
    (currentStore : string) (os : IDBObjectStore) :
  let w := snd (clear dbName version currentStore (fresh f)) in
  let later := snd (getAll dbName version currentStore (fresh (factory w))) in
  opens f dbName version ->
  find_store currentStore (objectStores (stored f dbName)) = Some os ->
  promise w = Resolved RUndefined /\
  trace w = started dbName version readwrite currentStore
            ++ [ORequest ReqClear; ORequestSuccess RUndefined;
                OComplete; OSettled (Resolved RUndefined)] /\
  promise later = Resolved (RValues []).
Proof.
  intros w later Hopen Hfind.
  set (os' := set_records os (os_keygen os) []).
  pose proof (clear_run f [] false dbName version currentStore os Hopen
                (unblocked_fresh _ _ _) Hfind) as Hrun.
  fold (fresh f) in Hrun.
  assert (Hf : factory w = committed f dbName version os')
    by (unfold w; by rewrite Hrun).
  split_and!.
  - unfold w. by rewrite Hrun.
  - unfold w. by rewrite Hrun.
  - unfold later, fresh. rewrite Hf.
    rewrite (getAll_run (committed f dbName version os') [] false dbName
               version currentStore os').
    + done.
    + by apply opens_committed.
    + apply unblocked_fresh.
    + by apply (find_committed _ _ _ _ os).
Qed.

Lemma clear_then_getAll_is_empty_witness :
  promise (snd (getAll "app" 1 "people"
                  (fresh (factory (snd (clear "app" 1 "people"
                                          (fresh app_two)))))))
  = Resolved (RValues []).
Proof.
  refine (proj2 (proj2
            (clear_then_getAll_is_empty app_two "app" 1 "people"
               (set_records (declared_store people) 8
                  [(KNum 5, ann); (KNum 7, bob)]) _ _))).
  - by apply opens_example.
  - by vm_compute.
Defined.

(** X14. The four read operations never change a store, whatever the
    database, the store name, the index name or the cursor callback:
    after [getAll], [getByID], [getByIndex] or [openCursor] the stores of
    the database are the stores it had. *)
Theorem reads_leave_the_stores_unchanged (b : Bound) (op : Operation)
    (f : gmap string IDBDatabase) :
  let w := snd (call b op (fresh f)) in
  is_read op = true ->
  objectStores (stored (factory w) (b_dbName b))
  = objectStores (stored f (b_dbName b)).
Proof.
  intros w Hread. destruct b as [n v s]. unfold w. clear w.
  change (b_dbName {| b_dbName := n; b_version := v; b_store := s |}) with n.
  destruct (decide ((0 < v <= max_version)%Z
                    /\ (db_version (stored f n) <= v)%Z))
    as [Hopen|Hfail].
  2:{ by rewrite (call_when_open_fails
                    {| b_dbName := n; b_version := v; b_store := s |} op f Hfail). }
  pose proof (unblocked_fresh f n v) as Hfree.
  destruct (decide (s ∈ objectStoreNames (objectStores (stored f n))))
    as [Hin|Hmiss].
  2:{ assert (Hval : validates op = true) by (by destruct op).
      unfold fresh.
      rewrite (validating_call_missing
                 {| b_dbName := n; b_version := v; b_store := s |} op f
                 [] false Hval Hopen Hfree Hmiss).
      cbn [snd factory rejected_world b_dbName b_version b_store].
      by rewrite (stored_after_open _ _ _ Hopen). }
  destruct (find_store_present _ _ Hin) as (os & Hfind & _ & _).
  unfold fresh.
  destruct op; try discriminate Hread;
    cbn [call b_dbName b_version b_store].
  - rewrite (getByID_run f [] false n v s os Hopen Hfree Hfind).
    cbn [snd factory finished].
    by apply (stores_after_read_commit f n v s os).
  - rewrite (getAll_run f [] false n v s os Hopen Hfree Hfind).
    cbn [snd factory finished].
    by apply (stores_after_read_commit f n v s os).
  - rewrite (openCursor_run f [] false n v s os cursorCallback keyRange Hopen
               Hfree Hfind).
    cbn [snd factory finished].
    by apply (stores_after_read_commit f n v s os).
  - destruct (find (fun ix => String.eqb (name ix) indexName) (os_indexes os))
      as [ix|] eqn:Hix.
    + destruct (getByIndex_run f [] false n v s os Hopen Hfree Hfind indexName
                  key ix Hix)
        as (r & Hrun).
      rewrite Hrun. cbn [snd factory finished].
      by apply (stores_after_read_commit f n v s os).
    + rewrite (getByIndex_no_index f [] false n v s os Hopen Hfree Hfind
                 indexName key Hix).
      cbn [snd factory finished].
      by rewrite (stored_after_open _ _ _ Hopen).
Qed.

Lemma reads_leave_the_stores_unchanged_witness :
  objectStores
    (stored (factory (snd (call (DBOperations "app" 1 "people")
                             (OpOpenCursor keep_going None) (fresh app_two))))
            "app")
  = objectStores (stored app_two "app").
Proof.
  exact (reads_leave_the_stores_unchanged (DBOperations "app" 1 "people")
           (OpOpenCursor keep_going None) app_two eq_refl).
Defined.

(** X15. [openDatabase] with no upgrade callback, at a version the host
    takes and the database has not reached, takes the database to that
    version with the stores it had; a [CreateObjectStore] at that version
    afterwards, the connection of the open still there, finds nothing to
    upgrade: it resolves, calls no migration and creates none of the
    declared stores. *)
Theorem plain_open_leaves_nothing_to_initialize
    (f : gmap string IDBDatabase) (dbName : string) (version : Z)
    (storeSchemas : list ObjectStoreMeta)
    (migrations : option (list IDBMigration)) :
  let opened := snd (openDatabase dbName version None (fresh f)) in
  let w := snd (CreateObjectStore dbName version storeSchemas migrations
                  (later opened)) in
  opens f dbName version ->
  stored (factory opened) dbName
  = {| db_version := version; objectStores := objectStores (stored f dbName) |} /\
  connections opened = [dbName] /\
  promise w = Resolved RUndefined /\
  migrations_run (trace w) = [] /\
  objectStores (stored (factory w) dbName) = objectStores (stored f dbName).
Proof.
  intros opened w Hopen.
  assert (Ho : opened = opened_world f [] false dbName version).
  { unfold opened, fresh.
    by rewrite (openDatabase_opens _ _ _ _ _ Hopen (unblocked_fresh _ _ _)). }
  pose proof (stored_after_open _ _ _ Hopen) as Hst.
  assert (Hrun : CreateObjectStore dbName version storeSchemas migrations
                   (later opened)
                 = (Normal tt,
                    {| factory := after_open f dbName version;
                       connections := [dbName];
                       releases := false;
                       promise := Resolved RUndefined;
                       trace := [OOpen dbName version;
                                 OSettled (Resolved RUndefined)] |})).
  { rewrite Ho.
    change (later (opened_world f [] false dbName version))
      with (world (after_open f dbName version) [dbName] false).
    apply CreateObjectStore_same; [by destruct Hopen|].
    by rewrite Hst. }
  unfold w. rewrite Hrun. rewrite Ho. simpl. rewrite Hst. done.
Qed.

Lemma plain_open_leaves_nothing_to_initialize_witness :
  objectStores
    (stored (factory (snd (CreateObjectStore "app" 1 [people] None
                             (later (snd (openDatabase "app" 1 None
                                            (fresh ∅))))))) "app")
  = [].
Proof.
  refine (proj2 (proj2 (proj2 (proj2
            (plain_open_leaves_nothing_to_initialize ∅ "app" 1 [people] None
               _))))).
  by apply opens_example.
Defined.

(** ** From [initDB] to the operations *)

(** X16. On a database that does not exist yet, [initDB] with
    descriptors the host makes stores of, under distinct names, no
    migration list, a version the host takes and a name that is not empty
    resolves, and then, for every declared store, [useIndexedDB] returns
    the operations bound to the configured name and version, whose
    [getAll] resolves with the empty sequence. *)
Theorem initDB_then_getAll_is_empty
    (strict : bool) (props : IndexedDBProps) (f : gmap string IDBDatabase)
    (meta : ObjectStoreMeta) :
  let cfg := fst (initDB strict props indexeddbConfiguration) in
  let w := snd (snd (initDB strict props indexeddbConfiguration) (fresh f)) in
  f !! props_name props = None ->
  migrations props = None ->
  valid_schemas (objectStoresMeta props) ->
  (0 < props_version props <= max_version)%Z ->
  props_name props <> "" ->
  meta ∈ objectStoresMeta props ->
  promise w = Resolved RUndefined /\
  useIndexedDB cfg (store meta)
  = Normal (DBOperations (props_name props) (props_version props) (store meta)) /\
  promise (snd (call (DBOperations (props_name props) (props_version props)
                        (store meta))
                  OpGetAll (later w)))
  = Resolved (RValues []).
Proof.
  intros cfg w Hnew Hnone Hvalid H0 Hname Hmeta.
  destruct props as [n v ss ms]. simpl in *. subst ms.
  assert (Hst : stored f n = {| db_version := 0; objectStores := [] |}).
  { unfold stored. by rewrite Hnew. }
  assert (H1 : (db_version (stored f n) < v)%Z) by (rewrite Hst; simpl; lia).
  pose proof (CreateObjectStore_upgrade n v ss None f [] false H0 H1
                (not_elem_of_nil _)) as HC.
  unfold run_upgrade in HC. simpl in HC.
  rewrite (defaultMigrationBehaviour_valid _ Hvalid) in HC.
  rewrite Hst in HC. simpl in HC.
  assert (Hw : w = after_upgrade n v f [] false (Normal tt)
                     {| database :=
                          map declared_store
                            (List.filter (missing_from []) ss);
                        invoked := [] |}).
  { unfold w, fresh. by rewrite HC. }
  assert (Hstw : stored (factory w) n
                 = {| db_version := v;
                      objectStores :=
                        map declared_store
                          (List.filter (missing_from []) ss) |}).
  { rewrite Hw. simpl. by rewrite stored_insert. }
  assert (Hl : later w = world (factory w) [] false) by (by rewrite Hw).
  split_and!.
  - by rewrite Hw.
  - unfold cfg, useIndexedDB. simpl.
    destruct (String.eqb_spec n ""); [done|].
    destruct (Z.eqb_spec v 0); [lia|]. done.
  - simpl. rewrite Hl.
    rewrite (getAll_run (factory w) [] false n v (store meta)
               (declared_store meta)).
    + done.
    + split; [done|]. rewrite Hstw. simpl. lia.
    + apply unblocked_fresh.
    + rewrite Hstw. simpl. destruct Hvalid as [Hs _].
      apply find_store_declared; [by apply NoDup_map_filter|].
      apply list_elem_of_In. apply List.filter_In.
      split; [by apply list_elem_of_In|done].
Qed.

Lemma initDB_then_getAll_is_empty_witness :
  let props := {| props_name := "app"; props_version := 1;
                  objectStoresMeta := [people]; migrations := None |} in
  promise (snd (call (DBOperations "app" 1 "people") OpGetAll
                  (later (snd (snd (initDB true props indexeddbConfiguration)
                                 (fresh ∅))))))
  = Resolved (RValues []).
Proof.
  refine (proj2 (proj2
            (initDB_then_getAll_is_empty true
               {| props_name := "app"; props_version := 1;
                  objectStoresMeta := [people]; migrations := None |}
               ∅ people _ _ _ _ _ _))).
  - reflexivity.
  - reflexivity.
  - apply people_valid.
  - by apply version_in_range.
  - discriminate.
  - apply list_elem_of_here.
Defined.

(** ** Unique indexes; cursors and ranges *)

(** X17. A write that would give a second record a value of a unique
    index is refused by the request, for [add] and for [update] alike:
    the promise rejects with the request's ConstraintError, the
    transaction is aborted and never completes, and the stores are as
    before. *)
Theorem unique_index_refuses_repeated_value
    (f : gmap string IDBDatabase) (dbName : string) (version : Z)
    (currentStore : string) (os : IDBObjectStore)
    (value : Value) (key : option Key) (k : Key) (v : Value) (g : Z) :
  let added := snd (add dbName version currentStore value key (fresh f)) in
  let updated := snd (update dbName version currentStore value key (fresh f)) in
  opens f dbName version ->
  find_store currentStore (objectStores (stored f dbName)) = Some os ->
  store_key os value key = Normal (k, v, g) ->
  violates_unique os k v = true ->
  (promise added = Rejected (ErrEnv ConstraintError) /\
   objectStores (stored (factory added) dbName)
   = objectStores (stored f dbName) /\
   OAbort ∈ trace added /\ (OComplete ∉ trace added)) /\
  (promise updated = Rejected (ErrEnv ConstraintError) /\
   objectStores (stored (factory updated) dbName)
   = objectStores (stored f dbName) /\
   OAbort ∈ trace updated /\ (OComplete ∉ trace updated)).
Proof.
  intros added updated Hopen Hfind Hkey Hu.
  destruct (store_key_Normal _ _ _ _ _ _ Hkey) as (given & Hcall & Hassign).
  pose proof (add_run_clash f [] false dbName version currentStore os Hopen
                (unblocked_fresh _ _ _) Hfind value key given k v g
                Hcall Hassign Hu) as Hadd.
  pose proof (update_clash f [] false dbName version currentStore os Hopen
                (unblocked_fresh _ _ _) Hfind value key given k v g
                Hcall Hassign Hu) as Hupd.
  fold (fresh f) in Hadd, Hupd.
  split.
  - unfold added. rewrite Hadd. cbn [snd promise factory trace finished].
    split_and!; [done|by rewrite (stored_after_open _ _ _ Hopen)| |].
    + unfold started_add. in_trace.
    + unfold started_add. intros Hel. simpl in Hel.
      repeat (apply elem_of_cons in Hel as [Hel|Hel]; [discriminate Hel|]).
      by apply elem_of_nil in Hel.
  - unfold updated. rewrite Hupd. cbn [snd promise factory trace finished].
    split_and!; [done|by rewrite (stored_after_open _ _ _ Hopen)| |].
    + unfold started. in_trace.
    + unfold started. intros Hel. simpl in Hel.
      repeat (apply elem_of_cons in Hel as [Hel|Hel]; [discriminate Hel|]).
      by apply elem_of_nil in Hel.
Qed.

Lemma unique_index_refuses_repeated_value_witness :
  promise (snd (add "app" 1 "people" dan None (fresh app_two)))
  = Rejected (ErrEnv ConstraintError).
Proof.
  refine (proj1 (proj1 (unique_index_refuses_repeated_value app_two "app" 1
                          "people"
                          (set_records (declared_store people) 8
                             [(KNum 5, ann); (KNum 7, bob)])
                          dan None (KNum 6) dan 8 _ _ _ _))).
  - by apply opens_example.
  - by vm_compute.
  - by vm_compute.
  - by vm_compute.
Defined.

Lemma visited_entries (cb : option (Key * Value) -> CursorAction)
    (entries : list (Key * Value)) (entry : Key * Value) :
  Some entry ∈ visited cb entries -> entry ∈ entries.
Proof.
  induction entries as [|e rest IH]; simpl.
  - intros H. apply list_elem_of_singleton in H. discriminate H.
  - intros H. apply elem_of_cons in H as [[= ->]|H]; [apply list_elem_of_here|].
    apply list_elem_of_further. destruct (cb (Some e)); [by apply IH|].
    by apply elem_of_nil in H.
Qed.

Lemma elem_of_tail_in {A} (x : A) (l : list A) : x ∈ tail l -> x ∈ l.
Proof. destruct l; simpl; [done|]. by apply list_elem_of_further. Qed.

(** X18. [openCursor] never hands the caller's callback an entry from
    outside the key range or from outside the store: every entry the
    callback is called with is a record of the store whose key lies in
    the range (any record, when no range is given). *)
Theorem openCursor_stays_within_the_range
    (f : gmap string IDBDatabase) (dbName : string) (version : Z)
    (currentStore : string) (os : IDBObjectStore)
    (cb : option (Key * Value) -> CursorAction)
    (keyRange : option (Key * Key)) (k : Key) (v : Value) :
  let w := snd (openCursor dbName version currentStore cb keyRange (fresh f)) in
  opens f dbName version ->
  find_store currentStore (objectStores (stored f dbName)) = Some os ->
  OCursorCallback (Some (k, v)) ∈ trace w ->
  (k, v) ∈ os_records os /\ in_range keyRange k = true.
Proof.
  intros w Hopen Hfind. unfold w, fresh.
  rewrite (openCursor_run f [] false dbName version currentStore os cb keyRange
             Hopen (unblocked_fresh _ _ _) Hfind).
  cbn [snd trace finished]. set (entries := List.filter _ (os_records os)).
  intros Hel.
  assert (Hin : (k, v) ∈ entries).
  { unfold started in Hel.
    repeat (apply elem_of_cons in Hel as [Hel|Hel]; [discriminate Hel|]).
    apply elem_of_cons in Hel as [Hel|Hel].
    - injection Hel as Hhead. destruct entries as [|e rest]; [discriminate|].
      simpl in Hhead. injection Hhead as <-. apply list_elem_of_here.
    - apply elem_of_cons in Hel as [Hel|Hel]; [discriminate Hel|].
      apply elem_of_app in Hel as [Hel|Hel].
      + apply list_elem_of_fmap in Hel as (e & He & Hv).
        injection He as <-. apply (visited_entries cb).
        by apply elem_of_tail_in.
      + apply list_elem_of_singleton in Hel. discriminate Hel. }
  apply list_elem_of_In in Hin. apply List.filter_In in Hin as [Hin Hr].
  split; [by apply list_elem_of_In|done].
Qed.

Lemma openCursor_stays_within_the_range_witness :
  (KNum 7, bob) ∈ os_records (set_records (declared_store people) 8
                                [(KNum 5, ann); (KNum 7, bob)])
  /\ in_range (Some (KNum 6, KNum 9)) (KNum 7) = true.
Proof.
  refine (openCursor_stays_within_the_range app_two "app" 1 "people"
            (set_records (declared_store people) 8
               [(KNum 5, ann); (KNum 7, bob)])
            keep_going (Some (KNum 6, KNum 9)) (KNum 7) bob _ _ _).
  - by apply opens_example.
  - by vm_compute.
  - vm_compute. do 6 apply list_elem_of_further. apply list_elem_of_here.
Defined.

(** ** Descriptors the host refuses *)

Lemma creatable_dec (meta : ObjectStoreMeta) :
  creatable meta \/ ~ creatable meta.
Proof.
  unfold creatable.
  destruct (valid_key_path (keyPath (storeConfig meta))); [|right; by intros [? _]].
  destruct (decide (autoIncrement (storeConfig meta) = true ->
                    keyPath (storeConfig meta) <> "")) as [Hg|Hg];
    [|right; by intros (_ & ? & _)].
  destruct (decide (NoDup (map name (storeSchema meta)))) as [Hn|Hn];
    [|right; by intros (_ & _ & ? & _)].
  destruct (decide (Forall (fun ix => valid_key_path (keypath ix) = true)
                      (storeSchema meta))) as [Hp|Hp];
    [by left|right; by intros (_ & _ & _ & ?)].
Qed.

Lemma createIndex_each_fails (db : list IDBObjectStore)
    (ixs : list ObjectStoreSchema) :
  forall os : IDBObjectStore,
    os_name os ∉ objectStoreNames db ->
    NoDup (indexNames os) ->
    ~ (NoDup (indexNames os ++ map name ixs) /\
       Forall (fun ix => valid_key_path (keypath ix) = true) ixs) ->
    exists e,
      fst (forEach (fun schema : ObjectStoreSchema =>
                      createIndex (os_name os) (name schema) (keypath schema)
                                  (options schema)) ixs (db ++ [os]))
      = Throw (ErrEnv e) /\
      (e = ConstraintError \/ e = SyntaxError).
Proof.
  induction ixs as [|ix ixs IH]; intros os Hos Hnd Hbad.
  - exfalso. apply Hbad. simpl. rewrite app_nil_r. split; [done|constructor].
  - simpl. unfold bind at 1. unfold createIndex at 1.
    rewrite (find_store_last os db Hos).
    destruct (contains (indexNames os) (name ix)) eqn:Hc;
      [exists ConstraintError; split; [done|by left]|].
    destruct (valid_key_path (keypath ix)) eqn:Hp; cbn [negb];
      [|exists SyntaxError; split; [done|by right]].
    set (os' := add_index _ os).
    rewrite (replace_store_last os os' db eq_refl Hos).
    change (os_name os) with (os_name os').
    apply contains_false in Hc.
    assert (Hnames : indexNames os' = indexNames os ++ [name ix]).
    { unfold os', add_index, indexNames. simpl. by rewrite map_app. }
    apply IH; [done| |].
    + rewrite Hnames. apply NoDup_app. split_and!; [done| |].
      * intros x Hx Hx'. apply list_elem_of_singleton in Hx'. by subst.
      * apply NoDup_singleton.
    + intros [Hnd' Hall]. apply Hbad. split.
      * by rewrite Hnames, <- app_assoc in Hnd'.
      * by constructor.
Qed.

(** What the loop of the default behaviour does with a descriptor the
    host refuses. *)
Lemma create_refused (meta : ObjectStoreMeta) (db : list IDBObjectStore) :
  ~ creatable meta ->
  store meta ∉ objectStoreNames db ->
  exists e,
    fst ((objectStore <- createObjectStore (store meta) (storeConfig meta) ;
          forEach (fun schema : ObjectStoreSchema =>
                     createIndex objectStore (name schema) (keypath schema)
                                 (options schema))
                  (storeSchema meta))%se db)
    = Throw (ErrEnv e) /\
    (e = SyntaxError \/ e = InvalidAccessError \/ e = ConstraintError).
Proof.
  intros Hbad Hmiss. unfold bind, createObjectStore.
  destruct (valid_key_path (keyPath (storeConfig meta))) eqn:Hpath; cbn [negb];
    [|exists SyntaxError; split; [done|by left]].
  pose proof Hmiss as Hc. apply contains_false in Hc. rewrite Hc.
  destruct (autoIncrement (storeConfig meta)
            && String.eqb (keyPath (storeConfig meta)) "") eqn:Hgen;
    [exists InvalidAccessError; split; [done|right; by left]|].
  destruct (createIndex_each_fails db (storeSchema meta)
              (new_store (store meta) (storeConfig meta)) Hmiss)
    as (e & He & Hcases).
  - apply NoDup_nil_2.
  - intros [Hnd Hall]. apply Hbad. split_and!; [done| |done|done].
    intros Ha Hk. rewrite Ha, Hk in Hgen. done.
  - exists e. split; [exact He|]. destruct Hcases as [->| ->]; auto.
Qed.

(** X19. The default behaviour succeeds exactly when each descriptor it
    creates a store for is one the host makes a store of: then it returns
    true and the created stores are those of these descriptors, in order.
    When one of them is not (an invalid key path, a key generator with
    the empty key path, a repeated index name), it throws the error of
    [createObjectStore] or [createIndex], a SyntaxError, an
    InvalidAccessError or a ConstraintError, which makes the
    initialization reject.  The failing half is stated for key paths
    within ASCII, where the model decides validity as the host does. *)
Theorem default_behaviour_needs_creatable_descriptors
    (storeSchemas : list ObjectStoreMeta) (db : list IDBObjectStore) :
  let created := to_create (objectStoreNames db) storeSchemas in
  (Forall creatable created ->
   defaultMigrationBehaviour storeSchemas db
   = (Normal true, db ++ map declared_store created)) /\
  (~ Forall creatable created -> Forall plain_paths created ->
   exists e,
     fst (defaultMigrationBehaviour storeSchemas db) = Throw (ErrEnv e) /\
     (e = SyntaxError \/ e = InvalidAccessError \/ e = ConstraintError)).
Proof.
  intros created. unfold created. clear created.
  unfold defaultMigrationBehaviour.
  match goal with |- context [forEach ?g _] => set (body := g) end.
  assert (Hloop : forall db,
    (Forall creatable (to_create (objectStoreNames db) storeSchemas) ->
     forEach body storeSchemas db
     = (Normal tt,
        db ++ map declared_store
                (to_create (objectStoreNames db) storeSchemas))) /\
    (~ Forall creatable (to_create (objectStoreNames db) storeSchemas) ->
     exists e,
       fst (forEach body storeSchemas db) = Throw (ErrEnv e) /\
       (e = SyntaxError \/ e = InvalidAccessError \/ e = ConstraintError))).
  { clear db. induction storeSchemas as [|meta rest IH]; intros db.
    - simpl. split.
      + intros _. unfold ret. by rewrite app_nil_r.
      + intros H. exfalso. apply H. constructor.
    - simpl to_create.
      destruct (contains (objectStoreNames db) (store meta)) eqn:Hc.
      + assert (Hb : body meta db = (Normal tt, db)).
        { unfold body, bind, read_objectStoreNames. by rewrite Hc. }
        simpl forEach. unfold bind. rewrite Hb. apply IH.
      + pose proof Hc as Hmiss. apply contains_false in Hmiss.
        destruct (creatable_dec meta) as [Hok|Hbad].
        * assert (Hb : body meta db
                       = (Normal tt, db ++ [declared_store meta])).
          { unfold body. unfold bind at 1. unfold read_objectStoreNames.
            rewrite Hc. cbn [negb]. cbv iota beta.
            by apply create_declared. }
          simpl forEach. unfold bind. rewrite Hb.
          destruct (IH (db ++ [declared_store meta])) as [IH1 IH2].
          assert (Hn : objectStoreNames (db ++ [declared_store meta])
                       = objectStoreNames db ++ [store meta]).
          { unfold objectStoreNames. by rewrite map_app. }
          rewrite Hn in IH1, IH2. split.
          -- intros Hall. apply Forall_cons in Hall as [_ Hall].
             rewrite (IH1 Hall). rewrite <- app_assoc. done.
          -- intros Hnot. apply IH2. intros Hall. apply Hnot.
             by constructor.
        * assert (Hb : exists e,
                    fst (body meta db) = Throw (ErrEnv e) /\
                    (e = SyntaxError \/ e = InvalidAccessError
                     \/ e = ConstraintError)).
          { unfold body. unfold bind at 1. unfold read_objectStoreNames.
            rewrite Hc. cbn [negb]. cbv iota beta.
            by apply create_refused. }
          destruct Hb as (e & Hb & Hcases).
          simpl forEach. unfold bind.
          destruct (body meta db) as [[[]|e'] db1]; simpl in Hb;
            [discriminate Hb|]. split.
          -- intros Hall. apply Forall_cons in Hall as [Hm _]. done.
          -- intros _. exists e. done. }
  destruct (Hloop db) as [H1 H2]. split.
  - intros Hall. unfold bind. by rewrite (H1 Hall).
  - intros Hnot _. destruct (H2 Hnot) as (e & He & Hcases). exists e.
    split; [|done]. unfold bind.
    destruct (forEach body storeSchemas db) as [[[]|e'] db1]; simpl in *;
      [discriminate He|by injection He as ->].
Qed.

Lemma default_behaviour_needs_creatable_descriptors_witness :
  exists e,
    fst (defaultMigrationBehaviour [counters] []) = Throw (ErrEnv e) /\
    (e = SyntaxError \/ e = InvalidAccessError \/ e = ConstraintError).
Proof.
  refine (proj2 (default_behaviour_needs_creatable_descriptors [counters] [])
            _ _).
  - intros H. change (Forall creatable [counters]) in H.
    apply Forall_cons in H as [(_ & Hgen & _) _]. by apply (Hgen eq_refl).
  - change (Forall plain_paths [counters]). repeat constructor.
Defined.
